(** * phtree: the intrusive balanced tree of lib/phtree.c

    A shallow embedding of [lib/phtree.c] and [tools/include/linux/phtree.h].
    Nodes live in a store indexed by their address; a pointer is the address
    as an integer and [NULL] is [0].  A function that only reads takes the
    store and returns [option]; a function that writes runs in the small
    state monad [M].  In both, [None] stands for an access to an address that
    holds no node, or for a loop that ran out of its iteration budget. *)

From Stdlib Require Import ZArith Lia String.
From stdpp Require Import gmap list sorting.

Open Scope Z_scope.
#[local] Set Warnings "-clear-no-such-hyp".

(** ** Declarations of phtree.h *)

(** C types of the members that occur in the header. *)
Inductive ctype : Type :=
  | Tptr_ph_node   (* struct ph_node * *)
  | Tulong.        (* unsigned long *)

(** [struct ph_node], phtree.h:19-22, member by member as it is declared. *)
Definition ph_node_decl : list (string * ctype) :=
  [ ("ph_right"%string, Tptr_ph_node); ("ph_left"%string, Tptr_ph_node) ].

(** [struct ph_root], phtree.h:25-27. *)
Definition ph_root_decl : list (string * ctype) :=
  [ ("ph_node"%string, Tptr_ph_node) ].

(** Member lookup in a struct declaration, as the compiler resolves [p->f]. *)
Fixpoint member (f : string) (decl : list (string * ctype)) : option ctype :=
  match decl with
  | [] => None
  | (g, ty) :: rest => if String.eqb f g then Some ty else member f rest
  end.

(** The member that [PH_EMPTY_NODE] reads, phtree.h:37-38. *)
Definition PH_EMPTY_NODE_member : string := "__ph_parent_color"%string.

(** ** The store *)

Definition NULL : Z := 0.

(** A node as the functions of phtree.c use it: the two links of the
    declaration and the packed word [__ph_parent_color] that
    [PH_EMPTY_NODE], [ph_parent] and [ph_set_parent_color] access. *)
Record ph_node : Type := mk_ph_node {
  __ph_parent_color : Z;
  ph_right : Z;
  ph_left : Z
}.

(** [struct ph_root]: the address of the topmost node, or [NULL]. *)
Record ph_root : Type := mk_ph_root { ph_root_node : Z }.

Abbreviation store := (gmap Z ph_node).

(** Modelled from the spec: the colour constants [ph_RED] and [ph_BLACK] are
    not declared in the sources at hand; the colour is the one bit packed
    under the parent reference, RED being the clear bit. *)
Definition ph_RED : Z := 0.
Definition ph_BLACK : Z := 1.

(** Nodes are aligned to [sizeof(long)], phtree.h:22, which leaves the two
    low bits of an address clear. *)
Definition aligned (p : Z) : Prop := Z.land p 3 = 0.

(** Modelled from the spec: the body of the macro [ph_parent] is cut off at
    phtree.h:29; the parent reference is the packed word without its low
    bits. *)
Definition __ph_parent (pc : Z) : Z := Z.land pc (Z.lnot 3).

(** Modelled from the spec: colour tests on the packed word (phtree_augmented.h
    is not among the sources). *)
Definition __ph_color (pc : Z) : Z := Z.land pc 1.
Definition __ph_is_black (pc : Z) : bool := negb (__ph_color pc =? 0).
Definition __ph_is_red (pc : Z) : bool := __ph_color pc =? 0.

Definition nonnull (p : Z) : bool := negb (p =? 0).

(** ** Reading functions *)

Definition ph_parent (m : store) (r : Z) : option Z :=
  n ← m !! r; Some (__ph_parent (__ph_parent_color n)).

(** Modelled from the spec: [ph_red_parent] (phtree_augmented.h) reads the
    packed word of a node known to be RED as the parent reference itself. *)
Definition ph_red_parent (m : store) (r : Z) : option Z :=
  n ← m !! r; Some (__ph_parent_color n).

Definition ph_is_black (m : store) (r : Z) : option bool :=
  n ← m !! r; Some (__ph_is_black (__ph_parent_color n)).

Definition ph_is_red (m : store) (r : Z) : option bool :=
  n ← m !! r; Some (__ph_is_red (__ph_parent_color n)).

(** phtree.h:37-38; phtree.c spells it [ph_EMPTY_NODE]. *)
Definition PH_EMPTY_NODE (m : store) (node : Z) : option bool :=
  n ← m !! node; Some (__ph_parent_color n =? node).

(** phtree.h:34. *)
Definition PH_EMPTY_ROOT (root : ph_root) : bool := ph_root_node root =? NULL.

(** [while (n->ph_left) n = n->ph_left;] *)
Fixpoint descend_left (fuel : nat) (m : store) (n : Z) : option Z :=
  match fuel with
  | O => None
  | S fuel' =>
      nd ← m !! n;
      if nonnull (ph_left nd) then descend_left fuel' m (ph_left nd) else Some n
  end.

(** [while (n->ph_right) n = n->ph_right;] *)
Fixpoint descend_right (fuel : nat) (m : store) (n : Z) : option Z :=
  match fuel with
  | O => None
  | S fuel' =>
      nd ← m !! n;
      if nonnull (ph_right nd) then descend_right fuel' m (ph_right nd) else Some n
  end.

(** phtree.c:209-219. *)
Definition ph_first (fuel : nat) (m : store) (root : ph_root) : option Z :=
  let n := ph_root_node root in
  if nonnull n then descend_left fuel m n else Some NULL.

(** phtree.c:222-232. *)
Definition ph_last (fuel : nat) (m : store) (root : ph_root) : option Z :=
  let n := ph_root_node root in
  if nonnull n then descend_right fuel m n else Some NULL.

(** [while ((parent = ph_parent(node)) && node == parent->ph_right)
       node = parent;
     return parent;]   phtree.c:260-263 *)
Fixpoint climb_from_right (fuel : nat) (m : store) (node : Z) : option Z :=
  match fuel with
  | O => None
  | S fuel' =>
      parent ← ph_parent m node;
      if nonnull parent then
        p ← m !! parent;
        if node =? ph_right p then climb_from_right fuel' m parent
        else Some parent
      else Some parent
  end.

(** The mirrored loop of [ph_prev], phtree.c:289-292. *)
Fixpoint climb_from_left (fuel : nat) (m : store) (node : Z) : option Z :=
  match fuel with
  | O => None
  | S fuel' =>
      parent ← ph_parent m node;
      if nonnull parent then
        p ← m !! parent;
        if node =? ph_left p then climb_from_left fuel' m parent
        else Some parent
      else Some parent
  end.

(** phtree.c:235-264. *)
Definition ph_next (fuel : nat) (m : store) (node : Z) : option Z :=
  e ← PH_EMPTY_NODE m node;
  if e : bool then Some NULL
  else
    nd ← m !! node;
    if nonnull (ph_right nd) then descend_left fuel m (ph_right nd)
    else climb_from_right fuel m node.

(** phtree.c:267-293. *)
Definition ph_prev (fuel : nat) (m : store) (node : Z) : option Z :=
  e ← PH_EMPTY_NODE m node;
  if e : bool then Some NULL
  else
    nd ← m !! node;
    if nonnull (ph_left nd) then descend_right fuel m (ph_left nd)
    else climb_from_left fuel m node.

(** phtree.c:335-345. *)
Fixpoint ph_left_deepest_node (fuel : nat) (m : store) (node : Z) : option Z :=
  match fuel with
  | O => None
  | S fuel' =>
      nd ← m !! node;
      if nonnull (ph_left nd) then ph_left_deepest_node fuel' m (ph_left nd)
      else if nonnull (ph_right nd) then ph_left_deepest_node fuel' m (ph_right nd)
      else Some node
  end.

(** phtree.c:347-363. *)
Definition ph_next_postorder (fuel : nat) (m : store) (node : Z) : option Z :=
  if nonnull node then
    parent ← ph_parent m node;
    if nonnull parent then
      p ← m !! parent;
      if (node =? ph_left p) && nonnull (ph_right p)
      then ph_left_deepest_node fuel m (ph_right p)
      else Some parent
    else Some parent
  else Some NULL.

(** phtree.c:366-372. *)
Definition ph_first_postorder (fuel : nat) (m : store) (root : ph_root) : option Z :=
  if nonnull (ph_root_node root) then ph_left_deepest_node fuel m (ph_root_node root)
  else Some NULL.

(** [for (n = first; n; n = step(n)) visit(n);] with the visited nodes
    collected in the order of the visits. *)
Fixpoint walk (step : Z → option Z) (fuel : nat) (cur : Z) : option (list Z) :=
  if nonnull cur then
    match fuel with
    | O => None
    | S fuel' =>
        nxt ← step cur;
        rest ← walk step fuel' nxt;
        Some (cur :: rest)
    end
  else Some [].

Definition ph_inorder_walk (fuel : nat) (m : store) (root : ph_root) : option (list Z) :=
  n ← ph_first fuel m root; walk (ph_next fuel m) fuel n.

Definition ph_reverse_walk (fuel : nat) (m : store) (root : ph_root) : option (list Z) :=
  n ← ph_last fuel m root; walk (ph_prev fuel m) fuel n.

Definition ph_postorder_walk (fuel : nat) (m : store) (root : ph_root) : option (list Z) :=
  n ← ph_first_postorder fuel m root; walk (ph_next_postorder fuel m) fuel n.

(** ** Trees laid out in the store *)

Inductive color : Type := Red | Black.

Definition color_bit (c : color) : Z :=
  match c with Red => ph_RED | Black => ph_BLACK end.

(** The shape of a linked tree: at each position the address of the node
    that occupies it and the colour of that node. *)
Inductive tree : Type :=
  | Leaf
  | Node (l : tree) (a : Z) (c : color) (r : tree).

Fixpoint inorder (t : tree) : list Z :=
  match t with
  | Leaf => []
  | Node l a _ r => inorder l ++ a :: inorder r
  end.

Fixpoint postorder (t : tree) : list Z :=
  match t with
  | Leaf => []
  | Node l a _ r => postorder l ++ postorder r ++ [a]
  end.

Fixpoint height (t : tree) : nat :=
  match t with
  | Leaf => O
  | Node l _ _ r => S (Nat.max (height l) (height r))
  end.

Fixpoint size (t : tree) : nat :=
  match t with
  | Leaf => O
  | Node l _ _ r => S (size l + size r)
  end.

Definition root_of (t : tree) : Z :=
  match t with Leaf => NULL | Node _ a _ _ => a end.

(** [repr m p t x]: the pointer [x] leads, in the store [m], to the tree [t]
    whose topmost node records [p] as its parent. *)
Fixpoint repr (m : store) (p : Z) (t : tree) (x : Z) : Prop :=
  match t with
  | Leaf => x = NULL
  | Node l a c r =>
      x = a ∧ a ≠ NULL ∧ aligned a ∧
      ∃ n, m !! a = Some n ∧
           __ph_parent_color n = Z.lor p (color_bit c) ∧
           repr m a l (ph_left n) ∧ repr m a r (ph_right n)
  end.

(** The nodes currently linked under [root] are those of [t], each at one
    position. *)
Definition linked (m : store) (root : ph_root) (t : tree) : Prop :=
  repr m NULL t (ph_root_node root) ∧ NoDup (inorder t).

(** Caller-defined order: [key] ranks the records that embed the nodes, and
    the linking discipline keeps smaller keys to the left. *)
Fixpoint bst (key : Z → Z) (t : tree) : Prop :=
  match t with
  | Leaf => True
  | Node l a _ r =>
      bst key l ∧ bst key r ∧
      (∀ x, x ∈ inorder l → key x < key a) ∧
      (∀ y, y ∈ inorder r → key a < key y)
  end.

(** [x] is visited before [y] in the sequence of visits [vs]. *)
Definition visited_before (x y : Z) (vs : list Z) : Prop :=
  ∃ l1 l2 l3, vs = l1 ++ x :: l2 ++ y :: l3.

(** The node visited first by a walk from the left when the walk of [t] is
    followed by [k], and the node visited right after [y]. *)
Fixpoint first_in (t : tree) (k : Z) : Z :=
  match t with
  | Leaf => k
  | Node l a _ _ => first_in l a
  end.

Fixpoint succ_in (t : tree) (k : Z) (y : Z) : option Z :=
  match t with
  | Leaf => None
  | Node l a _ r =>
      if y =? a then Some (first_in r k)
      else match succ_in l a y with
           | Some s => Some s
           | None => succ_in r k y
           end
  end.

(** The same for the postorder walk: the left-deepest node comes first. *)
Fixpoint first_post (t : tree) (k : Z) : Z :=
  match t with
  | Leaf => k
  | Node l a _ r => first_post l (first_post r a)
  end.

Fixpoint succ_post (t : tree) (k : Z) (y : Z) : option Z :=
  match t with
  | Leaf => None
  | Node l a _ r =>
      if y =? a then Some k
      else match succ_post l (first_post r a) y with
           | Some s => Some s
           | None => succ_post r a y
           end
  end.

(** Left and right exchanged, in a node, in the store and in a shape. *)
Definition swap_links (n : ph_node) : ph_node :=
  {| __ph_parent_color := __ph_parent_color n;
     ph_right := ph_left n;
     ph_left := ph_right n |}.

Fixpoint mirror (t : tree) : tree :=
  match t with
  | Leaf => Leaf
  | Node l a c r => Node (mirror r) a c (mirror l)
  end.


(** ** Writing functions *)

(** A call of one of the caller's augmentation callbacks. *)
Inductive aug_call : Type :=
  | Propagate (node stop : Z)
  | Copy (old new : Z)
  | Rotate (old new : Z).

(** What the writing functions act on: the nodes, the root they are given,
    and the caller's augmented data, kept as the record of the callbacks
    received so far (the latest first). *)
Record ph_state : Type := mk_state {
  st_store : store;
  st_root : ph_root;
  st_calls : list aug_call
}.

Definition M (A : Type) : Type := ph_state → option (A * ph_state).

Definition ret {A : Type} (a : A) : M A := λ s, Some (a, s).

Definition bind {A B : Type} (x : M A) (f : A → M B) : M B :=
  λ s, match x s with
       | Some (a, s') => f a s'
       | None => None
       end.

Notation "'let*' x := e 'in' k" := (bind e (λ x, k))
  (at level 10, x name, e at level 200, k at level 200, only parsing).
Notation "'let*' ' p := e 'in' k" := (bind e (λ x, match x with p => k end))
  (at level 10, p pattern, e at level 200, k at level 200, only parsing).
Notation "e ;;; k" := (bind e (λ _, k))
  (at level 100, k at level 200, right associativity, only parsing).

(** Run a reading function on the current store. *)
Definition rd {A : Type} (f : store → option A) : M A :=
  λ s, match f (st_store s) with
       | Some a => Some (a, s)
       | None => None
       end.

Definition load (a : Z) : M ph_node := rd (λ m, m !! a).

Definition store_node (a : Z) (n : ph_node) : M unit :=
  λ s, match st_store s !! a with
       | Some _ => Some (tt, mk_state (<[a := n]> (st_store s)) (st_root s) (st_calls s))
       | None => None
       end.

Definition get_left (a : Z) : M Z := let* n := load a in ret (ph_left n).
Definition get_right (a : Z) : M Z := let* n := load a in ret (ph_right n).
Definition get_parent_color (a : Z) : M Z := let* n := load a in ret (__ph_parent_color n).

(** [WRITE_ONCE(a->ph_left, v)] and its like. *)
Definition set_left (a v : Z) : M unit :=
  let* n := load a in
  store_node a {| __ph_parent_color := __ph_parent_color n;
                  ph_right := ph_right n; ph_left := v |}.

Definition set_right (a v : Z) : M unit :=
  let* n := load a in
  store_node a {| __ph_parent_color := __ph_parent_color n;
                  ph_right := v; ph_left := ph_left n |}.

Definition set_parent_color_word (a v : Z) : M unit :=
  let* n := load a in
  store_node a {| __ph_parent_color := v;
                  ph_right := ph_right n; ph_left := ph_left n |}.

Definition set_root (v : Z) : M unit :=
  λ s, Some (tt, mk_state (st_store s) (mk_ph_root v) (st_calls s)).

(** An augmentation callback acts on the caller's data only. *)
Definition callback : Type := Z → Z → list aug_call → list aug_call.

Definition call (cb : callback) (x y : Z) : M unit :=
  λ s, Some (tt, mk_state (st_store s) (st_root s) (cb x y (st_calls s))).

(** phtree.c:167-169. *)
Definition dummy_propagate : callback := λ _ _ calls, calls.
Definition dummy_copy : callback := λ _ _ calls, calls.
Definition dummy_rotate : callback := λ _ _ calls, calls.

(** A caller that keeps track of the rotations it is told of. *)
Definition record_rotate : callback := λ old new calls, Rotate old new :: calls.

(** Modelled from the spec: [ph_set_parent_color] and [ph_set_parent]
    (phtree_augmented.h) write the packed word: a parent reference with a
    colour under it; [ph_set_parent] keeps the colour the node has. *)
Definition ph_set_parent_color (rb p color : Z) : M unit :=
  set_parent_color_word rb (Z.lor p color).

Definition ph_set_parent (rb p : Z) : M unit :=
  let* pc := get_parent_color rb in
  set_parent_color_word rb (Z.lor p (__ph_color pc)).

(** Modelled from the spec: [__ph_change_child] (phtree_augmented.h) repoints
    the child slot of [parent] that holds [old], or the root when there is no
    parent, to [new]. *)
Definition __ph_change_child (old new parent : Z) : M unit :=
  if nonnull parent then
    let* l := get_left parent in
    if l =? old then set_left parent new else set_right parent new
  else set_root new.

(** Modelled from the spec: [__ph_change_child_rcu] (phtree_augmented.h) makes
    the same write as [__ph_change_child]; that the write is publish-ordered
    has no counterpart in a sequential store. *)
Definition __ph_change_child_rcu (old new parent : Z) : M unit :=
  __ph_change_child old new parent.

(** Modelled from the spec: [__ph_rotate_set_parents] (phtree_augmented.h)
    ends a rotation: [new] takes the parent and the colour of [old], [old]
    becomes a child of [new] with the given colour, and the slot that held
    [old] is repointed. *)
Definition __ph_rotate_set_parents (old new color : Z) : M unit :=
  let* parent := rd (λ m, ph_parent m old) in
  let* pc := get_parent_color old in
  set_parent_color_word new pc;;;
  ph_set_parent_color old new color;;;
  __ph_change_child old new parent.

(** The slot a new node is linked into: [&root->ph_node], [&p->ph_left] or
    [&p->ph_right]. *)
Inductive ph_link : Type :=
  | link_root
  | link_left (p : Z)
  | link_right (p : Z).

Definition write_link (l : ph_link) (v : Z) : M unit :=
  match l with
  | link_root => set_root v
  | link_left p => set_left p v
  | link_right p => set_right p v
  end.

(** phtree.h:58-64.  The argument [parent] is not used by the body. *)
Definition ph_link_node (node parent : Z) (link : ph_link) : M unit :=
  set_right node NULL;;;
  set_left node NULL;;;
  write_link link node.

(** The loop of [__ph_insert], phtree.c:28-157.  [break] leaves the loop;
    [continue] is the recursive call. *)
Fixpoint __ph_insert_loop (fuel : nat) (augment_rotate : callback)
    (node parent : Z) : M unit :=
  match fuel with
  | O => λ _, None
  | S fuel' =>
    if negb (nonnull parent) then
      ph_set_parent_color node NULL ph_BLACK
    else
      let* pblack := rd (λ m, ph_is_black m parent) in
      if pblack : bool then ret tt
      else
        let* gparent := rd (λ m, ph_red_parent m parent) in
        let* tmp := get_right gparent in
        if negb (parent =? tmp) then
          (* parent == gparent->ph_left *)
          let* tmp_red := (if nonnull tmp then rd (λ m, ph_is_red m tmp) else ret false) in
          if tmp_red : bool then
            (* Case 1 *)
            ph_set_parent_color tmp gparent ph_BLACK;;;
            ph_set_parent_color parent gparent ph_BLACK;;;
            let node := gparent in
            let* parent := rd (λ m, ph_parent m node) in
            ph_set_parent_color node parent ph_RED;;;
            __ph_insert_loop fuel' augment_rotate node parent
          else
            let* tmp := get_right parent in
            let* '(parent, tmp) :=
              (if node =? tmp then
                 (* Case 2 *)
                 let* tmp := get_left node in
                 set_right parent tmp;;;
                 set_left node parent;;;
                 (if nonnull tmp then ph_set_parent_color tmp parent ph_BLACK else ret tt);;;
                 ph_set_parent_color parent node ph_RED;;;
                 call augment_rotate parent node;;;
                 let parent := node in
                 let* tmp := get_right node in
                 ret (parent, tmp)
               else ret (parent, tmp)) in
            (* Case 3 *)
            set_left gparent tmp;;;
            set_right parent gparent;;;
            (if nonnull tmp then ph_set_parent_color tmp gparent ph_BLACK else ret tt);;;
            __ph_rotate_set_parents gparent parent ph_RED;;;
            call augment_rotate gparent parent
        else
          let* tmp := get_left gparent in
          let* tmp_red := (if nonnull tmp then rd (λ m, ph_is_red m tmp) else ret false) in
          if tmp_red : bool then
            (* Case 1 *)
            ph_set_parent_color tmp gparent ph_BLACK;;;
            ph_set_parent_color parent gparent ph_BLACK;;;
            let node := gparent in
            let* parent := rd (λ m, ph_parent m node) in
            ph_set_parent_color node parent ph_RED;;;
            __ph_insert_loop fuel' augment_rotate node parent
          else
            let* tmp := get_left parent in
            let* '(parent, tmp) :=
              (if node =? tmp then
                 (* Case 2 *)
                 let* tmp := get_right node in
                 set_left parent tmp;;;
                 set_right node parent;;;
                 (if nonnull tmp then ph_set_parent_color tmp parent ph_BLACK else ret tt);;;
                 ph_set_parent_color parent node ph_RED;;;
                 call augment_rotate parent node;;;
                 let parent := node in
                 let* tmp := get_left node in
                 ret (parent, tmp)
               else ret (parent, tmp)) in
            (* Case 3 *)
            set_right gparent tmp;;;
            set_left parent gparent;;;
            (if nonnull tmp then ph_set_parent_color tmp gparent ph_BLACK else ret tt);;;
            __ph_rotate_set_parents gparent parent ph_RED;;;
            call augment_rotate gparent parent
  end.

(** phtree.c:22-158. *)
Definition __ph_insert (fuel : nat) (node : Z) (augment_rotate : callback) : M unit :=
  let* parent := rd (λ m, ph_red_parent m node) in
  __ph_insert_loop fuel augment_rotate node parent.

(** phtree.c:177-180. *)
Definition ph_insert_color (fuel : nat) (node : Z) : M unit :=
  __ph_insert fuel node dummy_rotate.

(** phtree.c:199-203. *)
Definition __ph_insert_augmented (fuel : nat) (node : Z) (augment_rotate : callback) : M unit :=
  __ph_insert fuel node augment_rotate.

(** phtree.c:296-310. *)
Definition ph_replace_node (victim new : Z) : M unit :=
  let* parent := rd (λ m, ph_parent m victim) in
  let* v := load victim in
  store_node new v;;;
  let* vl := get_left victim in
  (if nonnull vl then ph_set_parent vl new else ret tt);;;
  let* vr := get_right victim in
  (if nonnull vr then ph_set_parent vr new else ret tt);;;
  __ph_change_child victim new parent.

(** phtree.c:313-332. *)
Definition ph_replace_node_rcu (victim new : Z) : M unit :=
  let* parent := rd (λ m, ph_parent m victim) in
  let* v := load victim in
  store_node new v;;;
  let* vl := get_left victim in
  (if nonnull vl then ph_set_parent vl new else ret tt);;;
  let* vr := get_right victim in
  (if nonnull vr then ph_set_parent vr new else ret tt);;;
  __ph_change_child_rcu victim new parent.


(** ** The red-black invariants, on shapes *)

Definition color_of (t : tree) : color :=
  match t with Leaf => Black | Node _ _ c _ => c end.

(** (a) the root, if present, is BLACK. *)
Definition root_black (t : tree) : Prop := color_of t = Black.

(** (b) no RED node has a RED child. *)
Fixpoint no_red_red (t : tree) : Prop :=
  match t with
  | Leaf => True
  | Node l _ c r =>
      (c = Red → color_of l = Black ∧ color_of r = Black) ∧
      no_red_red l ∧ no_red_red r
  end.

(** The number of BLACK nodes on each path from the root to an absent
    child, path by path from the left. *)
Fixpoint black_counts (t : tree) : list nat :=
  match t with
  | Leaf => [O]
  | Node l _ c r =>
      (λ k, match c with Black => S k | Red => k end) <$> (black_counts l ++ black_counts r)
  end.

(** (c) every such path passes through the same number of BLACK nodes. *)
Definition black_balanced (t : tree) : Prop :=
  ∀ h k, h ∈ black_counts t → k ∈ black_counts t → h = k.

Definition is_rb (t : tree) : Prop :=
  root_black t ∧ no_red_red t ∧ black_balanced t.

(** [leaf_linked node t0 t]: [t] is [t0] with [node] linked as a RED leaf in
    the place of one absent child. *)
Inductive leaf_linked (node : Z) : tree → tree → Prop :=
  | linked_here : leaf_linked node Leaf (Node Leaf node Red Leaf)
  | linked_left l l' a c r :
      leaf_linked node l l' → leaf_linked node (Node l a c r) (Node l' a c r)
  | linked_right l a c r r' :
      leaf_linked node r r' → leaf_linked node (Node l a c r) (Node l a c r').

(** The number of edges between the root of [t] and [x]. *)
Fixpoint depth_in (t : tree) (x : Z) : nat :=
  match t with
  | Leaf => O
  | Node l a _ r =>
      if x =? a then O
      else S (if bool_decide (x ∈ inorder l) then depth_in l x else depth_in r x)
  end.

(** ** Insert fixup as the specification words it (sections 4.1 and 4.2) *)

Inductive side : Type := Left | Right.

Definition opposite (d : side) : side :=
  match d with Left => Right | Right => Left end.

Definition get_child (d : side) (a : Z) : M Z :=
  match d with Left => get_left a | Right => get_right a end.

Definition set_child (d : side) (a v : Z) : M unit :=
  match d with Left => set_left a v | Right => set_right a v end.

(** Recolour a node where it is. *)
Definition spec_set_color (x color : Z) : M unit :=
  let* p := rd (λ m, ph_parent m x) in
  ph_set_parent_color x p color.

(** Section 4.1: a single rotation around [pivot], which sinks to the side
    [toward] while its child on the other side rises into its place: three
    parent/child links are redone, the two rotated nodes are recoloured and
    the [rotate] callback is told of the two nodes. *)
Definition spec_rotate (toward : side) (pivot : Z) (color_up color_pivot : Z)
    (cb : callback) : M unit :=
  let* up := get_child (opposite toward) pivot in
  let* inner := get_child toward up in
  let* top := rd (λ m, ph_parent m pivot) in
  set_child (opposite toward) pivot inner;;;
  (if nonnull inner then ph_set_parent inner pivot else ret tt);;;
  set_child toward up pivot;;;
  ph_set_parent up top;;;
  __ph_change_child pivot up top;;;
  ph_set_parent pivot up;;;
  spec_set_color up color_up;;;
  spec_set_color pivot color_pivot;;;
  call cb pivot up.

(** Section 4.2, case by case. *)
Fixpoint spec_insert_fixup (fuel : nat) (cb : callback) (node : Z) : M unit :=
  match fuel with
  | O => λ _, None
  | S fuel' =>
    let* parent := rd (λ m, ph_parent m node) in
    if negb (nonnull parent) then
      (* no parent: the node is the new root *)
      spec_set_color node ph_BLACK
    else
      let* pblack := rd (λ m, ph_is_black m parent) in
      if pblack : bool then ret tt
      else
        let* gparent := rd (λ m, ph_parent m parent) in
        let* gl := get_left gparent in
        let pside := if gl =? parent then Left else Right in
        let* uncle := get_child (opposite pside) gparent in
        let* uncle_red :=
          (if nonnull uncle then rd (λ m, ph_is_red m uncle) else ret false) in
        if uncle_red : bool then
          (* Case 1 *)
          spec_set_color parent ph_BLACK;;;
          spec_set_color uncle ph_BLACK;;;
          spec_set_color gparent ph_RED;;;
          spec_insert_fixup fuel' cb gparent
        else
          let* inner := get_child (opposite pside) parent in
          (* Case 2: the inner grandchild is first made the outer one *)
          (if node =? inner then spec_rotate pside parent ph_RED ph_RED cb else ret tt);;;
          (* Case 3 *)
          spec_rotate (opposite pside) gparent ph_BLACK ph_RED cb
  end.


(** ** The linkage seen from the store *)

(** The node at [x] records the parent [q] and the colour [c], and has the
    children [l] and [r]. *)
Definition node_at (m : store) (x q : Z) (c : color) (l r : Z) : Prop :=
  aligned q ∧
  m !! x = Some {| __ph_parent_color := Z.lor q (color_bit c);
                   ph_right := r; ph_left := l |}.

(** The nodes in [dom] are linked to one another as a tree under [root]:
    child links and parent references agree, and [d] counts the edges up to
    the root. *)
Record shape (m : store) (root : Z) (dom : Z → Prop) (d : Z → nat) : Prop := {
  sh_node : ∀ x, dom x → x ≠ NULL ∧ aligned x ∧ ∃ q c l r, node_at m x q c l r;
  sh_left : ∀ x q c l r, dom x → node_at m x q c l r → l ≠ NULL →
            dom l ∧ ∃ c' l' r', node_at m l x c' l' r';
  sh_right : ∀ x q c l r, dom x → node_at m x q c l r → r ≠ NULL →
             dom r ∧ ∃ c' l' r', node_at m r x c' l' r';
  sh_sides : ∀ x q c l r, dom x → node_at m x q c l r → l = r → l = NULL;
  sh_parent : ∀ x q c l r, dom x → node_at m x q c l r → q ≠ NULL →
              dom q ∧ ∃ q' c' l' r', node_at m q q' c' l' r' ∧ (l' = x ∨ r' = x);
  sh_root : ∀ x c l r, dom x → node_at m x NULL c l r → root = x;
  sh_depth : ∀ x q c l r, dom x → node_at m x q c l r → q ≠ NULL → d x = S (d q)
}.

(** What holds each time the loop of [__ph_insert] is entered: [node] is
    RED, it is the only node that may have a RED parent, and the root is
    BLACK unless it is [node] itself. *)
Record fixup_inv (s : ph_state) (dom : Z → Prop) (d : Z → nat) (node : Z) : Prop := {
  fi_shape : shape (st_store s) (ph_root_node (st_root s)) dom d;
  fi_node : dom node;
  fi_red : ∃ q l r, node_at (st_store s) node q Red l r;
  fi_rr : ∀ x q l r q' l' r', dom x → q ≠ NULL →
          node_at (st_store s) x q Red l r → node_at (st_store s) q q' Red l' r' →
          x = node;
  fi_root : ∀ x c l r, dom x → node_at (st_store s) x NULL c l r → x ≠ node → c = Black
}.


(** ** Replacement, on shapes and on single nodes *)

Definition rename_addr (old new a : Z) : Z := if a =? old then new else a.

(** The same shape and colours, with [new] at the position of [old]. *)
Fixpoint rename (old new : Z) (t : tree) : tree :=
  match t with
  | Leaf => Leaf
  | Node l a c r => Node (rename old new l) (rename_addr old new a) c (rename old new r)
  end.

(** What [ph_set_parent] and [__ph_change_child] leave in the node they
    write. *)
Definition set_parent_of (p : Z) (n : ph_node) : ph_node :=
  {| __ph_parent_color := Z.lor p (__ph_color (__ph_parent_color n));
     ph_right := ph_right n; ph_left := ph_left n |}.

Definition change_child_of (old new : Z) (n : ph_node) : ph_node :=
  if ph_left n =? old
  then {| __ph_parent_color := __ph_parent_color n; ph_right := ph_right n; ph_left := new |}
  else {| __ph_parent_color := __ph_parent_color n; ph_right := new; ph_left := ph_left n |}.

(** The store after [if (c) ph_set_parent(c, p)] and after
    [__ph_change_child(old, new, parent, root)]. *)
Definition store_set_parent (c p : Z) (m : store) : store :=
  if nonnull c then alter (set_parent_of p) c m else m.

Definition store_change_child (old new parent : Z) (m : store) : store :=
  if nonnull parent then alter (change_child_of old new) parent m else m.


(** ** The caller's insert *)

(** "Link the node, then fix the colours up", as the callers of
    [ph_link_node] and [ph_insert_color] do. *)
Definition insert_at (fuel : nat) (node parent : Z) (link : ph_link) : M unit :=
  ph_link_node node parent link;;;
  ph_insert_color fuel node.

(** ** Concrete states *)

(** Three nodes at 16, 32 and 48, none of them linked. *)
Definition empty_tree_state (n16 n32 n48 : ph_node) : ph_state :=
  {| st_store := <[16 := n16]> (<[32 := n32]> (<[48 := n48]> ∅));
     st_root := mk_ph_root NULL;
     st_calls := [] |}.

(** A node in the empty state: its packed word is its own address. *)
Definition cleared_node (a : Z) : ph_node :=
  {| __ph_parent_color := a; ph_right := 0; ph_left := 0 |}.

(** A node in zeroed memory. *)
Definition zeroed_node : ph_node :=
  {| __ph_parent_color := 0; ph_right := 0; ph_left := 0 |}.

(** A BLACK root at 32 with RED children at 16 and 48, and a further node at
    64 that is not linked. *)
Definition three_nodes : store :=
  <[32 := mk_ph_node (Z.lor 0 ph_BLACK) 48 16]>
    (<[16 := mk_ph_node (Z.lor 32 ph_RED) 0 0]>
       (<[48 := mk_ph_node (Z.lor 32 ph_RED) 0 0]>
          (<[64 := cleared_node 64]> ∅))).

Definition three_nodes_tree : tree :=
  Node (Node Leaf 16 Red Leaf) 32 Black (Node Leaf 48 Red Leaf).

Definition three_nodes_state : ph_state :=
  {| st_store := three_nodes; st_root := mk_ph_root 32; st_calls := [] |}.

(** A BLACK root at 32 with a RED child at 16, under which a RED leaf at 8
    has just been linked. *)
Definition leaf_linked_store : store :=
  <[32 := mk_ph_node (Z.lor 0 ph_BLACK) 0 16]>
    (<[16 := mk_ph_node (Z.lor 32 ph_RED) 0 8]>
       (<[8 := mk_ph_node (Z.lor 16 ph_RED) 0 0]> ∅)).

Definition leaf_linked_state : ph_state :=
  {| st_store := leaf_linked_store; st_root := mk_ph_root 32; st_calls := [] |}.


(** ** Erase, on shapes *)

(** A position in a tree, seen from below: the slot left or right of the
    node [a], with the sibling subtree. *)
Inductive frame : Type :=
  | below_left (a : Z) (c : color) (r : tree)
  | below_right (l : tree) (a : Z) (c : color).

(** The way from a position up to the root, nearest node first. *)
Abbreviation path := (list frame).

Definition fill (f : frame) (t : tree) : tree :=
  match f with
  | below_left a c r => Node t a c r
  | below_right l a c => Node l a c t
  end.

Fixpoint plug (above : path) (t : tree) : tree :=
  match above with
  | [] => t
  | f :: above' => plug above' (fill f t)
  end.

(** The position of the node [node], with the subtree it heads. *)
Fixpoint locate (node : Z) (t : tree) (above : path) : option (path * tree) :=
  match t with
  | Leaf => None
  | Node l a c r =>
      if a =? node then Some (above, t)
      else match locate node l (below_left a c r :: above) with
           | Some found => Some found
           | None => locate node r (below_right l a c :: above)
           end
  end.

(** The position of the leftmost node of [t]. *)
Fixpoint leftmost (t : tree) (above : path) : path * tree :=
  match t with
  | Leaf => (above, Leaf)
  | Node l a c r =>
      match l with
      | Leaf => (above, t)
      | Node _ _ _ _ => leftmost l (below_left a c r :: above)
      end
  end.

Definition recolor (c : color) (t : tree) : tree :=
  match t with
  | Leaf => Leaf
  | Node l a _ r => Node l a c r
  end.

Definition is_black (c : color) : bool :=
  match c with Black => true | Red => false end.

(** [struct ph_augment_callbacks], as [dummy_callbacks] fills it in,
    phtree.c:171-175. *)
Record ph_augment_callbacks : Type := mk_callbacks {
  propagate : callback;
  copy : callback;
  rotate : callback
}.

Definition dummy_callbacks : ph_augment_callbacks :=
  {| propagate := dummy_propagate; copy := dummy_copy; rotate := dummy_rotate |}.

(** What [__ph_erase_augmented] hands over to the fixup: the position that
    lost a node, the subtree promoted into it, whether a rebalance is due,
    and the caller's data. *)
Record erase_state : Type := mk_erase_state {
  er_path : path;
  er_promoted : tree;
  er_rebalance : bool;
  er_calls : list aug_call
}.

(** Modelled from the spec: [__ph_erase_augmented] (phtree_augmented.h) is
    not among the sources.  Section 4.3: "If the node has two children, swap
    it with its in-order successor (the leftmost node of its right subtree)
    by splicing the successor into the node's position - this calls the
    augmentation copy(old, new) callback [...].  The node to physically
    remove now has at most one child; splice it out, promoting its single
    child (or an absent-child sentinel) into its place.  If the removed node
    was BLACK, this creates a black-height deficiency on that path".  The
    successor takes the colour of the position it moves to.  The calls of
    [propagate] are left out: the specification does not say with which
    arguments they are made.  [None] stands for a node that is not linked. *)
Definition __ph_erase_augmented (node : Z) (t : tree) (augment : ph_augment_callbacks)
    (calls : list aug_call) : option erase_state :=
  match locate node t [] with
  | Some (above, Node l _ c r) =>
      match l, r with
      | Node _ _ _ _, Node _ _ _ _ =>
          match leftmost r [] with
          | (down, Node _ s cs sr) =>
              Some {| er_path := down ++ below_right l s c :: above;
                      er_promoted := sr;
                      er_rebalance := is_black cs;
                      er_calls := copy augment node s calls |}
          | (_, Leaf) => None
          end
      | Leaf, _ =>
          Some {| er_path := above; er_promoted := r;
                  er_rebalance := is_black c; er_calls := calls |}
      | _, Leaf =>
          Some {| er_path := above; er_promoted := l;
                  er_rebalance := is_black c; er_calls := calls |}
      end
  | _ => None
  end.

(** Modelled from the spec: the cases of the erase fixup with a BLACK
    sibling, for a deficient left child [x] of [p].  Section 4.3: "sibling
    BLACK with both nephews BLACK => recolor and recurse upward; sibling
    BLACK with near nephew RED => rotate at sibling; sibling BLACK with far
    nephew RED => rotate at parent, terminal".  The result is the subtree
    that replaces the one headed by [p], and whether the deficiency has moved
    up to it.  Each rotation calls [rotate] with the node that sinks and the
    node that rises (section 4.1).  The specification names the rotations;
    the colours are the ones that go with them: the node that rises takes
    the colour of [p], [p] and the far nephew become BLACK, and with two
    BLACK nephews the sibling becomes RED. *)
Definition erase_black_sibling_left (x : tree) (p : Z) (cp : color) (s : tree)
    (rot : callback) (calls : list aug_call) : tree * bool * list aug_call :=
  match s with
  | Leaf => (Node x p cp s, false, calls)
  | Node sl sa _ sr =>
      match color_of sr with
      | Red =>
          (Node (Node x p Black sl) sa cp (recolor Black sr), false, rot p sa calls)
      | Black =>
          match sl with
          | Node sll sla Red slr =>
              (Node (Node x p Black sll) sla cp (Node slr sa Black sr), false,
               rot p sla (rot sa sla calls))
          | _ => (Node x p cp (recolor Red s), true, calls)
          end
      end
  end.

(** Modelled from the spec: the same cases "mirrored for left/right"
    (section 4.3), for a deficient right child [x] of [p]. *)
Definition erase_black_sibling_right (s : tree) (p : Z) (cp : color) (x : tree)
    (rot : callback) (calls : list aug_call) : tree * bool * list aug_call :=
  match s with
  | Leaf => (Node s p cp x, false, calls)
  | Node sl sa _ sr =>
      match color_of sl with
      | Red =>
          (Node (recolor Black sl) sa cp (Node sr p Black x), false, rot p sa calls)
      | Black =>
          match sr with
          | Node srl sra Red srr =>
              (Node (Node sl sa Black srl) sra cp (Node srr p Black x), false,
               rot p sra (rot sa sra calls))
          | _ => (Node (recolor Red s) p cp x, true, calls)
          end
      end
  end.

(** Modelled from the spec: the walk of the erase fixup.  Section 4.3:
    "erase fixup rebalances by walking up from the deficiency point, using
    sibling-color cases (sibling RED => rotate to make sibling BLACK; [the
    cases of a BLACK sibling]), mirrored for left/right".  [x] is the
    subtree at the deficiency point and [above] the way from it to the root.
    To recolor and go up stops at a RED node, which is made BLACK, and at the
    root. *)
Fixpoint erase_fixup (rot : callback) (above : path) (x : tree)
    (calls : list aug_call) : tree * list aug_call :=
  match color_of x with
  | Red => (plug above (recolor Black x), calls)
  | Black =>
      match above with
      | [] => (x, calls)
      | below_left p cp s :: above' =>
          match s with
          | Node sl sa Red sr =>
              let '(sub, up, calls') :=
                erase_black_sibling_left x p Red sl rot (rot p sa calls) in
              (plug above' (Node (if up : bool then recolor Black sub else sub) sa cp sr),
               calls')
          | _ =>
              let '(sub, up, calls') := erase_black_sibling_left x p cp s rot calls in
              if up : bool then erase_fixup rot above' sub calls'
              else (plug above' sub, calls')
          end
      | below_right s p cp :: above' =>
          match s with
          | Node sl sa Red sr =>
              let '(sub, up, calls') :=
                erase_black_sibling_right sr p Red x rot (rot p sa calls) in
              (plug above' (Node sl sa cp (if up : bool then recolor Black sub else sub)),
               calls')
          | _ =>
              let '(sub, up, calls') := erase_black_sibling_right s p cp x rot calls in
              if up : bool then erase_fixup rot above' sub calls'
              else (plug above' sub, calls')
          end
      end
  end.

(** Modelled from the spec: [____ph_erase_color] (phtree_augmented.h) is
    not among the sources; it is the erase fixup of section 4.3, started at
    the position [__ph_erase_augmented] hands over. *)
Definition ____ph_erase_color (e : erase_state) (rot : callback) : tree * list aug_call :=
  erase_fixup rot (er_path e) (er_promoted e) (er_calls e).

(** phtree.c:183-189, on the shape of the tree: the fixup runs when
    [__ph_erase_augmented] asks for a rebalance. *)
Definition ph_erase (node : Z) (t : tree) : option tree :=
  match __ph_erase_augmented node t dummy_callbacks [] with
  | Some e =>
      if er_rebalance e then Some (____ph_erase_color e dummy_rotate).1
      else Some (plug (er_path e) (er_promoted e))
  | None => None
  end.

(** The black height along the leftmost path, and trees in which every path
    has it. *)
Fixpoint bh (t : tree) : nat :=
  match t with
  | Leaf => O
  | Node l _ c _ => (bh l + if is_black c then 1 else 0)%nat
  end.

Fixpoint balanced (t : tree) : Prop :=
  match t with
  | Leaf => True
  | Node l _ _ r => balanced l ∧ balanced r ∧ bh l = bh r
  end.

(** The colour of the node right above a position; the root has none and
    counts as under a RED node, so that it must be BLACK itself. *)
Definition color_above (above : path) : color :=
  match above with
  | [] => Red
  | below_left _ c _ :: _ => c
  | below_right _ _ c :: _ => c
  end.

(** [path_ok above h]: whatever red-black subtree of black height [h] is put
    at the position, BLACK if the node above is RED, the whole tree is
    red-black. *)
Fixpoint path_ok (above : path) (h : nat) : Prop :=
  match above with
  | [] => True
  | below_left _ c s :: above' | below_right s _ c :: above' =>
      balanced s ∧ bh s = h ∧ no_red_red s ∧
      (c = Red → color_of s = Black ∧ color_above above' = Black) ∧
      path_ok above' (h + if is_black c then 1 else 0)%nat
  end.

(** The nodes before and after a position, in order. *)
Fixpoint nodes_before (above : path) : list Z :=
  match above with
  | [] => []
  | below_left _ _ _ :: above' => nodes_before above'
  | below_right l a _ :: above' => nodes_before above' ++ inorder l ++ [a]
  end.

Fixpoint nodes_after (above : path) : list Z :=
  match above with
  | [] => []
  | below_left a _ r :: above' => a :: inorder r ++ nodes_after above'
  | below_right _ _ _ :: above' => nodes_after above'
  end.


(** Three BLACK nodes: 32 at the root, 16 and 48 under it. *)
Definition three_black_tree : tree :=
  Node (Node Leaf 16 Black Leaf) 32 Black (Node Leaf 48 Black Leaf).

(** A caller that keeps track of the copies and rotations it is told of. *)
Definition record_copy : callback := λ old new calls, Copy old new :: calls.

Definition record_callbacks : ph_augment_callbacks :=
  {| propagate := dummy_propagate; copy := record_copy; rotate := record_rotate |}.

(** ** Callers' loops and what they leave behind *)

(** The callbacks received, the latest first, as the caller's data sees
    them: [apply_calls cb rs calls] is [calls] after [cb] was called with
    each pair of [rs], the last pair first. *)
Definition apply_calls (cb : callback) (rs : list (Z * Z)) (calls : list aug_call) :
    list aug_call :=
  foldr (λ r acc, cb r.1 r.2 acc) calls rs.

(** [x] calls [cb] at most [n] times whenever it returns. *)
Definition calls_at_most {A : Type} (cb : callback) (n : nat) (x : M A) : Prop :=
  ∀ s a s', x s = Some (a, s') →
    ∃ rs, (length rs ≤ n)%nat ∧ st_calls s' = apply_calls cb rs (st_calls s).


(** phtree.h:31 and 66-69.  [container_of] (linux/kernel.h) steps back from
    the member to the record that embeds it; [off] is the offset of the
    member in the record. *)
Definition ph_entry (off ptr : Z) : Z := ptr - off.

Definition ph_entry_safe (off ptr : Z) : Z :=
  if nonnull ptr then ph_entry off ptr else NULL.

(** phtree.h:88-92, [phtree_postorder_for_each_entry_safe(pos, n, root,
    field)] around a loop body that acts on the store: [n] is read before the
    body runs, and [&pos->field] is [pos + off].  The records visited are
    collected in the order of the visits. *)
Fixpoint postorder_for_each_entry_safe_from (fuel walk_fuel : nat) (off : Z)
    (body : Z → store → store) (m : store) (pos : Z) : option (list Z * store) :=
  if nonnull pos then
    match fuel with
    | O => None
    | S fuel' =>
        nx ← ph_next_postorder walk_fuel m (pos + off);
        let n := ph_entry_safe off nx in
        r ← postorder_for_each_entry_safe_from fuel' walk_fuel off body (body pos m) n;
        Some (pos :: r.1, r.2)
    end
  else Some ([], m).

Definition phtree_postorder_for_each_entry_safe (fuel : nat) (off : Z)
    (body : Z → store → store) (m : store) (root : ph_root) : option (list Z * store) :=
  f ← ph_first_postorder fuel m root;
  postorder_for_each_entry_safe_from fuel fuel off body m (ph_entry_safe off f).

(** [x] leaves the caller's data as it is whenever it returns. *)
Definition no_calls {A : Type} (x : M A) : Prop :=
  ∀ s a s', x s = Some (a, s') → st_calls s' = st_calls s.

(** ** The way to the root, laid out in the store *)

(** The nodes on the way and under it, beside the position itself. *)
Definition nodes_above (above : path) : list Z :=
  nodes_before above ++ nodes_after above.

(** The node right above a position, [NULL] at the root. *)
Definition parent_above (above : path) : Z :=
  match above with
  | [] => NULL
  | below_left a _ _ :: _ => a
  | below_right _ a _ :: _ => a
  end.

(** [repr_above m root above x]: in the store [m] the way [above] leads from
    the slot that holds [x] up to [root], each node on it with its other
    subtree. *)
Fixpoint repr_above (m : store) (root : Z) (above : path) (x : Z) : Prop :=
  match above with
  | [] => root = x
  | below_left a c r :: above' =>
      a ≠ NULL ∧ aligned a ∧
      ∃ n, m !! a = Some n ∧
           __ph_parent_color n = Z.lor (parent_above above') (color_bit c) ∧
           ph_left n = x ∧ repr m a r (ph_right n) ∧ repr_above m root above' a
  | below_right l a c :: above' =>
      a ≠ NULL ∧ aligned a ∧
      ∃ n, m !! a = Some n ∧
           __ph_parent_color n = Z.lor (parent_above above') (color_bit c) ∧
           ph_right n = x ∧ repr m a l (ph_left n) ∧ repr_above m root above' a
  end.

(** The slot at a position: what a caller passes to [ph_link_node] as
    [ph_link]. *)
Definition link_above (above : path) : ph_link :=
  match above with
  | [] => link_root
  | below_left a _ _ :: _ => link_left a
  | below_right _ a _ :: _ => link_right a
  end.

(** The nodes of [three_nodes], the node at 64 with stale child links and
    its packed word set by the caller: the parent 48, RED. *)
Definition preset_node_state : ph_state :=
  {| st_store := <[64 := mk_ph_node (Z.lor 48 ph_RED) 7 7]> three_nodes;
     st_root := mk_ph_root 32; st_calls := [] |}.

(** ** Sequences of valid operations *)

(** The two operations a caller makes on a tree. *)
Inductive ph_op : Type :=
  | op_insert (node : Z)
  | op_erase (node : Z).

(** [valid_ops ops t]: the operations [ops], made one after the other from
    the empty tree and each of them valid, leave the tree [t].

    An insert is valid when the caller has linked [node] as a RED leaf in
    the place of an absent child, so that the nodes spell out the tree with
    that leaf, before it calls [__ph_insert]; [fuel] bounds the iterations
    of the loop and is at least the height of the tree.  The tree after the
    insert is the one that the nodes spell out when [__ph_insert] has
    returned.  An erase is valid when [node] is in the tree.

    [ph_erase] is modelled on shapes, so the nodes an insert starts from are
    any nodes that spell out the tree reached so far with the new leaf, not
    only those left by the operation before. *)
Inductive valid_ops : list ph_op → tree → Prop :=
  | ops_none : valid_ops [] Leaf
  | ops_insert ops t0 t t' node augment_rotate fuel s s' :
      valid_ops ops t0 →
      leaf_linked node t0 t →
      linked (st_store s) (st_root s) t →
      (height t ≤ fuel)%nat →
      __ph_insert fuel node augment_rotate s = Some (tt, s') →
      linked (st_store s') (st_root s') t' →
      valid_ops (ops ++ [op_insert node]) t'
  | ops_erase ops t t' node :
      valid_ops ops t →
      node ∈ inorder t →
      ph_erase node t = Some t' →
      valid_ops (ops ++ [op_erase node]) t'.

(** A RED node at 32 linked under the root of the empty tree. *)
Definition root_linked_state : ph_state :=
  {| st_store := <[32 := mk_ph_node (Z.lor NULL ph_RED) 0 0]> ∅;
     st_root := mk_ph_root 32; st_calls := [] |}.

(** A BLACK root at 32, under which a RED leaf at 16 has just been linked. *)
Definition child_linked_state : ph_state :=
  {| st_store := <[32 := mk_ph_node (Z.lor NULL ph_BLACK) 0 16]>
                   (<[16 := mk_ph_node (Z.lor 32 ph_RED) 0 0]> ∅);
     st_root := mk_ph_root 32; st_calls := [] |}.

(** * Properties *)

Lemma aligned_0 : aligned 0.
Proof. reflexivity. Qed.

(** ** The packed word *)

Lemma testbit_aligned p i : aligned p → 0 ≤ i < 2 → Z.testbit p i = false.
Proof.
  unfold aligned. intros Hp Hi.
  assert (Hb := f_equal (fun z => Z.testbit z i) Hp). cbv beta in Hb.
  rewrite Z.land_spec, Z.bits_0 in Hb.
  assert (Z.testbit 3 i = true) as H3.
  { assert (i = 0 ∨ i = 1) as [-> | ->] by lia; reflexivity. }
  rewrite H3, andb_true_r in Hb. exact Hb.
Qed.

Lemma testbit_small c i : 0 ≤ c < 2 → 1 ≤ i → Z.testbit c i = false.
Proof.
  intros Hc Hi.
  assert (c = 0 ∨ c = 1) as [-> | ->] by lia.
  - apply Z.bits_0.
  - apply Z.bits_above_log2; simpl; lia.
Qed.

Lemma color_bit_range c : 0 ≤ color_bit c < 2.
Proof. destruct c; unfold color_bit, ph_RED, ph_BLACK; lia. Qed.

Lemma parent_of_packed p c :
  aligned p → 0 ≤ c < 2 → __ph_parent (Z.lor p c) = p.
Proof.
  intros Hp Hc. unfold __ph_parent.
  apply Z.bits_inj'. intros i Hi.
  rewrite Z.land_spec, Z.lor_spec, Z.lnot_spec by lia.
  destruct (Z_lt_ge_dec i 2) as [Hlt | Hge].
  - rewrite (testbit_aligned p i) by (auto; lia).
    assert (i = 0 ∨ i = 1) as [-> | ->] by lia.
    + simpl. apply andb_false_r.
    + rewrite (testbit_small c 1) by lia. reflexivity.
  - rewrite (testbit_small c i) by lia.
    assert (Z.testbit 3 i = false) as ->.
    { apply Z.bits_above_log2; simpl; lia. }
    simpl. rewrite orb_false_r. apply andb_true_r.
Qed.

Lemma color_of_packed p c :
  aligned p → 0 ≤ c < 2 → __ph_color (Z.lor p c) = c.
Proof.
  intros Hp Hc. unfold __ph_color.
  apply Z.bits_inj'. intros i Hi.
  rewrite Z.land_spec, Z.lor_spec.
  destruct (Z.eq_dec i 0) as [-> | Hne].
  - rewrite (testbit_aligned p 0) by (auto; lia). simpl. apply andb_true_r.
  - rewrite (testbit_small c i), (testbit_small 1 i) by lia. apply andb_false_r.
Qed.

Lemma packed_aligned p c : aligned p → 0 ≤ c < 2 → Z.lor p c = p → c = 0.
Proof.
  intros Hp Hc Heq.
  rewrite <- (color_of_packed p c Hp Hc), Heq.
  unfold __ph_color. apply Z.bits_inj'. intros i Hi.
  rewrite Z.land_spec, Z.bits_0.
  destruct (Z.eq_dec i 0) as [-> | Hne].
  - rewrite (testbit_aligned p 0) by (auto; lia). reflexivity.
  - rewrite (testbit_small 1 i) by lia. apply andb_false_r.
Qed.

Lemma packed_inj p q c d :
  aligned p → aligned q → 0 ≤ c < 2 → 0 ≤ d < 2 →
  Z.lor p c = Z.lor q d → p = q ∧ c = d.
Proof.
  intros Hp Hq Hc Hd Heq. split.
  - rewrite <- (parent_of_packed p c Hp Hc), Heq. by apply parent_of_packed.
  - rewrite <- (color_of_packed p c Hp Hc), Heq. by apply color_of_packed.
Qed.

Lemma nonnull_true p : p ≠ 0 → nonnull p = true.
Proof. intros H. unfold nonnull. by destruct (Z.eqb_spec p 0). Qed.

Lemma nonnull_0 : nonnull 0 = false.
Proof. reflexivity. Qed.

(** ** Trees in the store *)

Lemma repr_root_of m p t x : repr m p t x → x = root_of t.
Proof. destruct t; simpl; [done | by intros [-> _]]. Qed.

Lemma repr_null m p t : repr m p t NULL → t = Leaf.
Proof. destruct t; simpl; [done | intros (<- & Hne & _); done]. Qed.

Lemma repr_nonnull m p t x : repr m p t x → x ≠ NULL → ∃ l a c r, t = Node l a c r.
Proof. destruct t; simpl; [done | eauto]. Qed.

Lemma repr_not_null m p t x y : repr m p t x → y ∈ inorder t → y ≠ NULL.
Proof.
  revert p x. induction t as [| l IHl a c r IHr]; simpl; intros p x Hr Hy.
  - by apply elem_of_nil in Hy.
  - destruct Hr as (-> & Hne & _ & n & _ & _ & Hl & Hrr).
    rewrite elem_of_app, elem_of_cons in Hy.
    destruct Hy as [Hy | [-> | Hy]]; eauto.
Qed.

Lemma repr_aligned m p t x y : repr m p t x → y ∈ inorder t → aligned y.
Proof.
  revert p x. induction t as [| l IHl a c r IHr]; simpl; intros p x Hr Hy.
  - by apply elem_of_nil in Hy.
  - destruct Hr as (-> & Hne & Hal & n & _ & _ & Hl & Hrr).
    rewrite elem_of_app, elem_of_cons in Hy.
    destruct Hy as [Hy | [-> | Hy]]; eauto.
Qed.

Lemma repr_allocated m p t x y : repr m p t x → y ∈ inorder t → is_Some (m !! y).
Proof.
  revert p x. induction t as [| l IHl a c r IHr]; simpl; intros p x Hr Hy.
  - by apply elem_of_nil in Hy.
  - destruct Hr as (-> & Hne & Hal & n & Hn & _ & Hl & Hrr).
    rewrite elem_of_app, elem_of_cons in Hy.
    destruct Hy as [Hy | [-> | Hy]]; eauto.
Qed.

(** A store that agrees with [m] on the nodes of [t] lays [t] out too. *)
Lemma repr_frame m m' p t x :
  (∀ y, y ∈ inorder t → m' !! y = m !! y) → repr m p t x → repr m' p t x.
Proof.
  revert p x. induction t as [| l IHl a c r IHr]; simpl; intros p x Hag Hr; [done |].
  destruct Hr as (-> & Hne & Hal & n & Hn & Hpc & Hl & Hrr).
  split_and!; try done. exists n. split_and!; try done.
  - rewrite Hag; [done | set_solver].
  - apply IHl; [| done]. intros y Hy. apply Hag. set_solver.
  - apply IHr; [| done]. intros y Hy. apply Hag. set_solver.
Qed.

Lemma height_le_size t : (height t ≤ size t)%nat.
Proof. induction t; simpl; lia. Qed.

Lemma size_inorder t : length (inorder t) = size t.
Proof.
  induction t as [| l IHl a c r IHr]; simpl; [done |].
  rewrite length_app. simpl. lia.
Qed.

Lemma root_in_inorder t : t ≠ Leaf → root_of t ∈ inorder t.
Proof. destruct t; [done |]. intros _. simpl. set_solver. Qed.

(** Within a tree whose nodes are pairwise distinct the two children of a
    node differ, unless both are absent. *)
Lemma children_differ l a r :
  NoDup (inorder l ++ a :: inorder r) → l ≠ Leaf → root_of l ≠ root_of r ∨ r = Leaf.
Proof.
  intros Hnd Hl. destruct r as [| rl ra rc rr]; [by right | left].
  apply NoDup_app in Hnd as (_ & Hdisj & _). intros Heq.
  apply (Hdisj (root_of l)); [by apply root_in_inorder |].
  rewrite Heq. simpl. set_solver.
Qed.

(** ** In-order traversal *)

Lemma succ_in_None t k y : y ∉ inorder t → succ_in t k y = None.
Proof.
  revert k. induction t as [| l IHl a c r IHr]; intros k Hy; simpl; [done |].
  simpl in Hy. rewrite elem_of_app, elem_of_cons in Hy.
  destruct (Z.eqb_spec y a) as [-> | Hne]; [naive_solver |].
  rewrite IHl by naive_solver. apply IHr. naive_solver.
Qed.

Lemma succ_in_Some t k y : y ∈ inorder t → is_Some (succ_in t k y).
Proof.
  revert k. induction t as [| l IHl a c r IHr]; intros k Hy; simpl in *.
  - by apply elem_of_nil in Hy.
  - destruct (Z.eqb_spec y a) as [-> | Hne]; [eauto |].
    rewrite elem_of_app, elem_of_cons in Hy.
    destruct Hy as [Hy | [-> | Hy]]; [| done |].
    + destruct (IHl a Hy) as [s ->]. eauto.
    + destruct (succ_in l a y); eauto.
Qed.

Lemma descend_left_first t m p x k fuel :
  repr m p t x → x ≠ NULL → (height t ≤ fuel)%nat →
  descend_left fuel m x = Some (first_in t k).
Proof.
  revert m p x k fuel. induction t as [| l IHl a c r IHr]; intros m p x k fuel Hr Hx Hf.
  - simpl in Hr. done.
  - destruct Hr as (-> & Hne & Hal & n & Hn & Hpc & Hl & Hrr).
    destruct fuel as [| fuel]; simpl in Hf; [lia |].
    simpl. rewrite Hn. simpl.
    destruct (Z.eqb_spec (ph_left n) 0) as [H0 | H0].
    + unfold nonnull. rewrite H0. simpl.
      rewrite H0 in Hl. apply repr_null in Hl. subst l. done.
    + rewrite nonnull_true by done. eapply IHl; eauto. lia.
Qed.

Lemma ph_parent_repr m p l a c r x :
  aligned p → repr m p (Node l a c r) x → ph_parent m x = Some p.
Proof.
  intros Hp (-> & Hne & Hal & n & Hn & Hpc & _).
  unfold ph_parent. rewrite Hn. simpl. rewrite Hpc.
  by rewrite parent_of_packed by (auto using color_bit_range).
Qed.

Lemma not_empty_repr m p l a c r x :
  aligned p → p ≠ a → repr m p (Node l a c r) x → PH_EMPTY_NODE m x = Some false.
Proof.
  intros Hp Hpa (-> & Hne & Hal & n & Hn & Hpc & _).
  unfold PH_EMPTY_NODE. rewrite Hn. simpl. rewrite Hpc.
  destruct (Z.eqb_spec (Z.lor p (color_bit c)) a) as [Heq | ?]; [| done].
  exfalso. apply Hpa.
  rewrite <- (parent_of_packed p (color_bit c)), Heq by (auto using color_bit_range).
  rewrite <- (Z.lor_0_r a) at 1. apply parent_of_packed; [done | lia].
Qed.

(** [ph_next] follows [succ_in] on every node of a laid-out tree; [k] is
    where the climb that leaves the tree through its root arrives. *)
Lemma ph_next_succ_in t m p x k d fuel :
  repr m p t x → NoDup (inorder t) → aligned p → p ∉ inorder t →
  (∀ f, (d ≤ f)%nat → climb_from_right f m x = Some k) →
  (1 ≤ d)%nat → (d + height t ≤ S fuel)%nat →
  ∀ y, y ∈ inorder t → ph_next fuel m y = succ_in t k y.
Proof.
  revert m p x k d fuel.
  induction t as [| l IHl a c r IHr]; intros m p x k d fuel Hr Hnd Hp Hpt Hk Hd Hf y Hy.
  - by apply elem_of_nil in Hy.
  - pose proof Hr as Hr0.
    destruct Hr as (-> & Hne & Hal & n & Hn & Hpc & Hl & Hrr).
    simpl in Hnd, Hpt, Hy, Hf.
    pose proof Hnd as Hnd0.
    apply NoDup_app in Hnd as (Hndl & Hdisj & Hndr).
    apply NoDup_cons in Hndr as (Har & Hndr).
    assert (a ∉ inorder l) as Hal'.
    { intros Hin. apply (Hdisj a Hin). set_solver. }
    rewrite elem_of_app, elem_of_cons in Hy. simpl.
    destruct (Z.eqb_spec y a) as [-> | Hya].
    + (* the root of this subtree *)
      unfold ph_next.
      rewrite (not_empty_repr m p l a c r a) by (auto; set_solver). simpl.
      rewrite Hn. simpl.
      destruct (Z.eqb_spec (ph_right n) 0) as [H0 | H0].
      * unfold nonnull. rewrite H0. simpl.
        rewrite H0 in Hrr. apply repr_null in Hrr. subst r. simpl.
        apply Hk. lia.
      * rewrite nonnull_true by done. f_equal.
        eapply descend_left_first; eauto. lia.
    + destruct Hy as [Hy | [-> | Hy]]; [| done |].
      * (* in the left subtree *)
        destruct (succ_in_Some l a y Hy) as [s Hs]. rewrite Hs. rewrite <- Hs.
        assert (l ≠ Leaf) as Hlne by (intros ->; by apply elem_of_nil in Hy).
        apply (IHl m a (ph_left n) a 1%nat fuel); auto; try lia.
        intros f Hf1. destruct f as [| f]; [lia |]. simpl.
        pose proof (repr_root_of _ _ _ _ Hl) as Hla.
        pose proof (repr_root_of _ _ _ _ Hrr) as Hra.
        destruct l as [| ll la cl lr]; [done |].
        rewrite (ph_parent_repr m a ll la cl lr) by done. simpl.
        rewrite nonnull_true by done. rewrite Hn. simpl.
        destruct (Z.eqb_spec (ph_left n) (ph_right n)) as [Heq | ?]; [| done].
        exfalso. destruct (children_differ _ _ _ Hnd0) as [Hdiff | ->]; [done | |].
        -- apply Hdiff. by rewrite <- Hla, <- Hra.
        -- simpl in *. destruct Hl as (Hl1 & Hl2 & _). congruence.
      * (* in the right subtree *)
        assert (y ∉ inorder l) as Hyl.
        { intros Hin. apply (Hdisj y Hin). set_solver. }
        rewrite (succ_in_None l a y Hyl).
        apply (IHr m a (ph_right n) k (S d) fuel); auto; try lia.
        intros f Hf1. destruct f as [| f]; [lia |]. simpl.
        destruct r as [| rl ra rc rr]; [by apply elem_of_nil in Hy |].
        rewrite (ph_parent_repr m a rl ra rc rr) by done. simpl.
        rewrite nonnull_true by done. rewrite Hn. simpl.
        rewrite Z.eqb_refl. apply Hk. lia.
Qed.

Lemma walk_ext step1 step2 fuel cur :
  (∀ y, step1 y = step2 y) → walk step1 fuel cur = walk step2 fuel cur.
Proof.
  intros Hext. revert cur. induction fuel as [| fuel IH]; intros cur; simpl; [done |].
  destruct (nonnull cur); [| done].
  rewrite Hext. destruct (step2 cur) as [nxt |]; simpl; [| done].
  by rewrite IH.
Qed.

Lemma walk_null step fuel : walk step fuel NULL = Some [].
Proof. by destruct fuel. Qed.

(** A walk whose step follows [succ_in] visits the nodes of [t] in order and
    goes on from [k]. *)
Lemma walk_succ_in t k step f :
  (∀ y, y ∈ inorder t → step y = succ_in t k y) →
  NoDup (inorder t) → NULL ∉ inorder t →
  walk step (size t + f) (first_in t k) =
  rest ← walk step f k; Some (inorder t ++ rest).
Proof.
  revert k f. induction t as [| l IHl a c r IHr]; intros k f Hstep Hnd H0.
  - simpl. by destruct (walk step f k).
  - cbn [inorder first_in size] in *.
    pose proof Hnd as Hnd0.
    apply NoDup_app in Hnd as (Hndl & Hdisj & Hndr).
    apply NoDup_cons in Hndr as (Har & Hndr).
    assert (a ∉ inorder l) as Hal'.
    { intros Hin. apply (Hdisj a Hin). set_solver. }
    replace (S (size l + size r) + f)%nat with (size l + S (size r + f))%nat by lia.
    rewrite IHl; [| | done | set_solver].
    2:{ intros y Hy. rewrite Hstep by (simpl; set_solver). simpl.
        destruct (Z.eqb_spec y a) as [-> | _]; [done |].
        by destruct (succ_in_Some l a y Hy) as [s ->]. }
    assert (a ≠ 0) as Ha0 by set_solver.
    cbn [walk]. rewrite nonnull_true by done.
    rewrite Hstep by (simpl; set_solver). simpl. rewrite Z.eqb_refl. simpl.
    rewrite IHr; [| | done | set_solver].
    2:{ intros y Hy. rewrite Hstep by (simpl; set_solver). simpl.
        destruct (Z.eqb_spec y a) as [-> | _]; [done |].
        rewrite succ_in_None; [done |]. intros Hin. apply (Hdisj y Hin). set_solver. }
    destruct (walk step f k) as [rest |]; simpl; [| done].
    by rewrite <- app_assoc.
Qed.

Lemma linked_null_free m root t : linked m root t → NULL ∉ inorder t.
Proof. intros [Hr _] Hin. by eapply repr_not_null in Hin. Qed.

Lemma ph_first_linked m root t fuel :
  linked m root t → (height t ≤ fuel)%nat →
  ph_first fuel m root = Some (first_in t NULL).
Proof.
  intros [Hr _] Hf. unfold ph_first. simpl.
  destruct (Z.eqb_spec (ph_root_node root) 0) as [H0 | H0].
  - unfold nonnull. rewrite H0. simpl. rewrite H0 in Hr.
    apply repr_null in Hr. by subst t.
  - rewrite nonnull_true by done. eapply descend_left_first; eauto.
Qed.

Lemma climb_from_right_root m t x f :
  repr m NULL t x → x ≠ NULL → (1 ≤ f)%nat → climb_from_right f m x = Some NULL.
Proof.
  intros Hr Hx Hf. destruct f as [| f]; [lia |]. simpl.
  destruct t as [| l a c r]; [done |].
  rewrite (ph_parent_repr m NULL l a c r) by (auto using aligned_0). done.
Qed.

Lemma ph_inorder_walk_linked m root t fuel :
  linked m root t → (size t ≤ fuel)%nat →
  ph_inorder_walk fuel m root = Some (inorder t).
Proof.
  intros Hlk Hf. unfold ph_inorder_walk.
  pose proof (height_le_size t) as Hhs.
  rewrite (ph_first_linked m root t) by (auto; lia). simpl.
  pose proof (linked_null_free _ _ _ Hlk) as H0.
  destruct Hlk as [Hr Hnd].
  replace fuel with (size t + (fuel - size t))%nat at 2 by lia.
  rewrite walk_succ_in; auto.
  - rewrite walk_null. simpl. by rewrite app_nil_r.
  - intros y Hy.
    apply (ph_next_succ_in t m NULL (ph_root_node root) NULL 1%nat fuel);
      auto using aligned_0; try lia.
    intros f Hf1. eapply climb_from_right_root; eauto.
    intros Hx. rewrite Hx in Hr. apply repr_null in Hr. subst t.
    by apply elem_of_nil in Hy.
Qed.

(** *** The reverse walk, by symmetry *)

Lemma descend_right_swap fuel m x :
  descend_right fuel m x = descend_left fuel (swap_links <$> m) x.
Proof.
  revert x. induction fuel as [| fuel IH]; intros x; simpl; [done |].
  rewrite lookup_fmap. destruct (m !! x) as [n |]; simpl; [| done].
  by rewrite IH.
Qed.

Lemma ph_parent_swap m x : ph_parent (swap_links <$> m) x = ph_parent m x.
Proof. unfold ph_parent. rewrite lookup_fmap. by destruct (m !! x). Qed.

Lemma climb_from_left_swap fuel m x :
  climb_from_left fuel m x = climb_from_right fuel (swap_links <$> m) x.
Proof.
  revert x. induction fuel as [| fuel IH]; intros x; simpl; [done |].
  rewrite ph_parent_swap. destruct (ph_parent m x) as [p |]; simpl; [| done].
  destruct (nonnull p); [| done].
  rewrite lookup_fmap. destruct (m !! p) as [n |]; simpl; [| done].
  by rewrite IH.
Qed.

Lemma ph_prev_swap fuel m x : ph_prev fuel m x = ph_next fuel (swap_links <$> m) x.
Proof.
  unfold ph_prev, ph_next, PH_EMPTY_NODE. rewrite lookup_fmap.
  destruct (m !! x) as [n |]; simpl; [| done].
  destruct (__ph_parent_color n =? x); [done |].
  by rewrite descend_right_swap, climb_from_left_swap.
Qed.

Lemma ph_last_swap fuel m root : ph_last fuel m root = ph_first fuel (swap_links <$> m) root.
Proof. unfold ph_last, ph_first. simpl. by rewrite descend_right_swap. Qed.

Lemma repr_mirror m p t x : repr m p t x → repr (swap_links <$> m) p (mirror t) x.
Proof.
  revert p x. induction t as [| l IHl a c r IHr]; intros p x; simpl; [done |].
  intros (-> & Hne & Hal & n & Hn & Hpc & Hl & Hrr).
  split_and!; try done. exists (swap_links n).
  rewrite lookup_fmap, Hn. simpl. auto.
Qed.

Lemma inorder_mirror t : inorder (mirror t) = reverse (inorder t).
Proof.
  induction t as [| l IHl a c r IHr]; simpl; [done |].
  rewrite reverse_app, reverse_cons, IHl, IHr, <- app_assoc. done.
Qed.

Lemma size_mirror t : size (mirror t) = size t.
Proof. induction t; simpl; lia. Qed.

Lemma linked_mirror m root t : linked m root t → linked (swap_links <$> m) root (mirror t).
Proof.
  intros [Hr Hnd]. split; [by apply repr_mirror |].
  rewrite inorder_mirror. by rewrite reverse_Permutation.
Qed.

Lemma ph_reverse_walk_linked m root t fuel :
  linked m root t → (size t ≤ fuel)%nat →
  ph_reverse_walk fuel m root = Some (reverse (inorder t)).
Proof.
  intros Hlk Hf. unfold ph_reverse_walk.
  rewrite ph_last_swap.
  rewrite <- inorder_mirror.
  rewrite <- (ph_inorder_walk_linked (swap_links <$> m) root (mirror t) fuel);
    [| by apply linked_mirror | by rewrite size_mirror].
  unfold ph_inorder_walk.
  destruct (ph_first fuel (swap_links <$> m) root) as [n |]; simpl; [| done].
  apply walk_ext. intros y. apply ph_prev_swap.
Qed.

Lemma bst_sorted key t :
  bst key t → StronglySorted (λ x y, key x < key y) (inorder t).
Proof.
  induction t as [| l IHl a c r IHr]; simpl.
  - intros _. constructor.
  - intros (Hl & Hr & Hlt & Hgt).
    apply StronglySorted_app_2; [| by apply IHl |].
    + intros x y Hx Hy. apply elem_of_cons in Hy as [-> | Hy]; [by apply Hlt |].
      specialize (Hlt x Hx). specialize (Hgt y Hy). lia.
    + constructor; [by apply IHr |]. apply Forall_forall. intros y Hy. by apply Hgt.
Qed.

(** C6: on every tree, [ph_next] iterated from [ph_first] visits the linked
    nodes, each once, in the in-order sequence of the tree, which ascends in
    every order the linking discipline respects; [ph_prev] iterated from
    [ph_last] visits the same nodes in the reverse sequence. *)
Theorem ph_next_prev_enumerate (m : store) (root : ph_root) (t : tree) (fuel : nat) :
  linked m root t → (size t ≤ fuel)%nat →
  ph_inorder_walk fuel m root = Some (inorder t) ∧
  ph_reverse_walk fuel m root = Some (reverse (inorder t)) ∧
  NoDup (inorder t) ∧
  (∀ key, bst key t → StronglySorted (λ x y, key x < key y) (inorder t)).
Proof.
  intros Hlk Hf. split_and!.
  - by apply ph_inorder_walk_linked.
  - by apply ph_reverse_walk_linked.
  - by destruct Hlk.
  - intros key. apply bst_sorted.
Qed.

(** ** Postorder traversal *)

Lemma postorder_inorder t : postorder t ≡ₚ inorder t.
Proof.
  induction t as [| l IHl a c r IHr]; simpl; [done |].
  rewrite IHl, IHr. rewrite (Permutation_app_comm (inorder r) [a]). done.
Qed.

Lemma postorder_ends_in_root t : t ≠ Leaf → ∃ pre, postorder t = pre ++ [root_of t].
Proof.
  destruct t as [| l a c r]; [done |]. intros _. simpl.
  exists (postorder l ++ postorder r). by rewrite app_assoc.
Qed.

Lemma postorder_starts t k : postorder t ++ [k] = first_post t k :: tail (postorder t ++ [k]).
Proof.
  revert k. induction t as [| l IHl a c r IHr]; intros k; simpl; [done |].
  rewrite <- !app_assoc.
  change ([a] ++ [k]) with ([a] ++ [k]).
  assert (postorder r ++ [a] ++ [k] = first_post r a :: tail (postorder r ++ [a]) ++ [k]) as ->.
  { rewrite app_assoc, IHr. done. }
  change (first_post r a :: tail (postorder r ++ [a]) ++ [k])
    with ([first_post r a] ++ (tail (postorder r ++ [a]) ++ [k])).
  rewrite app_assoc, IHl. done.
Qed.

Lemma succ_post_None t k y : y ∉ inorder t → succ_post t k y = None.
Proof.
  revert k. induction t as [| l IHl a c r IHr]; intros k Hy; simpl; [done |].
  simpl in Hy. rewrite elem_of_app, elem_of_cons in Hy.
  destruct (Z.eqb_spec y a) as [-> | Hne]; [naive_solver |].
  rewrite IHl by naive_solver. apply IHr. naive_solver.
Qed.

Lemma succ_post_Some t k y : y ∈ inorder t → is_Some (succ_post t k y).
Proof.
  revert k. induction t as [| l IHl a c r IHr]; intros k Hy; simpl in *.
  - by apply elem_of_nil in Hy.
  - destruct (Z.eqb_spec y a) as [-> | Hne]; [eauto |].
    rewrite elem_of_app, elem_of_cons in Hy.
    destruct Hy as [Hy | [-> | Hy]]; [| done |].
    + destruct (IHl (first_post r a) Hy) as [s ->]. eauto.
    + destruct (succ_post l (first_post r a) y); eauto.
Qed.

Lemma left_deepest_first t m p x k fuel :
  repr m p t x → x ≠ NULL → (height t ≤ fuel)%nat →
  ph_left_deepest_node fuel m x = Some (first_post t k).
Proof.
  revert m p x k fuel. induction t as [| l IHl a c r IHr]; intros m p x k fuel Hr Hx Hf.
  - simpl in Hr. done.
  - destruct Hr as (-> & Hne & Hal & n & Hn & Hpc & Hl & Hrr).
    destruct fuel as [| fuel]; simpl in Hf; [lia |].
    simpl. rewrite Hn. simpl.
    destruct (Z.eqb_spec (ph_left n) 0) as [H0 | H0].
    + unfold nonnull at 1. rewrite H0. simpl.
      rewrite H0 in Hl. apply repr_null in Hl. subst l. simpl.
      destruct (Z.eqb_spec (ph_right n) 0) as [H1 | H1].
      * unfold nonnull. rewrite H1. simpl.
        rewrite H1 in Hrr. apply repr_null in Hrr. subst r. done.
      * rewrite nonnull_true by done. eapply IHr; eauto. lia.
    + rewrite nonnull_true by done. eapply IHl; eauto. lia.
Qed.

(** The node that [first_post] names has no children: it is a leaf. *)
Lemma first_post_is_leaf t m p x k :
  repr m p t x → t ≠ Leaf →
  ∃ n, m !! first_post t k = Some n ∧ ph_left n = NULL ∧ ph_right n = NULL.
Proof.
  revert m p x k. induction t as [| l IHl a c r IHr]; intros m p x k Hr Ht; [done |].
  destruct Hr as (-> & Hne & Hal & n & Hn & Hpc & Hl & Hrr). simpl.
  destruct l as [| ll la lc lr].
  - simpl. destruct r as [| rl ra rc rr].
    + simpl in *. eauto.
    + eapply IHr; eauto.
  - eapply IHl; eauto.
Qed.

Lemma ph_next_postorder_succ t m p x k fuel :
  repr m p t x → NoDup (inorder t) → aligned p →
  (t ≠ Leaf → ph_next_postorder fuel m x = Some k) →
  (height t ≤ fuel)%nat →
  ∀ y, y ∈ inorder t → ph_next_postorder fuel m y = succ_post t k y.
Proof.
  revert m p x k.
  induction t as [| l IHl a c r IHr]; intros m p x k Hr Hnd Hp Hk Hf y Hy.
  - by apply elem_of_nil in Hy.
  - destruct Hr as (-> & Hne & Hal & n & Hn & Hpc & Hl & Hrr).
    simpl in Hnd, Hy, Hf.
    pose proof Hnd as Hnd0.
    apply NoDup_app in Hnd as (Hndl & Hdisj & Hndr).
    apply NoDup_cons in Hndr as (Har & Hndr).
    pose proof (repr_root_of _ _ _ _ Hl) as Hla.
    pose proof (repr_root_of _ _ _ _ Hrr) as Hra.
    rewrite elem_of_app, elem_of_cons in Hy. simpl.
    destruct (Z.eqb_spec y a) as [-> | Hya]; [by apply Hk |].
    destruct Hy as [Hy | [-> | Hy]]; [| done |].
    + destruct (succ_post_Some l (first_post r a) y Hy) as [s Hs]. rewrite Hs, <- Hs.
      apply (IHl m a (ph_left n)); auto; try lia.
      intros Hlne. destruct l as [| ll la cl lr]; [done |].
      unfold ph_next_postorder.
      assert (ph_left n ≠ 0) as Hl0 by (simpl in Hl; destruct Hl as (-> & ? & _); done).
      rewrite nonnull_true by done.
      rewrite (ph_parent_repr m a ll la cl lr) by done. simpl.
      rewrite nonnull_true by done. rewrite Hn. simpl. rewrite Z.eqb_refl. simpl.
      destruct (Z.eqb_spec (ph_right n) 0) as [H0 | H0].
      * unfold nonnull. rewrite H0. simpl.
        rewrite H0 in Hrr. apply repr_null in Hrr. by subst r.
      * rewrite nonnull_true by done. eapply left_deepest_first; eauto. lia.
    + assert (y ∉ inorder l) as Hyl.
      { intros Hin. apply (Hdisj y Hin). set_solver. }
      rewrite (succ_post_None l _ y Hyl).
      apply (IHr m a (ph_right n)); auto; try lia.
      intros Hrne. destruct r as [| rl ra rc rr]; [done |].
      unfold ph_next_postorder.
      assert (ph_right n ≠ 0) as Hr0 by (simpl in Hrr; destruct Hrr as (-> & ? & _); done).
      rewrite nonnull_true by done.
      rewrite (ph_parent_repr m a rl ra rc rr) by done. simpl.
      rewrite nonnull_true by done. rewrite Hn. simpl.
      destruct (Z.eqb_spec (ph_right n) (ph_left n)) as [Heq | ?]; [| done].
      exfalso. destruct l as [| ll la cl lr].
      * simpl in Hl. unfold NULL in Hl. congruence.
      * destruct (children_differ _ _ _ Hnd0) as [Hdiff | ?]; [done | | done].
        apply Hdiff. by rewrite <- Hla, <- Hra.
Qed.

Lemma walk_succ_post t k step f :
  (∀ y, y ∈ inorder t → step y = succ_post t k y) →
  NoDup (inorder t) → NULL ∉ inorder t →
  walk step (size t + f) (first_post t k) =
  rest ← walk step f k; Some (postorder t ++ rest).
Proof.
  revert k f. induction t as [| l IHl a c r IHr]; intros k f Hstep Hnd H0.
  - simpl. by destruct (walk step f k).
  - cbn [inorder postorder first_post size] in *.
    apply NoDup_app in Hnd as (Hndl & Hdisj & Hndr).
    apply NoDup_cons in Hndr as (Har & Hndr).
    assert (a ∉ inorder l) as Hal'.
    { intros Hin. apply (Hdisj a Hin). set_solver. }
    replace (S (size l + size r) + f)%nat with (size l + (size r + S f))%nat by lia.
    rewrite IHl; [| | done | set_solver].
    2:{ intros y Hy. rewrite Hstep by set_solver. simpl.
        destruct (Z.eqb_spec y a) as [-> | _]; [done |].
        by destruct (succ_post_Some l (first_post r a) y Hy) as [s ->]. }
    rewrite IHr; [| | done | set_solver].
    2:{ intros y Hy. rewrite Hstep by set_solver. simpl.
        destruct (Z.eqb_spec y a) as [-> | _]; [done |].
        rewrite succ_post_None; [done |]. intros Hin. apply (Hdisj y Hin). set_solver. }
    assert (a ≠ 0) as Ha0 by set_solver.
    cbn [walk]. rewrite nonnull_true by done.
    rewrite Hstep by set_solver. simpl. rewrite Z.eqb_refl. simpl.
    destruct (walk step f k) as [rest |]; simpl; [| done].
    by rewrite <- !app_assoc.
Qed.

Lemma ph_first_postorder_linked m root t fuel :
  linked m root t → (height t ≤ fuel)%nat →
  ph_first_postorder fuel m root = Some (first_post t NULL).
Proof.
  intros [Hr _] Hf. unfold ph_first_postorder.
  destruct (Z.eqb_spec (ph_root_node root) 0) as [H0 | H0].
  - unfold nonnull. rewrite H0. simpl. rewrite H0 in Hr.
    apply repr_null in Hr. by subst t.
  - rewrite nonnull_true by done. eapply left_deepest_first; eauto.
Qed.

Lemma ph_postorder_walk_linked m root t fuel :
  linked m root t → (size t ≤ fuel)%nat →
  ph_postorder_walk fuel m root = Some (postorder t).
Proof.
  intros Hlk Hf. unfold ph_postorder_walk.
  pose proof (height_le_size t) as Hhs.
  rewrite (ph_first_postorder_linked m root t) by (auto; lia). simpl.
  pose proof (linked_null_free _ _ _ Hlk) as H0.
  destruct Hlk as [Hr Hnd].
  replace fuel with (size t + (fuel - size t))%nat at 2 by lia.
  rewrite walk_succ_post; auto.
  - rewrite walk_null. simpl. by rewrite app_nil_r.
  - intros y Hy.
    apply (ph_next_postorder_succ t m NULL (ph_root_node root) NULL fuel);
      auto using aligned_0; try lia.
    intros Ht. unfold ph_next_postorder.
    destruct t as [| l a c r]; [done |].
    rewrite (ph_parent_repr m NULL l a c r) by (auto using aligned_0).
    simpl in Hr. destruct Hr as (-> & Hne & _).
    by rewrite nonnull_true by done.
Qed.

Lemma visited_before_app_r x y vs ws : visited_before x y vs → visited_before x y (vs ++ ws).
Proof.
  intros (l1 & l2 & l3 & ->). exists l1, l2, (l3 ++ ws).
  rewrite <- app_assoc. simpl. rewrite <- app_assoc. done.
Qed.

Lemma visited_before_app_l x y vs ws : visited_before x y vs → visited_before x y (ws ++ vs).
Proof.
  intros (l1 & l2 & l3 & ->). exists (ws ++ l1), l2, l3.
  by rewrite <- app_assoc.
Qed.

Lemma visited_before_NoDup x y vs : NoDup vs → visited_before x y vs → x ≠ y.
Proof.
  intros Hnd (l1 & l2 & l3 & ->) ->.
  apply NoDup_app in Hnd as (_ & _ & Hnd).
  apply NoDup_cons in Hnd as (Hnin & _). apply Hnin. set_solver.
Qed.

(** In the postorder sequence both children of a node precede it. *)
Lemma postorder_children_first m p t x :
  repr m p t x →
  ∀ a n ch, a ∈ inorder t → m !! a = Some n →
    ch = ph_left n ∨ ch = ph_right n → ch ≠ NULL →
    visited_before ch a (postorder t).
Proof.
  revert p x. induction t as [| l IHl a0 c r IHr]; intros p x Hr a n ch Ha Hn Hch Hne.
  - by apply elem_of_nil in Ha.
  - destruct Hr as (-> & Hne0 & Hal & n0 & Hn0 & Hpc & Hl & Hrr).
    simpl in Ha. rewrite elem_of_app, elem_of_cons in Ha. simpl.
    destruct Ha as [Ha | [-> | Ha]].
    + apply visited_before_app_r. eapply IHl; eauto.
    + rewrite Hn0 in Hn. injection Hn as <-.
      destruct Hch as [-> | ->].
      * pose proof (repr_root_of _ _ _ _ Hl) as Hla.
        destruct (postorder_ends_in_root l) as [pre Hpre].
        { intros ->. simpl in Hl. done. }
        rewrite Hpre, <- Hla. exists pre, (postorder r), [].
        by rewrite <- app_assoc.
      * pose proof (repr_root_of _ _ _ _ Hrr) as Hra.
        destruct (postorder_ends_in_root r) as [pre Hpre].
        { intros ->. simpl in Hrr. done. }
        rewrite Hpre, <- Hra. exists (postorder l ++ pre), [], [].
        by rewrite <- !app_assoc.
    + apply visited_before_app_l, visited_before_app_r. eapply IHr; eauto.
Qed.

(** Every node but the topmost is a child of the node its packed word names. *)
Lemma repr_parent_child m p t x a :
  repr m p t x → aligned p → a ∈ inorder t → a ≠ x →
  ∃ q nq, ph_parent m a = Some q ∧ q ≠ NULL ∧ q ∈ inorder t ∧ m !! q = Some nq ∧
          (a = ph_left nq ∨ a = ph_right nq).
Proof.
  revert p x. induction t as [| l IHl a0 c r IHr]; intros p x Hr Hp Ha Hax.
  - by apply elem_of_nil in Ha.
  - pose proof Hr as (-> & Hne0 & Hal & n0 & Hn0 & Hpc & Hl & Hrr).
    simpl in Ha. rewrite elem_of_app, elem_of_cons in Ha.
    destruct Ha as [Ha | [-> | Ha]]; [| done |].
    + destruct (Z.eq_dec a (ph_left n0)) as [-> | Hne].
      * destruct l as [| ll la cl lr]; [by apply elem_of_nil in Ha |].
        exists a0, n0. rewrite (ph_parent_repr m a0 ll la cl lr) by done.
        split_and!; auto. simpl. set_solver.
      * destruct (IHl a0 (ph_left n0) Hl Hal Ha Hne) as (q & nq & ? & ? & ? & ? & ?).
        exists q, nq. split_and!; auto. simpl. set_solver.
    + destruct (Z.eq_dec a (ph_right n0)) as [-> | Hne].
      * destruct r as [| rl ra rc rr]; [by apply elem_of_nil in Ha |].
        exists a0, n0. rewrite (ph_parent_repr m a0 rl ra rc rr) by done.
        split_and!; auto. simpl. set_solver.
      * destruct (IHr a0 (ph_right n0) Hrr Hal Ha Hne) as (q & nq & ? & ? & ? & ? & ?).
        exists q, nq. split_and!; auto. simpl. set_solver.
Qed.

(** C7: the postorder traversal visits every linked node exactly once, every
    node after both of its children and before its parent, and starts at the
    left-deepest leaf (descend to the left child where there is one, else to
    the right child, until a node has neither). *)
Theorem ph_postorder_visits (m : store) (root : ph_root) (t : tree) (fuel : nat) :
  linked m root t → (size t ≤ fuel)%nat →
  ∃ vs, ph_postorder_walk fuel m root = Some vs ∧
    NoDup vs ∧ (∀ a, a ∈ vs ↔ a ∈ inorder t) ∧
    (∀ a n ch, a ∈ vs → m !! a = Some n →
       ch = ph_left n ∨ ch = ph_right n → ch ≠ NULL →
       visited_before ch a vs ∧ ch ≠ a) ∧
    (∀ a q, a ∈ vs → ph_parent m a = Some q → q ≠ NULL →
       visited_before a q vs ∧ a ≠ q) ∧
    (∀ f, head vs = Some f →
       ph_first_postorder fuel m root = Some f ∧ f = first_post t NULL ∧
       ∃ n, m !! f = Some n ∧ ph_left n = NULL ∧ ph_right n = NULL).
Proof.
  intros Hlk Hf. exists (postorder t).
  pose proof Hlk as [Hr Hnd].
  assert (NoDup (postorder t)) as Hndp by (by rewrite postorder_inorder).
  assert (∀ a, a ∈ postorder t ↔ a ∈ inorder t) as Hmem.
  { intros a. by rewrite postorder_inorder. }
  split_and!; auto.
  - by apply ph_postorder_walk_linked.
  - intros a n ch Ha Hn Hch Hne.
    assert (visited_before ch a (postorder t)) as Hvb.
    { eapply postorder_children_first; eauto. by apply Hmem. }
    split; [done |]. by eapply visited_before_NoDup.
  - intros a q Ha Hq Hq0.
    assert (a ≠ ph_root_node root) as Hax.
    { intros ->. destruct t as [| l a0 c r]; [by apply elem_of_nil in Ha |].
      rewrite (ph_parent_repr m NULL l a0 c r) in Hq by (auto using aligned_0).
      congruence. }
    destruct (repr_parent_child m NULL t _ a Hr aligned_0 (proj1 (Hmem a) Ha) Hax)
      as (q' & nq & Hq' & _ & Hin & Hnq & Hch).
    rewrite Hq in Hq'. injection Hq' as <-.
    assert (visited_before a q (postorder t)) as Hvb.
    { eapply postorder_children_first; eauto.
      eapply repr_not_null; eauto. by apply Hmem. }
    split; [done |]. by eapply visited_before_NoDup.
  - intros f Hhd.
    assert (t ≠ Leaf) as Ht by (intros ->; done).
    assert (f = first_post t NULL) as ->.
    { pose proof (postorder_starts t NULL) as Hst.
      destruct (postorder t) as [| v vs]; [done |].
      simpl in Hhd, Hst. congruence. }
    split_and!; [| done |].
    + apply ph_first_postorder_linked; [done |].
      pose proof (height_le_size t). lia.
    + eapply first_post_is_leaf; eauto.
Qed.

(** ** Running the writing functions *)

Lemma is_black_packed q c :
  aligned q → __ph_is_black (Z.lor q (color_bit c)) = match c with Black => true | Red => false end.
Proof.
  intros Hq. unfold __ph_is_black.
  rewrite color_of_packed by (auto using color_bit_range). by destruct c.
Qed.

Lemma is_red_packed q c :
  aligned q → __ph_is_red (Z.lor q (color_bit c)) = match c with Black => false | Red => true end.
Proof.
  intros Hq. unfold __ph_is_red.
  rewrite color_of_packed by (auto using color_bit_range). by destruct c.
Qed.

Lemma parent_packed q c : aligned q → __ph_parent (Z.lor q (color_bit c)) = q.
Proof. intros Hq. apply parent_of_packed; auto using color_bit_range. Qed.

Lemma color_packed q c : aligned q → __ph_color (Z.lor q (color_bit c)) = color_bit c.
Proof. intros Hq. apply color_of_packed; auto using color_bit_range. Qed.

Lemma node_at_inj m x q c l r q' c' l' r' :
  node_at m x q c l r → node_at m x q' c' l' r' → q = q' ∧ c = c' ∧ l = l' ∧ r = r'.
Proof.
  intros [Hq H1] [Hq' H2]. rewrite H1 in H2. injection H2 as Hpc -> ->.
  apply packed_inj in Hpc as [-> Hc]; auto using color_bit_range.
  split_and!; auto. destruct c, c'; done.
Qed.

Lemma parent_aligned q : aligned q → __ph_parent q = q.
Proof. intros Hq. rewrite <- (Z.lor_0_r q) at 1. by apply (parent_packed q Red). Qed.

Lemma color_aligned q : aligned q → __ph_color q = 0.
Proof. intros Hq. rewrite <- (Z.lor_0_r q) at 1. by apply (color_packed q Red). Qed.

Lemma is_black_aligned q : aligned q → __ph_is_black q = false.
Proof. intros Hq. unfold __ph_is_black. by rewrite color_aligned. Qed.

Lemma is_red_aligned q : aligned q → __ph_is_red q = true.
Proof. intros Hq. unfold __ph_is_red. by rewrite color_aligned. Qed.

Lemma lor_red q : Z.lor q (color_bit Red) = q.
Proof. apply Z.lor_0_r. Qed.

(** Two nodes at different depths are different nodes. *)
Ltac by_depth d :=
  let H := fresh in
  intros H; apply (f_equal d) in H; lia.

Ltac run_side :=
  first
  [ assumption | congruence
  | match goal with
    | Hd0 : ?d _ = S (?d _) |- ?a ≠ ?b =>
        let H := fresh in
        intros H; apply (f_equal d) in H;
        repeat match goal with Hd : d _ = S (d _) |- _ => revert Hd end;
        revert H; clear; intros; lia
    end ].

(** One step of a computation in [M] on an explicit state. *)

Lemma bind_assoc {A B C} (x : M A) (f : A → M B) (g : B → M C) s :
  bind (bind x f) g s = bind x (λ a, bind (f a) g) s.
Proof. unfold bind. destruct (x s) as [[a s'] |]; done. Qed.

Lemma bind_ret {A B} (a : A) (k : A → M B) s : bind (ret a) k s = k a s.
Proof. done. Qed.

Lemma bind_rd {A B} (f : store → option A) (k : A → M B) m root calls a :
  f m = Some a →
  bind (rd f) k (mk_state m root calls) = k a (mk_state m root calls).
Proof. intros H. unfold bind, rd. simpl. by rewrite H. Qed.

Lemma run_rd {A} (f : store → option A) m root calls a :
  f m = Some a → rd f (mk_state m root calls) = Some (a, mk_state m root calls).
Proof. intros H. unfold rd. simpl. by rewrite H. Qed.

Lemma bind_load {B} x (k : ph_node → M B) m root calls n :
  m !! x = Some n →
  bind (load x) k (mk_state m root calls) = k n (mk_state m root calls).
Proof. intros H. unfold load. by apply bind_rd. Qed.

Lemma bind_get_left {B} x (k : Z → M B) m root calls n :
  m !! x = Some n →
  bind (get_left x) k (mk_state m root calls) = k (ph_left n) (mk_state m root calls).
Proof. intros H. unfold get_left. rewrite bind_assoc. by rewrite (bind_load _ _ _ _ _ n). Qed.

Lemma bind_get_right {B} x (k : Z → M B) m root calls n :
  m !! x = Some n →
  bind (get_right x) k (mk_state m root calls) = k (ph_right n) (mk_state m root calls).
Proof. intros H. unfold get_right. rewrite bind_assoc. by rewrite (bind_load _ _ _ _ _ n). Qed.

Lemma bind_get_parent_color {B} x (k : Z → M B) m root calls n :
  m !! x = Some n →
  bind (get_parent_color x) k (mk_state m root calls) =
  k (__ph_parent_color n) (mk_state m root calls).
Proof.
  intros H. unfold get_parent_color. rewrite bind_assoc.
  by rewrite (bind_load _ _ _ _ _ n).
Qed.

Lemma run_store_node x n' m root calls n :
  m !! x = Some n →
  store_node x n' (mk_state m root calls) = Some (tt, mk_state (<[x := n']> m) root calls).
Proof. intros H. unfold store_node. simpl. by rewrite H. Qed.

Lemma run_set_left x v m root calls n :
  m !! x = Some n →
  set_left x v (mk_state m root calls) =
  Some (tt, mk_state (<[x := mk_ph_node (__ph_parent_color n) (ph_right n) v]> m) root calls).
Proof.
  intros H. unfold set_left. rewrite (bind_load _ _ _ _ _ n) by done.
  by apply (run_store_node _ _ _ _ _ n).
Qed.

Lemma run_set_right x v m root calls n :
  m !! x = Some n →
  set_right x v (mk_state m root calls) =
  Some (tt, mk_state (<[x := mk_ph_node (__ph_parent_color n) v (ph_left n)]> m) root calls).
Proof.
  intros H. unfold set_right. rewrite (bind_load _ _ _ _ _ n) by done.
  by apply (run_store_node _ _ _ _ _ n).
Qed.

Lemma run_set_word x v m root calls n :
  m !! x = Some n →
  set_parent_color_word x v (mk_state m root calls) =
  Some (tt, mk_state (<[x := mk_ph_node v (ph_right n) (ph_left n)]> m) root calls).
Proof.
  intros H. unfold set_parent_color_word. rewrite (bind_load _ _ _ _ _ n) by done.
  by apply (run_store_node _ _ _ _ _ n).
Qed.

Lemma bind_run {A B} (x : M A) (k : A → M B) s a s' :
  x s = Some (a, s') → bind x k s = k a s'.
Proof. intros H. unfold bind. by rewrite H. Qed.

Lemma bind_set_left {B} x v (k : unit → M B) m root calls n :
  m !! x = Some n →
  bind (set_left x v) k (mk_state m root calls) =
  k tt (mk_state (<[x := mk_ph_node (__ph_parent_color n) (ph_right n) v]> m) root calls).
Proof. intros H. by rewrite (bind_run _ _ _ _ _ (run_set_left x v m root calls n H)). Qed.

Lemma bind_set_right {B} x v (k : unit → M B) m root calls n :
  m !! x = Some n →
  bind (set_right x v) k (mk_state m root calls) =
  k tt (mk_state (<[x := mk_ph_node (__ph_parent_color n) v (ph_left n)]> m) root calls).
Proof. intros H. by rewrite (bind_run _ _ _ _ _ (run_set_right x v m root calls n H)). Qed.

Lemma bind_set_word {B} x v (k : unit → M B) m root calls n :
  m !! x = Some n →
  bind (set_parent_color_word x v) k (mk_state m root calls) =
  k tt (mk_state (<[x := mk_ph_node v (ph_right n) (ph_left n)]> m) root calls).
Proof. intros H. by rewrite (bind_run _ _ _ _ _ (run_set_word x v m root calls n H)). Qed.

Lemma bind_set_root {B} v (k : unit → M B) m root calls :
  bind (set_root v) k (mk_state m root calls) = k tt (mk_state m (mk_ph_root v) calls).
Proof. done. Qed.

Lemma bind_call {B} cb x y (k : unit → M B) m root calls :
  bind (call cb x y) k (mk_state m root calls) = k tt (mk_state m root (cb x y calls)).
Proof. done. Qed.

Lemma run_call cb x y m root calls :
  call cb x y (mk_state m root calls) = Some (tt, mk_state m root (cb x y calls)).
Proof. done. Qed.

Lemma run_set_root v m root calls :
  set_root v (mk_state m root calls) = Some (tt, mk_state m (mk_ph_root v) calls).
Proof. done. Qed.

Lemma run_ret {A} (a : A) s : ret a s = Some (a, s).
Proof. done. Qed.

(** Lookups in a store written to at addresses known to differ. *)
Ltac run_lookup :=
  cbv beta;
  unfold ph_parent, ph_red_parent, ph_is_black, ph_is_red;
  repeat first [ rewrite lookup_insert_eq
               | rewrite lookup_insert_ne by run_side ];
  first [ reflexivity
        | match goal with
          | H : ?m !! ?a = Some _ |- context [?m !! ?a] => rewrite H; reflexivity
          end ].

Ltac run_step :=
  first
  [ rewrite bind_assoc
  | rewrite bind_ret
  | erewrite bind_rd by run_lookup
  | erewrite bind_get_left by run_lookup
  | erewrite bind_get_right by run_lookup
  | erewrite bind_get_parent_color by run_lookup
  | erewrite bind_set_left by run_lookup
  | erewrite bind_set_right by run_lookup
  | erewrite bind_set_word by run_lookup
  | rewrite bind_set_root
  | rewrite bind_call
  | erewrite run_set_left by run_lookup
  | erewrite run_set_right by run_lookup
  | erewrite run_set_word by run_lookup
  | erewrite run_rd by run_lookup
  | rewrite run_call
  | rewrite run_set_root
  | rewrite run_ret
  | progress unfold ph_set_parent_color, ph_set_parent, __ph_change_child,
      __ph_change_child_rcu, __ph_rotate_set_parents, write_link, spec_set_color,
      spec_rotate
  | progress cbn [mbind option_bind opposite get_child set_child st_store st_root st_calls
                  __ph_parent_color ph_left ph_right ph_root_node negb andb orb]
  | progress change ph_BLACK with (color_bit Black)
  | progress change ph_RED with (color_bit Red)
  | progress change NULL with 0
  | rewrite parent_packed by assumption
  | rewrite color_packed by assumption
  | rewrite is_black_packed by assumption
  | rewrite is_red_packed by assumption
  | rewrite lor_red
  | rewrite parent_aligned by (first [ assumption | exact aligned_0 ])
  | rewrite color_aligned by (first [ assumption | exact aligned_0 ])
  | rewrite is_black_aligned by (first [ assumption | exact aligned_0 ])
  | rewrite is_red_aligned by (first [ assumption | exact aligned_0 ])
  | progress cbv beta iota
  | rewrite nonnull_0
  | rewrite nonnull_true by run_side
  | rewrite Z.eqb_refl
  | match goal with
    | |- context [?a =? ?b] =>
        let H := fresh in
        assert (a ≠ b) as H by run_side;
        apply Z.eqb_neq in H; rewrite H; clear H
    end ].

Ltac run := repeat run_step.


Lemma shape_parent_ne m root dom d x q c l r :
  shape m root dom d → dom x → node_at m x q c l r → x ≠ q.
Proof.
  intros Hsh Hx Hn. destruct (Z.eq_dec q 0) as [-> | Hq].
  - by apply (sh_node _ _ _ _ Hsh).
  - pose proof (sh_depth _ _ _ _ Hsh _ _ _ _ _ Hx Hn Hq). intros ->. lia.
Qed.

(** The step of the loop at a node without parent. *)
Lemma insert_loop_root fuel cb node c l r s :
  node_at (st_store s) node NULL c l r →
  __ph_insert_loop (S fuel) cb node NULL s =
  Some (tt, mk_state (<[node := mk_ph_node (Z.lor NULL ph_BLACK) r l]> (st_store s))
                     (st_root s) (st_calls s)).
Proof.
  intros [Hq Hn]. destruct s as [m root calls]. cbn [__ph_insert_loop]. simpl in *.
  run. done.
Qed.

(** ** Recolouring keeps the linkage *)

Lemma node_at_recolor_inv m x q c c' l r y qy cy ly ry :
  node_at m x q c l r →
  node_at (<[x := mk_ph_node (Z.lor q (color_bit c')) r l]> m) y qy cy ly ry →
  (y = x ∧ qy = q ∧ cy = c' ∧ ly = l ∧ ry = r) ∨ (y ≠ x ∧ node_at m y qy cy ly ry).
Proof.
  intros [Hq Hn] [Hqy Hy]. destruct (Z.eq_dec y x) as [-> | Hne].
  - left. rewrite lookup_insert_eq in Hy. injection Hy as Hpc -> ->.
    apply packed_inj in Hpc as [-> Hc]; auto using color_bit_range.
    split_and!; auto. destruct c', cy; done.
  - right. rewrite lookup_insert_ne in Hy by done. done.
Qed.

Lemma node_at_recolor m x q c c' l r y qy cy ly ry :
  node_at m x q c l r → node_at m y qy cy ly ry →
  ∃ cy', node_at (<[x := mk_ph_node (Z.lor q (color_bit c')) r l]> m) y qy cy' ly ry.
Proof.
  intros Hx Hy. destruct (Z.eq_dec y x) as [-> | Hne].
  - destruct (node_at_inj _ _ _ _ _ _ _ _ _ _ Hx Hy) as (<- & <- & <- & <-).
    exists c'. destruct Hx as [Hq Hn]. split; [done |]. by rewrite lookup_insert_eq.
  - exists cy. destruct Hy as [Hq Hn]. split; [done |]. by rewrite lookup_insert_ne.
Qed.

Lemma node_at_recolor_back m x q c c' l r y qy cy ly ry :
  node_at m x q c l r →
  node_at (<[x := mk_ph_node (Z.lor q (color_bit c')) r l]> m) y qy cy ly ry →
  ∃ cy0, node_at m y qy cy0 ly ry.
Proof.
  intros Hx Hy.
  destruct (node_at_recolor_inv _ _ _ _ _ _ _ _ _ _ _ _ Hx Hy)
    as [(-> & -> & -> & -> & ->) | [_ ?]]; eauto.
Qed.

Lemma shape_recolor m root dom d x q c c' l r :
  shape m root dom d → node_at m x q c l r →
  shape (<[x := mk_ph_node (Z.lor q (color_bit c')) r l]> m) root dom d.
Proof.
  intros Hsh Hx. split.
  - intros y Hy. destruct (sh_node _ _ _ _ Hsh y Hy) as (? & ? & qy & cy & ly & ry & Hn).
    split_and!; auto.
    destruct (node_at_recolor _ _ _ _ c' _ _ _ _ _ _ _ Hx Hn) as [cy' ?]. eauto 10.
  - intros y qy cy ly ry Hy Hn Hl.
    destruct (node_at_recolor_back _ _ _ _ _ _ _ _ _ _ _ _ Hx Hn) as [cy0 Hn0].
    destruct (sh_left _ _ _ _ Hsh _ _ _ _ _ Hy Hn0 Hl) as (? & cl & ll & rl & Hnl).
    split; [done |].
    destruct (node_at_recolor _ _ _ _ c' _ _ _ _ _ _ _ Hx Hnl) as [cy' ?]. eauto 10.
  - intros y qy cy ly ry Hy Hn Hr.
    destruct (node_at_recolor_back _ _ _ _ _ _ _ _ _ _ _ _ Hx Hn) as [cy0 Hn0].
    destruct (sh_right _ _ _ _ Hsh _ _ _ _ _ Hy Hn0 Hr) as (? & cl & ll & rl & Hnl).
    split; [done |].
    destruct (node_at_recolor _ _ _ _ c' _ _ _ _ _ _ _ Hx Hnl) as [cy' ?]. eauto 10.
  - intros y qy cy ly ry Hy Hn Hlr.
    destruct (node_at_recolor_back _ _ _ _ _ _ _ _ _ _ _ _ Hx Hn) as [cy0 Hn0].
    eapply (sh_sides _ _ _ _ Hsh); eauto.
  - intros y qy cy ly ry Hy Hn Hq.
    destruct (node_at_recolor_back _ _ _ _ _ _ _ _ _ _ _ _ Hx Hn) as [cy0 Hn0].
    destruct (sh_parent _ _ _ _ Hsh _ _ _ _ _ Hy Hn0 Hq) as (? & q' & cq & lq & rq & Hnq & ?).
    split; [done |].
    destruct (node_at_recolor _ _ _ _ c' _ _ _ _ _ _ _ Hx Hnq) as [cy' ?]. eauto 10.
  - intros y cy ly ry Hy Hn.
    destruct (node_at_recolor_back _ _ _ _ _ _ _ _ _ _ _ _ Hx Hn) as [cy0 Hn0].
    eapply (sh_root _ _ _ _ Hsh); eauto.
  - intros y qy cy ly ry Hy Hn Hq.
    destruct (node_at_recolor_back _ _ _ _ _ _ _ _ _ _ _ _ Hx Hn) as [cy0 Hn0].
    eapply (sh_depth _ _ _ _ Hsh); eauto.
Qed.

Lemma node_at_insert_ne m x n y q c l r :
  y ≠ x → node_at (<[x := n]> m) y q c l r ↔ node_at m y q c l r.
Proof. intros Hne. unfold node_at. by rewrite lookup_insert_ne. Qed.

Lemma node_at_insert_red m x q l r :
  aligned q → node_at (<[x := mk_ph_node q r l]> m) x q Red l r.
Proof. intros Hq. split; [done |]. by rewrite lookup_insert_eq, lor_red. Qed.

Lemma node_at_insert_eq m x q c l r :
  aligned q → node_at (<[x := mk_ph_node (Z.lor q (color_bit c)) r l]> m) x q c l r.
Proof. intros Hq. split; [done |]. by rewrite lookup_insert_eq. Qed.

(** Case 1 hands the violation over to the grandparent. *)
Lemma fixup_inv_case1 m root calls dom d node p l r g lp rp gg lg rg u lu ru :
  fixup_inv (mk_state m root calls) dom d node →
  node_at m node p Red l r → p ≠ 0 →
  node_at m p g Red lp rp → g ≠ 0 →
  node_at m g gg Black lg rg →
  node_at m u g Red lu ru → u ≠ 0 → u ≠ p →
  (lg = p ∧ rg = u) ∨ (lg = u ∧ rg = p) →
  fixup_inv
    (mk_state (<[g := mk_ph_node gg rg lg]>
                (<[p := mk_ph_node (Z.lor g (color_bit Black)) rp lp]>
                   (<[u := mk_ph_node (Z.lor g (color_bit Black)) ru lu]> m)))
              root calls) dom d g.
Proof.
  intros Hinv Hn Hp0 Hp Hg0 Hg Hu Hu0 Hup Hsides.
  rewrite <- (lor_red gg) at 1.
  pose proof (fi_shape _ _ _ _ Hinv) as Hsh. simpl in Hsh.
  pose proof (fi_node _ _ _ _ Hinv) as Hdn.
  destruct (sh_parent _ _ _ _ Hsh _ _ _ _ _ Hdn Hn Hp0) as (Hdp & _).
  destruct (sh_parent _ _ _ _ Hsh _ _ _ _ _ Hdp Hp Hg0) as (Hdg & _).
  pose proof (sh_depth _ _ _ _ Hsh _ _ _ _ _ Hdn Hn Hp0) as Hd1.
  pose proof (sh_depth _ _ _ _ Hsh _ _ _ _ _ Hdp Hp Hg0) as Hd2.
  assert (dom u) as Hdu.
  { destruct Hsides as [[-> <-] | [<- ->]].
    - by destruct (sh_right _ _ _ _ Hsh _ _ _ _ _ Hdg Hg Hu0).
    - by destruct (sh_left _ _ _ _ Hsh _ _ _ _ _ Hdg Hg Hu0). }
  pose proof (sh_depth _ _ _ _ Hsh _ _ _ _ _ Hdu Hu Hg0) as Hd3.
  assert (p ≠ g) as Hpg by (by_depth d).
  assert (u ≠ g) as Hug by (by_depth d).
  assert (node ≠ g) as Hng by (by_depth d).
  assert (node ≠ p) as Hnp by (by_depth d).
  set (m1 := <[u := mk_ph_node (Z.lor g (color_bit Black)) ru lu]> m).
  set (m2 := <[p := mk_ph_node (Z.lor g (color_bit Black)) rp lp]> m1).
  assert (node_at m1 p g Red lp rp) as Hp1.
  { apply node_at_insert_ne; [congruence | done]. }
  assert (node_at m2 g gg Black lg rg) as Hg2.
  { apply node_at_insert_ne; [congruence |]. apply node_at_insert_ne; [congruence | done]. }
  (* a node of the final store, traced back *)
  assert (∀ y qy cy ly ry,
    node_at (<[g := mk_ph_node (Z.lor gg (color_bit Red)) rg lg]> m2) y qy cy ly ry →
    (y = g ∧ qy = gg ∧ cy = Red) ∨ (y = p ∧ qy = g ∧ cy = Black) ∨
    (y = u ∧ qy = g ∧ cy = Black) ∨
    (y ≠ g ∧ y ≠ p ∧ y ≠ u ∧ node_at m y qy cy ly ry)) as Hback.
  { intros y qy cy ly ry Hy.
    destruct (node_at_recolor_inv _ _ _ _ _ _ _ _ _ _ _ _ Hg2 Hy)
      as [(-> & -> & -> & _) | [Hyg Hy2]]; [by left |].
    destruct (node_at_recolor_inv _ _ _ _ _ _ _ _ _ _ _ _ Hp1 Hy2)
      as [(-> & -> & -> & _) | [Hyp Hy1]]; [by right; left |].
    destruct (node_at_recolor_inv _ _ _ _ _ _ _ _ _ _ _ _ Hu Hy1)
      as [(-> & -> & -> & _) | [Hyu Hy0]]; [by right; right; left |].
    by right; right; right. }
  split; cbn [st_store st_root ph_root_node].
  - apply (shape_recolor m2 _ _ _ g gg Black Red lg rg); [| exact Hg2].
    apply (shape_recolor m1 _ _ _ p g Red Black lp rp); [| exact Hp1].
    by apply (shape_recolor m _ _ _ u g Red Black lu ru).
  - done.
  - exists gg, lg, rg. apply node_at_insert_eq. by destruct Hg.
  - intros x q lx rx q' lq rq Hdx Hq0 Hx Hq.
    destruct (Hback _ _ _ _ _ Hx)
      as [(-> & _) | [(_ & _ & ?) | [(_ & _ & ?) | (Hxg & Hxp & Hxu & Hx0)]]];
      [done | done | done |].
    destruct (Hback _ _ _ _ _ Hq)
      as [(-> & _) | [(_ & _ & ?) | [(_ & _ & ?) | (Hqg & Hqp & Hqu & Hq0')]]];
      [| done | done |].
    + (* a RED child of the grandparent other than the parent and the uncle *)
      exfalso.
      destruct (sh_parent _ _ _ _ Hsh _ _ _ _ _ Hdx Hx0 Hg0)
        as (_ & q'' & cq & lq' & rq' & Hg' & Hch).
      destruct (node_at_inj _ _ _ _ _ _ _ _ _ _ Hg Hg') as (_ & _ & <- & <-).
      destruct Hsides as [[-> ->] | [-> ->]]; destruct Hch; congruence.
    + assert (x = node) as -> by (eapply (fi_rr _ _ _ _ Hinv); eauto).
      destruct (node_at_inj _ _ _ _ _ _ _ _ _ _ Hn Hx0) as (-> & _). done.
  - intros x c lx rx Hdx Hx Hxg.
    destruct (Hback _ _ _ _ _ Hx)
      as [(-> & _) | [(_ & _ & ?) | [(_ & _ & ?) | (_ & Hxp & Hxu & Hx0)]]];
      [done | done | done |].
    eapply (fi_root _ _ _ _ Hinv); eauto.
    intros ->. destruct (node_at_inj _ _ _ _ _ _ _ _ _ _ Hn Hx0) as (-> & _). done.
Qed.

Lemma shape_left_child m root dom d x q c l r :
  shape m root dom d → dom x → node_at m x q c l r → l ≠ 0 →
  ∃ cl ll rl, dom l ∧ node_at m l x cl ll rl ∧ d l = S (d x) ∧ aligned l ∧ l ≠ r.
Proof.
  intros Hsh Hx Hn Hl.
  destruct (sh_left _ _ _ _ Hsh _ _ _ _ _ Hx Hn Hl) as (Hdl & cl & ll & rl & Hnl).
  exists cl, ll, rl. split_and!; auto.
  - eapply (sh_depth _ _ _ _ Hsh); eauto. by apply (sh_node _ _ _ _ Hsh).
  - by apply (sh_node _ _ _ _ Hsh).
  - intros Heq. by apply Hl, (sh_sides _ _ _ _ Hsh _ _ _ _ _ Hx Hn).
Qed.

Lemma shape_right_child m root dom d x q c l r :
  shape m root dom d → dom x → node_at m x q c l r → r ≠ 0 →
  ∃ cr lr rr, dom r ∧ node_at m r x cr lr rr ∧ d r = S (d x) ∧ aligned r ∧ l ≠ r.
Proof.
  intros Hsh Hx Hn Hr.
  destruct (sh_right _ _ _ _ Hsh _ _ _ _ _ Hx Hn Hr) as (Hdr & cr & lr & rr & Hnr).
  exists cr, lr, rr. split_and!; auto.
  - eapply (sh_depth _ _ _ _ Hsh); eauto. by apply (sh_node _ _ _ _ Hsh).
  - by apply (sh_node _ _ _ _ Hsh).
  - intros Heq. apply Hr. rewrite <- Heq. by apply (sh_sides _ _ _ _ Hsh _ _ _ _ _ Hx Hn).
Qed.


Lemma shape_left_cases m root dom d x q c l r :
  shape m root dom d → dom x → node_at m x q c l r →
  l = 0 ∨ (l ≠ 0 ∧ ∃ cl ll rl, dom l ∧ node_at m l x cl ll rl ∧ d l = S (d x) ∧
                               aligned l ∧ l ≠ r).
Proof.
  intros Hsh Hx Hn. destruct (Z.eq_dec l 0) as [-> | Hl]; [by left | right].
  split; [done |]. eapply shape_left_child; eauto.
Qed.

Lemma shape_right_cases m root dom d x q c l r :
  shape m root dom d → dom x → node_at m x q c l r →
  r = 0 ∨ (r ≠ 0 ∧ ∃ cr lr rr, dom r ∧ node_at m r x cr lr rr ∧ d r = S (d x) ∧
                               aligned r ∧ l ≠ r).
Proof.
  intros Hsh Hx Hn. destruct (Z.eq_dec r 0) as [-> | Hr]; [by left | right].
  split; [done |]. eapply shape_right_child; eauto.
Qed.

Lemma shape_parent_cases m root dom d x q c l r :
  shape m root dom d → dom x → node_at m x q c l r →
  q = 0 ∨ (q ≠ 0 ∧ ∃ q' c' l' r', dom q ∧ node_at m q q' c' l' r' ∧ (l' = x ∨ r' = x) ∧
                                  d x = S (d q) ∧ aligned q ∧ (l' = r' → False)).
Proof.
  intros Hsh Hx Hn. destruct (Z.eq_dec q 0) as [-> | Hq]; [by left | right].
  split; [done |].
  destruct (sh_parent _ _ _ _ Hsh _ _ _ _ _ Hx Hn Hq) as (Hdq & q' & c' & l' & r' & Hnq & Hch).
  exists q', c', l', r'. split_and!; auto.
  - eapply (sh_depth _ _ _ _ Hsh); eauto.
  - by apply (sh_node _ _ _ _ Hsh).
  - intros Heq. pose proof (sh_sides _ _ _ _ Hsh _ _ _ _ _ Hdq Hnq Heq) as Hl0.
    destruct (sh_node _ _ _ _ Hsh _ Hx) as (Hx0 & _).
    destruct Hch; unfold NULL in *; congruence.
Qed.

(** Under the loop invariant a child of a RED node is BLACK, unless it is
    the node the loop is at. *)
Lemma child_of_red_black s dom d node y x cy ly ry qx lx rx :
  fixup_inv s dom d node → dom y → x ≠ 0 →
  node_at (st_store s) y x cy ly ry → node_at (st_store s) x qx Red lx rx →
  y ≠ node → cy = Black.
Proof.
  intros Hinv Hy Hx0 Hny Hnx Hne. destruct cy; [| done].
  exfalso. apply Hne. eapply (fi_rr _ _ _ _ Hinv); eauto.
Qed.

(** Two states are compared store by store, address by address. *)
Ltac store_lookup k :=
  repeat match goal with
         | |- context [ (<[?a := _]> _) !! k ] =>
             first
             [ rewrite (lookup_insert_ne _ a k) by run_side
             | destruct (Z.eq_dec k a) as [-> | ?];
               [ repeat first [ rewrite lookup_insert_eq
                              | rewrite lookup_insert_ne by run_side ];
                 reflexivity
               | rewrite (lookup_insert_ne _ a k) by congruence ] ]
         end;
  try reflexivity.

Ltac store_eq :=
  repeat match goal with
         | |- Some _ = Some _ => f_equal
         | |- (_, _) = (_, _) => f_equal
         | |- mk_state _ _ _ = mk_state _ _ _ => f_equal
         end;
  try reflexivity;
  let k := fresh "k" in
  apply map_eq; intros k; store_lookup k.

(** The loop of [__ph_insert] and the case analysis of section 4.2 do the
    same to every state that satisfies the loop invariant, and both come to
    an end within as many rounds as the node is deep. *)
Lemma insert_loop_refines fuel cb :
  ∀ s dom d node q l r,
    fixup_inv s dom d node → node_at (st_store s) node q Red l r →
    __ph_insert_loop fuel cb node q s = spec_insert_fixup fuel cb node s ∧
    ((d node < fuel)%nat → ∃ s', spec_insert_fixup fuel cb node s = Some (tt, s')).
Proof.
  induction fuel as [| fuel IH]; intros s dom d node q l r Hinv Hnode;
    [split; [done | lia] |].
  destruct s as [m root calls].
  pose proof (fi_shape _ _ _ _ Hinv) as Hsh.
  pose proof (fi_node _ _ _ _ Hinv) as Hdn.
  cbn [st_store st_root ph_root_node] in *.
  pose proof Hnode as [Hqa Hn].
  pose proof (sh_node _ _ _ _ Hsh _ Hdn) as (Hn0 & Hna & _).
  cbn [__ph_insert_loop spec_insert_fixup].
  destruct (Z.eq_dec q 0) as [-> | Hq0].
  { run. eauto. }
  destruct (sh_parent _ _ _ _ Hsh _ _ _ _ _ Hdn Hnode Hq0)
    as (Hdq & q' & cq & lq & rq & Hpar & Hchild).
  pose proof Hpar as [Hq'a Hp].
  pose proof (sh_node _ _ _ _ Hsh _ Hdq) as (_ & Hqal & _).
  pose proof (sh_depth _ _ _ _ Hsh _ _ _ _ _ Hdn Hnode Hq0) as Hd1.
  destruct cq.
  2:{ run. eauto. }
  (* the parent is RED: there is a grandparent, and it is BLACK *)
  assert (q' ≠ 0) as Hq'0.
  { intros ->. assert (Black = Red); [| done]. symmetry.
    eapply (fi_root _ _ _ _ Hinv q); eauto. by_depth d. }
  destruct (sh_parent _ _ _ _ Hsh _ _ _ _ _ Hdq Hpar Hq'0)
    as (Hdg & q'' & cg & lg & rg & Hgp & Hgchild).
  pose proof Hgp as [Hq''a Hg].
  pose proof (sh_node _ _ _ _ Hsh _ Hdg) as (_ & Hgal & _).
  pose proof (sh_depth _ _ _ _ Hsh _ _ _ _ _ Hdq Hpar Hq'0) as Hd2.
  assert (cg = Black) as ->.
  { destruct cg; [| done]. exfalso.
    assert (q = node) as Heq by (eapply (fi_rr _ _ _ _ Hinv q); eauto).
    revert Heq. by_depth d. }
  pose proof (sh_sides _ _ _ _ Hsh _ _ _ _ _ Hdg Hgp) as Hgsides.
  pose proof (sh_sides _ _ _ _ Hsh _ _ _ _ _ Hdq Hpar) as Hpsides.
  run.
  destruct (Z.eq_dec q rg) as [Hside | Hside].
  - (* the parent is the right child *)
    subst rg.
    assert (lg ≠ q) as Hlg.
    { intros Heq. apply Hq0. rewrite <- Heq. by apply Hgsides. }
    run.
    (* either Case 1 applies or the test of the uncle fails *)
    assert ((lg ≠ 0 ∧ ∃ lu ru, node_at m lg q' Red lu ru) ∨
            (if nonnull lg then rd (λ m0 : store, ph_is_red m0 lg) else ret false)
              (mk_state m root calls) = Some (false, mk_state m root calls)) as Huncle.
    { destruct (shape_left_cases _ _ _ _ _ _ _ _ _ Hsh Hdg Hgp)
        as [-> | (Hu0 & cu & lu & ru & Hdu & Hu & Hd3 & Hual & Hqu)].
      - right. by run.
      - destruct cu; [left; eauto |]. right. destruct Hu as [? Hu]. by run. }
    destruct Huncle as [(Hu0 & lu & ru & Hu) | Hur].
    { (* Case 1 *)
      pose proof Hu as [_ Hum].
      assert (lg ≠ q) as Huq by congruence.
      pose proof (fixup_inv_case1 _ _ _ _ _ _ _ _ _ _ _ _ _ _ _ _ _ _
                    Hinv Hnode Hq0 Hpar Hq'0 Hgp Hu Hu0 Huq) as Hinv'.
      assert (lg ≠ q') as Hug.
      { destruct (shape_left_child _ _ _ _ _ _ _ _ _ Hsh Hdg Hgp Hu0)
          as (? & ? & ? & ? & ? & Hdu & _). revert Hdu. clear. intros Hdu. by_depth d. }
      run.
      match goal with
      | |- __ph_insert_loop _ _ _ _ ?s1 = spec_insert_fixup _ _ _ ?s2 ∧ _ =>
          replace s2 with s1 by (store_eq)
      end.
      edestruct IH as [Heq Hterm]; [apply Hinv'; by right | |].
      { apply node_at_insert_red. done. }
      split; [exact Heq |]. intros Hfuel. apply Hterm. lia. }
    rewrite !(bind_run _ _ _ _ _ Hur). clear Hur. cbv beta iota.
    run.
    destruct (Z.eq_dec node lq) as [<- | Houter].
    + (* Case 2 then Case 3: the node is the inner grandchild *)
      assert (rq ≠ node) as Hsib.
      { intros ->. apply Hn0. by apply Hpsides. }
      destruct (shape_left_cases _ _ _ _ _ _ _ _ _ Hsh Hdn Hnode)
        as [-> | (Hl0 & cl & ll & rl & Hdl & Hl & Hd3 & Hlal & Hlr)];
      destruct (shape_right_cases _ _ _ _ _ _ _ _ _ Hsh Hdn Hnode)
        as [-> | (Hr0 & cr & lr & rr & Hdr & Hr & Hd4 & Hral & Hlr')];
      destruct (shape_parent_cases _ _ _ _ _ _ _ _ _ Hsh Hdg Hgp)
        as [-> | (Ht0 & q3 & c3 & l3 & r3 & Hdt & [? Ht] & Htc & Hd5 & Htal & Hts)];
      try (assert (cl = Black) as ->
             by (eapply (child_of_red_black _ _ _ _ l node); eauto; by_depth d);
           destruct Hl as [_ Hl]);
      try (assert (cr = Black) as ->
             by (eapply (child_of_red_black _ _ _ _ r node); eauto; by_depth d);
           destruct Hr as [_ Hr]);
      clear Hchild Hgchild Hpsides Hgsides Hinv Hsh IH;
      try (destruct (Z.eq_dec l3 q') as [-> | Hl3];
             [| assert (r3 = q') as -> by (destruct Htc; congruence)]; clear Htc);
      run; (split; [store_eq | intros _; eexists; reflexivity]).
    + (* Case 3 alone: the node is the outer grandchild *)
      assert (rq = node) as -> by (by destruct Hchild).
      destruct (shape_left_cases _ _ _ _ _ _ _ _ _ Hsh Hdq Hpar)
        as [-> | (Hs0 & cs & ls & rs & Hds & Hsb & Hd4 & Hsal & Hns)];
      destruct (shape_parent_cases _ _ _ _ _ _ _ _ _ Hsh Hdg Hgp)
        as [-> | (Ht0 & q3 & c3 & l3 & r3 & Hdt & [? Ht] & Htc & Hd5 & Htal & Hts)];
      try (assert (cs = Black) as ->
             by (eapply (child_of_red_black _ _ _ _ lq q); eauto);
           destruct Hsb as [_ Hs]);
      clear Hchild Hgchild Hpsides Hgsides Hinv Hsh IH;
      try (destruct (Z.eq_dec l3 q') as [-> | Hl3];
             [| assert (r3 = q') as -> by (destruct Htc; congruence)]; clear Htc);
      run; (split; [store_eq | intros _; eexists; reflexivity]).
  - (* the parent is the left child *)
    assert (lg = q) as -> by (by destruct Hgchild).
    run.
    (* either Case 1 applies or the test of the uncle fails *)
    assert ((rg ≠ 0 ∧ ∃ lu ru, node_at m rg q' Red lu ru) ∨
            (if nonnull rg then rd (λ m0 : store, ph_is_red m0 rg) else ret false)
              (mk_state m root calls) = Some (false, mk_state m root calls)) as Huncle.
    { destruct (shape_right_cases _ _ _ _ _ _ _ _ _ Hsh Hdg Hgp)
        as [-> | (Hu0 & cu & lu & ru & Hdu & Hu & Hd3 & Hual & Hqu)].
      - right. by run.
      - destruct cu; [left; eauto |]. right. destruct Hu as [? Hu]. by run. }
    destruct Huncle as [(Hu0 & lu & ru & Hu) | Hur].
    { (* Case 1 *)
      pose proof Hu as [_ Hum].
      assert (rg ≠ q) as Huq by congruence.
      pose proof (fixup_inv_case1 _ _ _ _ _ _ _ _ _ _ _ _ _ _ _ _ _ _
                    Hinv Hnode Hq0 Hpar Hq'0 Hgp Hu Hu0 Huq) as Hinv'.
      assert (rg ≠ q') as Hug.
      { destruct (shape_right_child _ _ _ _ _ _ _ _ _ Hsh Hdg Hgp Hu0)
          as (? & ? & ? & ? & ? & Hdu & _). revert Hdu. clear. intros Hdu. by_depth d. }
      run.
      match goal with
      | |- __ph_insert_loop _ _ _ _ ?s1 = spec_insert_fixup _ _ _ ?s2 ∧ _ =>
          replace s2 with s1 by (store_eq)
      end.
      edestruct IH as [Heq Hterm]; [apply Hinv'; by left | |].
      { apply node_at_insert_red. done. }
      split; [exact Heq |]. intros Hfuel. apply Hterm. lia. }
    rewrite !(bind_run _ _ _ _ _ Hur). clear Hur. cbv beta iota.
    run.
    destruct (Z.eq_dec node rq) as [<- | Houter].
    + (* Case 2 then Case 3: the node is the inner grandchild *)
      assert (lq ≠ node) as Hsib.
      { intros ->. apply Hn0. by apply Hpsides. }
      destruct (shape_left_cases _ _ _ _ _ _ _ _ _ Hsh Hdn Hnode)
        as [-> | (Hl0 & cl & ll & rl & Hdl & Hl & Hd3 & Hlal & Hlr)];
      destruct (shape_right_cases _ _ _ _ _ _ _ _ _ Hsh Hdn Hnode)
        as [-> | (Hr0 & cr & lr & rr & Hdr & Hr & Hd4 & Hral & Hlr')];
      destruct (shape_parent_cases _ _ _ _ _ _ _ _ _ Hsh Hdg Hgp)
        as [-> | (Ht0 & q3 & c3 & l3 & r3 & Hdt & [? Ht] & Htc & Hd5 & Htal & Hts)];
      try (assert (cl = Black) as ->
             by (eapply (child_of_red_black _ _ _ _ l node); eauto; by_depth d);
           destruct Hl as [_ Hl]);
      try (assert (cr = Black) as ->
             by (eapply (child_of_red_black _ _ _ _ r node); eauto; by_depth d);
           destruct Hr as [_ Hr]);
      clear Hchild Hgchild Hpsides Hgsides Hinv Hsh IH;
      try (destruct (Z.eq_dec l3 q') as [-> | Hl3];
             [| assert (r3 = q') as -> by (destruct Htc; congruence)]; clear Htc);
      run; (split; [store_eq | intros _; eexists; reflexivity]).
    + (* Case 3 alone: the node is the outer grandchild *)
      assert (lq = node) as -> by (by destruct Hchild).
      destruct (shape_right_cases _ _ _ _ _ _ _ _ _ Hsh Hdq Hpar)
        as [-> | (Hs0 & cs & ls & rs & Hds & Hsb & Hd4 & Hsal & Hns)];
      destruct (shape_parent_cases _ _ _ _ _ _ _ _ _ Hsh Hdg Hgp)
        as [-> | (Ht0 & q3 & c3 & l3 & r3 & Hdt & [? Ht] & Htc & Hd5 & Htal & Hts)];
      try (assert (cs = Black) as ->
             by (eapply (child_of_red_black _ _ _ _ rq q); eauto);
           destruct Hsb as [_ Hs]);
      clear Hchild Hgchild Hpsides Hgsides Hinv Hsh IH;
      try (destruct (Z.eq_dec l3 q') as [-> | Hl3];
             [| assert (r3 = q') as -> by (destruct Htc; congruence)]; clear Htc);
      run; (split; [store_eq | intros _; eexists; reflexivity]).
Qed.

(** ** From a laid-out tree to the linkage seen from the store *)

Lemma repr_node m p l a c r x :
  aligned p → repr m p (Node l a c r) x →
  node_at m a p c (root_of l) (root_of r) ∧
  repr m a l (root_of l) ∧ repr m a r (root_of r).
Proof.
  intros Hp (-> & Hne & Hal & n & Hn & Hpc & Hl & Hrr).
  pose proof (repr_root_of _ _ _ _ Hl) as Hla.
  pose proof (repr_root_of _ _ _ _ Hrr) as Hra.
  rewrite <- Hla, <- Hra. split_and!; auto.
  split; [done |]. rewrite Hn. destruct n as [pc rn ln]. simpl in *. by subst.
Qed.

(** Each node of a laid-out tree, with the two subtrees under it. *)
Lemma repr_node_at m p t x0 y :
  repr m p t x0 → aligned p → y ∈ inorder t →
  ∃ q c tl tr,
    node_at m y q c (root_of tl) (root_of tr) ∧
    repr m y tl (root_of tl) ∧ repr m y tr (root_of tr) ∧
    (∀ z, z ∈ inorder tl → z ∈ inorder t) ∧ (∀ z, z ∈ inorder tr → z ∈ inorder t) ∧
    (NoDup (inorder t) → NoDup (inorder tl ++ y :: inorder tr)).
Proof.
  revert p x0. induction t as [| l IHl a c r IHr]; intros p x0 Hr Hp Hy.
  - by apply elem_of_nil in Hy.
  - destruct (repr_node _ _ _ _ _ _ _ Hp Hr) as (Hn & Hl & Hrr).
    assert (aligned a) as Ha by (by destruct Hr as (_ & _ & ? & _)).
    simpl in Hy. rewrite elem_of_app, elem_of_cons in Hy.
    destruct Hy as [Hy | [-> | Hy]].
    + destruct (IHl _ _ Hl Ha Hy) as (q & cy & tl & tr & ? & ? & ? & Hsl & Hsr & Hnd).
      exists q, cy, tl, tr. split_and!; auto.
      * intros z Hz. simpl. apply elem_of_app. left. auto.
      * intros z Hz. simpl. apply elem_of_app. left. auto.
      * intros Hnd'. apply Hnd. simpl in Hnd'. by apply NoDup_app in Hnd' as (? & _).
    + exists p, c, l, r. split_and!; auto.
      * intros z Hz. simpl. apply elem_of_app. by left.
      * intros z Hz. simpl. apply elem_of_app. right. by apply elem_of_cons; right.
    + destruct (IHr _ _ Hrr Ha Hy) as (q & cy & tl & tr & ? & ? & ? & Hsl & Hsr & Hnd).
      exists q, cy, tl, tr. split_and!; auto.
      * intros z Hz. simpl. apply elem_of_app. right. apply elem_of_cons. right. auto.
      * intros z Hz. simpl. apply elem_of_app. right. apply elem_of_cons. right. auto.
      * intros Hnd'. apply Hnd. simpl in Hnd'.
        apply NoDup_app in Hnd' as (_ & _ & Hnd'). by apply NoDup_cons in Hnd' as (_ & ?).
Qed.

Lemma repr_root_node_at m p t x0 :
  repr m p t x0 → aligned p → x0 ≠ NULL →
  ∃ l r, node_at m x0 p (color_of t) l r ∧ x0 ∈ inorder t.
Proof.
  intros Hr Hp Hx. destruct t as [| l a c r]; [done |].
  destruct (repr_node _ _ _ _ _ _ _ Hp Hr) as (Hn & _).
  assert (x0 = a) as -> by (by destruct Hr).
  exists (root_of l), (root_of r). split; [done |]. simpl. set_solver.
Qed.

Lemma depth_in_parent m p t x0 y q c l r :
  repr m p t x0 → NoDup (inorder t) → aligned p →
  y ∈ inorder t → y ≠ x0 → node_at m y q c l r →
  q ∈ inorder t ∧ depth_in t y = S (depth_in t q).
Proof.
  revert p x0. induction t as [| tl IHl a ca tr IHr]; intros p x0 Hr Hnd Hp Hy Hyx Hn.
  - by apply elem_of_nil in Hy.
  - destruct (repr_node _ _ _ _ _ _ _ Hp Hr) as (Hna & Hl & Hrr).
    assert (aligned a) as Ha by (by destruct Hr as (_ & _ & ? & _)).
    assert (x0 = a) as -> by (by destruct Hr).
    simpl in Hnd, Hy.
    apply NoDup_app in Hnd as (Hndl & Hdisj & Hndr).
    apply NoDup_cons in Hndr as (Har & Hndr).
    assert (a ∉ inorder tl) as Hal.
    { intros Hin. apply (Hdisj a Hin). set_solver. }
    rewrite elem_of_app, elem_of_cons in Hy.
    destruct Hy as [Hy | [-> | Hy]]; [| done |].
    + simpl. destruct (Z.eqb_spec y a) as [-> | _]; [done |].
      rewrite bool_decide_eq_true_2 by done.
      destruct (Z.eq_dec y (root_of tl)) as [-> | Hne].
      * assert (root_of tl ≠ NULL) as Hl0 by (apply (repr_not_null _ _ _ _ _ Hl Hy)).
        destruct (repr_root_node_at _ _ _ _ Hl Ha Hl0) as (l' & r' & Hn' & _).
        destruct (node_at_inj _ _ _ _ _ _ _ _ _ _ Hn Hn') as (-> & _).
        split; [set_solver |]. rewrite Z.eqb_refl.
        destruct tl as [| ? b ? ?]; [by apply elem_of_nil in Hy |]. simpl.
        by rewrite Z.eqb_refl.
      * destruct (IHl _ _ Hl Hndl Ha Hy Hne Hn) as (Hq & Hd).
        split; [set_solver |].
        destruct (Z.eqb_spec q a) as [-> | _]; [done |].
        rewrite bool_decide_eq_true_2 by done. by rewrite Hd.
    + assert (y ∉ inorder tl) as Hyl.
      { intros Hin. apply (Hdisj y Hin). set_solver. }
      assert (y ≠ a) as Hya by (intros ->; done).
      simpl. destruct (Z.eqb_spec y a) as [? | _]; [done |].
      rewrite bool_decide_eq_false_2 by done.
      destruct (Z.eq_dec y (root_of tr)) as [-> | Hne].
      * assert (root_of tr ≠ NULL) as Hr0 by (apply (repr_not_null _ _ _ _ _ Hrr Hy)).
        destruct (repr_root_node_at _ _ _ _ Hrr Ha Hr0) as (l' & r' & Hn' & _).
        destruct (node_at_inj _ _ _ _ _ _ _ _ _ _ Hn Hn') as (-> & _).
        split; [set_solver |]. rewrite Z.eqb_refl.
        destruct tr as [| ? b ? ?]; [by apply elem_of_nil in Hy |]. simpl.
        by rewrite Z.eqb_refl.
      * destruct (IHr _ _ Hrr Hndr Ha Hy Hne Hn) as (Hq & Hd).
        split; [set_solver |].
        assert (q ∉ inorder tl) as Hql.
        { intros Hin. apply (Hdisj q Hin). set_solver. }
        destruct (Z.eqb_spec q a) as [-> | _]; [done |].
        rewrite bool_decide_eq_false_2 by done. by rewrite Hd.
Qed.

Lemma depth_in_lt_height t y : y ∈ inorder t → (depth_in t y < height t)%nat.
Proof.
  induction t as [| l IHl a c r IHr]; intros Hy.
  - by apply elem_of_nil in Hy.
  - simpl in *. destruct (Z.eqb_spec y a) as [-> | Hne]; [lia |].
    rewrite elem_of_app, elem_of_cons in Hy.
    destruct (bool_decide_reflect (y ∈ inorder l)) as [Hin | Hnin].
    + specialize (IHl Hin). lia.
    + destruct Hy as [? | [? | Hy]]; [done | done |]. specialize (IHr Hy). lia.
Qed.

Lemma linked_shape m root t :
  linked m root t →
  shape m (ph_root_node root) (λ x, x ∈ inorder t) (depth_in t).
Proof.
  intros [Hr Hnd]. pose proof aligned_0 as H0. split.
  - intros x Hx. split_and!.
    + apply (repr_not_null _ _ _ _ _ Hr Hx).
    + apply (repr_aligned _ _ _ _ _ Hr Hx).
    + destruct (repr_node_at _ _ _ _ _ Hr H0 Hx) as (q & c & tl & tr & Hn & _). eauto.
  - intros x q c l r Hx Hn Hl.
    destruct (repr_node_at _ _ _ _ _ Hr H0 Hx) as (q' & c' & tl & tr & Hn' & Hl' & _ & Hsl & _).
    destruct (node_at_inj _ _ _ _ _ _ _ _ _ _ Hn Hn') as (<- & <- & -> & ->).
    assert (aligned x) as Hxa by (apply (repr_aligned _ _ _ _ _ Hr Hx)).
    destruct (repr_root_node_at _ _ _ _ Hl' Hxa Hl) as (l1 & r1 & Hn1 & Hin).
    split; [by apply Hsl | eauto].
  - intros x q c l r Hx Hn Hrn.
    destruct (repr_node_at _ _ _ _ _ Hr H0 Hx) as (q' & c' & tl & tr & Hn' & _ & Hr' & _ & Hsr & _).
    destruct (node_at_inj _ _ _ _ _ _ _ _ _ _ Hn Hn') as (<- & <- & -> & ->).
    assert (aligned x) as Hxa by (apply (repr_aligned _ _ _ _ _ Hr Hx)).
    destruct (repr_root_node_at _ _ _ _ Hr' Hxa Hrn) as (l1 & r1 & Hn1 & Hin).
    split; [by apply Hsr | eauto].
  - intros x q c l r Hx Hn Hlr.
    destruct (repr_node_at _ _ _ _ _ Hr H0 Hx)
      as (q' & c' & tl & tr & Hn' & Hl' & Hr' & _ & _ & Hnd').
    destruct (node_at_inj _ _ _ _ _ _ _ _ _ _ Hn Hn') as (<- & <- & -> & ->).
    specialize (Hnd' Hnd).
    destruct tl as [| ? b ? ?]; [done |]. exfalso.
    destruct tr as [| ? b' ? ?]; simpl in Hlr.
    + destruct Hl' as (_ & ? & _). done.
    + subst b'. apply NoDup_app in Hnd' as (_ & Hdisj & _).
      apply (Hdisj b); simpl; set_solver.
  - intros x q c l r Hx Hn Hq.
    destruct (Z.eq_dec x (ph_root_node root)) as [-> | Hne].
    + exfalso. assert (ph_root_node root ≠ NULL) as Hr0 by (apply (repr_not_null _ _ _ _ _ Hr Hx)).
      destruct (repr_root_node_at _ _ _ _ Hr H0 Hr0) as (l' & r' & Hn' & _).
      destruct (node_at_inj _ _ _ _ _ _ _ _ _ _ Hn Hn') as (-> & _). done.
    + destruct (depth_in_parent _ _ _ _ _ _ _ _ _ Hr Hnd H0 Hx Hne Hn) as (Hqin & _).
      split; [done |].
      destruct (repr_parent_child _ _ _ _ _ Hr H0 Hx Hne)
        as (q' & nq & Hq' & _ & _ & Hnq & Hch).
      destruct Hn as [Hqa Hn]. unfold ph_parent in Hq'. rewrite Hn in Hq'. simpl in Hq'.
      rewrite parent_packed in Hq' by done. injection Hq' as <-.
      destruct (repr_node_at _ _ _ _ _ Hr H0 Hqin) as (q2 & c2 & tl & tr & Hn2 & _).
      exists q2, c2, (root_of tl), (root_of tr). split; [done |].
      destruct Hn2 as [_ Hn2]. rewrite Hnq in Hn2. injection Hn2 as ->. simpl in Hch.
      destruct Hch; auto.
  - intros x c l r Hx Hn.
    destruct (Z.eq_dec x (ph_root_node root)) as [-> | Hne]; [done |]. exfalso.
    destruct (repr_parent_child _ _ _ _ _ Hr H0 Hx Hne) as (q' & nq & Hq' & Hq0 & _).
    destruct Hn as [Hqa Hn]. unfold ph_parent in Hq'. rewrite Hn in Hq'. simpl in Hq'.
    rewrite parent_packed in Hq' by done. injection Hq' as <-. done.
  - intros x q c l r Hx Hn Hq.
    destruct (Z.eq_dec x (ph_root_node root)) as [-> | Hne].
    + exfalso. assert (ph_root_node root ≠ NULL) as Hr0 by (apply (repr_not_null _ _ _ _ _ Hr Hx)).
      destruct (repr_root_node_at _ _ _ _ Hr H0 Hr0) as (l' & r' & Hn' & _).
      destruct (node_at_inj _ _ _ _ _ _ _ _ _ _ Hn Hn') as (-> & _). done.
    + by destruct (depth_in_parent _ _ _ _ _ _ _ _ _ Hr Hnd H0 Hx Hne Hn).
Qed.

Lemma leaf_linked_cases node t0 t :
  leaf_linked node t0 t →
  (t0 = Leaf ∧ t = Node Leaf node Red Leaf) ∨
  (t0 ≠ Leaf ∧ root_of t = root_of t0 ∧ color_of t = color_of t0).
Proof. destruct 1; [by left | by right | by right]. Qed.

Lemma leaf_linked_node_at node t0 t m p x0 :
  leaf_linked node t0 t → repr m p t x0 → aligned p →
  node ∈ inorder t ∧ ∃ q, node_at m node q Red NULL NULL.
Proof.
  intros Hll. revert p x0.
  induction Hll as [| l l' a c r Hll IH | l a c r r' Hll IH]; intros p x0 Hr Hp.
  - destruct (repr_node _ _ _ _ _ _ _ Hp Hr) as (Hn & _). simpl in *.
    split; [set_solver | eauto].
  - destruct (repr_node _ _ _ _ _ _ _ Hp Hr) as (_ & Hl & _).
    assert (aligned a) as Ha by (by destruct Hr as (_ & _ & ? & _)).
    destruct (IH _ _ Hl Ha) as (Hin & Hn). split; [| done]. simpl. set_solver.
  - destruct (repr_node _ _ _ _ _ _ _ Hp Hr) as (_ & _ & Hrr).
    assert (aligned a) as Ha by (by destruct Hr as (_ & _ & ? & _)).
    destruct (IH _ _ Hrr Ha) as (Hin & Hn). split; [| done]. simpl. set_solver.
Qed.

(** Below the root of a tree without RED-RED pairs no RED node has a RED
    parent. *)
Lemma no_red_red_store t m p x0 x q l r q' l' r' :
  no_red_red t → repr m p t x0 → aligned p →
  x ∈ inorder t → x ≠ x0 →
  node_at m x q Red l r → node_at m q q' Red l' r' → False.
Proof.
  revert p x0. induction t as [| tl IHl a c tr IHr]; intros p x0 Hnrr Hr Hp Hx Hxx Hn Hq.
  - by apply elem_of_nil in Hx.
  - destruct (repr_node _ _ _ _ _ _ _ Hp Hr) as (Hna & Hl & Hrr).
    assert (aligned a) as Ha by (by destruct Hr as (_ & _ & ? & _)).
    assert (x0 = a) as -> by (by destruct Hr).
    destruct Hnrr as (Hc & Hnl & Hnr).
    simpl in Hx. rewrite elem_of_app, elem_of_cons in Hx.
    destruct Hx as [Hx | [-> | Hx]]; [| done |].
    + destruct (Z.eq_dec x (root_of tl)) as [-> | Hne]; [| by eapply IHl].
      assert (root_of tl ≠ NULL) as Hl0 by (apply (repr_not_null _ _ _ _ _ Hl Hx)).
      destruct (repr_root_node_at _ _ _ _ Hl Ha Hl0) as (l1 & r1 & Hn1 & _).
      destruct (node_at_inj _ _ _ _ _ _ _ _ _ _ Hn Hn1) as (-> & Hcol & _).
      destruct (node_at_inj _ _ _ _ _ _ _ _ _ _ Hq Hna) as (_ & <- & _).
      destruct Hc as [Hcl _]; [done |]. congruence.
    + destruct (Z.eq_dec x (root_of tr)) as [-> | Hne]; [| by eapply IHr].
      assert (root_of tr ≠ NULL) as Hr0 by (apply (repr_not_null _ _ _ _ _ Hrr Hx)).
      destruct (repr_root_node_at _ _ _ _ Hrr Ha Hr0) as (l1 & r1 & Hn1 & _).
      destruct (node_at_inj _ _ _ _ _ _ _ _ _ _ Hn Hn1) as (-> & Hcol & _).
      destruct (node_at_inj _ _ _ _ _ _ _ _ _ _ Hq Hna) as (_ & <- & _).
      destruct Hc as [_ Hcr]; [done |]. congruence.
Qed.

(** After a RED leaf is linked into such a tree, the leaf is the only RED
    node that may have a RED parent. *)
Lemma leaf_linked_red_red node t0 t m p x0 x q l r q' l' r' :
  leaf_linked node t0 t → no_red_red t0 → repr m p t x0 → aligned p →
  x ∈ inorder t → x ≠ x0 →
  node_at m x q Red l r → node_at m q q' Red l' r' → x = node.
Proof.
  intros Hll. revert p x0.
  induction Hll as [| tl tl' a c tr Hll IH | tl a c tr tr' Hll IH];
    intros p x0 Hnrr Hr Hp Hx Hxx Hn Hq.
  - simpl in Hx. set_solver.
  - destruct (repr_node _ _ _ _ _ _ _ Hp Hr) as (Hna & Hl & Hrr).
    assert (aligned a) as Ha by (by destruct Hr as (_ & _ & ? & _)).
    assert (x0 = a) as -> by (by destruct Hr).
    destruct Hnrr as (Hc & Hnl & Hnr).
    simpl in Hx. rewrite elem_of_app, elem_of_cons in Hx.
    destruct Hx as [Hx | [-> | Hx]]; [| done |].
    + destruct (Z.eq_dec x (root_of tl')) as [-> | Hne]; [| by eapply IH].
      assert (root_of tl' ≠ NULL) as Hl0 by (apply (repr_not_null _ _ _ _ _ Hl Hx)).
      destruct (repr_root_node_at _ _ _ _ Hl Ha Hl0) as (l1 & r1 & Hn1 & _).
      destruct (node_at_inj _ _ _ _ _ _ _ _ _ _ Hn Hn1) as (-> & Hcol & _).
      destruct (node_at_inj _ _ _ _ _ _ _ _ _ _ Hq Hna) as (_ & <- & _).
      destruct (leaf_linked_cases _ _ _ Hll) as [[-> ->] | (_ & _ & Hceq)]; [done |].
      destruct Hc as [Hcl _]; [done |]. congruence.
    + exfalso.
      destruct (Z.eq_dec x (root_of tr)) as [-> | Hne];
        [| by eapply (no_red_red_store tr)].
      assert (root_of tr ≠ NULL) as Hr0 by (apply (repr_not_null _ _ _ _ _ Hrr Hx)).
      destruct (repr_root_node_at _ _ _ _ Hrr Ha Hr0) as (l1 & r1 & Hn1 & _).
      destruct (node_at_inj _ _ _ _ _ _ _ _ _ _ Hn Hn1) as (-> & Hcol & _).
      destruct (node_at_inj _ _ _ _ _ _ _ _ _ _ Hq Hna) as (_ & <- & _).
      destruct Hc as [_ Hcr]; [done |]. congruence.
  - destruct (repr_node _ _ _ _ _ _ _ Hp Hr) as (Hna & Hl & Hrr).
    assert (aligned a) as Ha by (by destruct Hr as (_ & _ & ? & _)).
    assert (x0 = a) as -> by (by destruct Hr).
    destruct Hnrr as (Hc & Hnl & Hnr).
    simpl in Hx. rewrite elem_of_app, elem_of_cons in Hx.
    destruct Hx as [Hx | [-> | Hx]]; [| done |].
    + exfalso.
      destruct (Z.eq_dec x (root_of tl)) as [-> | Hne];
        [| by eapply (no_red_red_store tl)].
      assert (root_of tl ≠ NULL) as Hl0 by (apply (repr_not_null _ _ _ _ _ Hl Hx)).
      destruct (repr_root_node_at _ _ _ _ Hl Ha Hl0) as (l1 & r1 & Hn1 & _).
      destruct (node_at_inj _ _ _ _ _ _ _ _ _ _ Hn Hn1) as (-> & Hcol & _).
      destruct (node_at_inj _ _ _ _ _ _ _ _ _ _ Hq Hna) as (_ & <- & _).
      destruct Hc as [Hcl _]; [done |]. congruence.
    + destruct (Z.eq_dec x (root_of tr')) as [-> | Hne]; [| by eapply IH].
      assert (root_of tr' ≠ NULL) as Hr0 by (apply (repr_not_null _ _ _ _ _ Hrr Hx)).
      destruct (repr_root_node_at _ _ _ _ Hrr Ha Hr0) as (l1 & r1 & Hn1 & _).
      destruct (node_at_inj _ _ _ _ _ _ _ _ _ _ Hn Hn1) as (-> & Hcol & _).
      destruct (node_at_inj _ _ _ _ _ _ _ _ _ _ Hq Hna) as (_ & <- & _).
      destruct (leaf_linked_cases _ _ _ Hll) as [[-> ->] | (_ & _ & Hceq)]; [done |].
      destruct Hc as [_ Hcr]; [done |]. congruence.
Qed.

(** A tree that satisfied (a) and (b) before a RED leaf was linked into it
    is in the state the loop of [__ph_insert] expects. *)
Lemma linked_fixup_inv m root calls t0 t node :
  linked m root t → leaf_linked node t0 t → root_black t0 → no_red_red t0 →
  fixup_inv (mk_state m root calls) (λ x, x ∈ inorder t) (depth_in t) node.
Proof.
  intros Hlk Hll Hrb Hnrr. pose proof Hlk as [Hr Hnd]. pose proof aligned_0 as H0.
  pose proof (linked_shape _ _ _ Hlk) as Hsh.
  destruct (leaf_linked_node_at _ _ _ _ _ _ Hll Hr H0) as (Hin & q & Hn).
  split; cbn [st_store st_root]; auto.
  - eauto.
  - intros x qx l r q' l' r' Hx Hq0 Hnx Hnq.
    eapply (leaf_linked_red_red node t0 t); eauto.
    intros ->.
    assert (ph_root_node root ≠ NULL) as Hr0 by (apply (repr_not_null _ _ _ _ _ Hr Hx)).
    destruct (repr_root_node_at _ _ _ _ Hr H0 Hr0) as (l1 & r1 & Hn1 & _).
    destruct (node_at_inj _ _ _ _ _ _ _ _ _ _ Hnx Hn1) as (-> & _). done.
  - intros x c l r Hx Hnx Hne.
    pose proof (sh_root _ _ _ _ Hsh _ _ _ _ Hx Hnx) as Hroot.
    assert (x ≠ NULL) as Hx0 by (apply (repr_not_null _ _ _ _ _ Hr Hx)).
    rewrite Hroot in Hr.
    destruct (repr_root_node_at _ _ _ _ Hr H0 Hx0) as (l1 & r1 & Hn1 & _).
    destruct (node_at_inj _ _ _ _ _ _ _ _ _ _ Hnx Hn1) as (_ & -> & _).
    destruct (leaf_linked_cases _ _ _ Hll) as [[-> ->] | (_ & _ & Hceq)].
    + simpl in Hx. set_solver.
    + by rewrite Hceq.
Qed.

(** C4: on every tree that satisfied the red-black invariants before [node]
    was linked into it as a RED leaf, [__ph_insert] does what the case
    analysis of the specification does (no parent: the node turns BLACK and
    the loop ends; BLACK parent: the loop ends with nothing changed; RED
    parent and RED uncle: parent and uncle turn BLACK, the grandparent RED,
    and the loop goes on at the grandparent; RED parent and no RED uncle: at
    most one rotation at the parent, then one at the grandparent, whose place
    is taken by a BLACK node with the former grandparent RED under it, and
    the loop ends), and it comes to an end. *)
Theorem __ph_insert_case_analysis (s : ph_state) (t0 t : tree) (node : Z)
    (cb : callback) (fuel : nat) :
  is_rb t0 → leaf_linked node t0 t → linked (st_store s) (st_root s) t →
  __ph_insert fuel node cb s = spec_insert_fixup fuel cb node s ∧
  ((height t ≤ fuel)%nat → ∃ s', __ph_insert fuel node cb s = Some (tt, s')).
Proof.
  intros (Hrb & Hnrr & _) Hll Hlk. destruct s as [m root calls]. simpl in Hlk.
  pose proof (linked_fixup_inv m root calls _ _ _ Hlk Hll Hrb Hnrr) as Hinv.
  destruct (fi_red _ _ _ _ Hinv) as (q & l & r & Hn). simpl in Hn.
  destruct (insert_loop_refines fuel cb _ _ _ _ _ _ _ Hinv Hn) as [Heq Hterm].
  assert (__ph_insert fuel node cb (mk_state m root calls) =
          __ph_insert_loop fuel cb node q (mk_state m root calls)) as Hstart.
  { unfold __ph_insert. destruct Hn as [Hqa Hn]. run. done. }
  rewrite Hstart. split; [done |].
  intros Hfuel. rewrite Heq. apply Hterm.
  pose proof (depth_in_lt_height t node (fi_node _ _ _ _ Hinv)). lia.
Qed.

(** ** Replacement *)

Lemma insert_as_alter (m : store) x (f : ph_node → ph_node) n :
  m !! x = Some n → <[x := f n]> m = alter f x m.
Proof.
  intros Hn. apply map_eq. intros k. rewrite lookup_insert, lookup_alter.
  destruct (decide (x = k)) as [<- |]; [by rewrite Hn | done].
Qed.

Lemma bind_set_parent_if {B} c p (k : unit → M B) m root calls :
  (c ≠ 0 → is_Some (m !! c)) →
  bind (if nonnull c then ph_set_parent c p else ret tt) k (mk_state m root calls) =
  k tt (mk_state (store_set_parent c p m) root calls).
Proof.
  intros Hc. unfold store_set_parent.
  destruct (Z.eq_dec c 0) as [-> | Hne]; [done |].
  rewrite nonnull_true by done. destruct (Hc Hne) as [n Hn].
  unfold ph_set_parent. run.
  by rewrite <- (insert_as_alter m c (set_parent_of p) n).
Qed.

Lemma run_change_child old new parent m root calls :
  (parent ≠ 0 → is_Some (m !! parent)) →
  __ph_change_child old new parent (mk_state m root calls) =
  Some (tt, mk_state (store_change_child old new parent m)
                     (if nonnull parent then root else mk_ph_root new) calls).
Proof.
  intros Hp. unfold store_change_child, __ph_change_child.
  destruct (Z.eq_dec parent 0) as [-> | Hne]; [done |].
  rewrite nonnull_true by done. destruct (Hp Hne) as [n Hn].
  rewrite <- (insert_as_alter m parent (change_child_of old new) n) by done.
  unfold change_child_of. run.
  destruct (ph_left n =? old); by run.
Qed.

Lemma lookup_store_set_parent_ne c p m a :
  (c ≠ 0 → a ≠ c) → store_set_parent c p m !! a = m !! a.
Proof.
  intros Hne. unfold store_set_parent.
  destruct (Z.eq_dec c 0) as [-> | Hc]; [done |].
  rewrite nonnull_true by done. rewrite lookup_alter_ne; [done |].
  intros ->. by apply Hne.
Qed.

Lemma lookup_store_set_parent_eq c p m :
  c ≠ 0 → store_set_parent c p m !! c = set_parent_of p <$> m !! c.
Proof.
  intros Hc. unfold store_set_parent. rewrite nonnull_true by done.
  apply lookup_alter_eq.
Qed.

Lemma lookup_store_change_child_ne old new q m a :
  (q ≠ 0 → a ≠ q) → store_change_child old new q m !! a = m !! a.
Proof.
  intros Hne. unfold store_change_child.
  destruct (Z.eq_dec q 0) as [-> | Hq]; [done |].
  rewrite nonnull_true by done. rewrite lookup_alter_ne; [done |].
  intros ->. by apply Hne.
Qed.

Lemma lookup_store_change_child_eq old new q m :
  q ≠ 0 → store_change_child old new q m !! q = change_child_of old new <$> m !! q.
Proof.
  intros Hq. unfold store_change_child. rewrite nonnull_true by done.
  apply lookup_alter_eq.
Qed.

(** [ph_replace_node] as one update of the store. *)
Lemma run_replace_node victim new m root calls nv nn :
  m !! victim = Some nv → m !! new = Some nn → new ≠ victim →
  let q := __ph_parent (__ph_parent_color nv) in
  (ph_left nv ≠ 0 →
     ph_left nv ≠ new ∧ ph_left nv ≠ victim ∧ is_Some (m !! ph_left nv)) →
  (ph_right nv ≠ 0 →
     ph_right nv ≠ new ∧ ph_right nv ≠ victim ∧ ph_right nv ≠ ph_left nv ∧
     is_Some (m !! ph_right nv)) →
  (q ≠ 0 → q ≠ new ∧ q ≠ ph_left nv ∧ q ≠ ph_right nv ∧ is_Some (m !! q)) →
  ph_replace_node victim new (mk_state m root calls) =
  Some (tt, mk_state
              (store_change_child victim new q
                 (store_set_parent (ph_right nv) new
                    (store_set_parent (ph_left nv) new (<[new := nv]> m))))
              (if nonnull q then root else mk_ph_root new) calls).
Proof.
  intros Hv Hn Hnv q Hl Hr Hq. unfold ph_replace_node.
  erewrite bind_rd by (unfold ph_parent; rewrite Hv; reflexivity).
  erewrite bind_load by exact Hv.
  erewrite (bind_run _ _ _ _ _ (run_store_node new nv m root calls nn Hn)).
  erewrite bind_get_left by (rewrite lookup_insert_ne by done; exact Hv).
  rewrite bind_set_parent_if.
  2:{ intros H0. destruct (Hl H0) as (? & ? & [n ?]). exists n.
      by rewrite lookup_insert_ne. }
  erewrite bind_get_right.
  2:{ rewrite lookup_store_set_parent_ne by (intros H0; destruct (Hl H0) as (? & ? & _); done).
      rewrite lookup_insert_ne by done. exact Hv. }
  rewrite bind_set_parent_if.
  2:{ intros H0. destruct (Hr H0) as (? & ? & ? & [n ?]). exists n.
      rewrite lookup_store_set_parent_ne by done. by rewrite lookup_insert_ne. }
  apply run_change_child.
  intros H0. destruct (Hq H0) as (? & ? & ? & [n Hqn]). fold q. exists n.
  rewrite !lookup_store_set_parent_ne by done. by rewrite lookup_insert_ne.
Qed.

Lemma rename_addr_ne old new a : a ≠ old → rename_addr old new a = a.
Proof. intros H. unfold rename_addr. by destruct (Z.eqb_spec a old). Qed.

Lemma rename_addr_eq old new : rename_addr old new old = new.
Proof. unfold rename_addr. by rewrite Z.eqb_refl. Qed.

Lemma inorder_rename old new t :
  inorder (rename old new t) = rename_addr old new <$> inorder t.
Proof.
  induction t as [| l IHl a c r IHr]; simpl; [done |].
  by rewrite fmap_app, fmap_cons, IHl, IHr.
Qed.

Lemma repr_intro m p tl a c tr l r :
  node_at m a p c l r → a ≠ NULL → aligned a →
  repr m a tl l → repr m a tr r → repr m p (Node tl a c tr) a.
Proof.
  intros [Hp Hn] Ha Hal Hl Hr. simpl. split_and!; auto.
  eexists. split; [exact Hn |]. simpl. auto.
Qed.

(** A store in which every reference to [old] among the nodes of a tree
    reads [new], and [new] holds what [old] held, lays out the renamed
    tree. *)
Lemma rename_repr m m' old new (T : tree) :
  old ≠ NULL → new ≠ NULL → aligned new →
  (∀ a p c la ra, a ∈ inorder T → a ≠ old → node_at m a p c la ra →
     node_at m' a (rename_addr old new p) c (rename_addr old new la) (rename_addr old new ra)) →
  (∀ p c la ra, node_at m old p c la ra →
     node_at m' new (rename_addr old new p) c (rename_addr old new la) (rename_addr old new ra)) →
  ∀ t p x0, (∀ z, z ∈ inorder t → z ∈ inorder T) → aligned p → repr m p t x0 →
    repr m' (rename_addr old new p) (rename old new t) (rename_addr old new x0).
Proof.
  intros Hold Hnew Hal HA HB.
  induction t as [| tl IHl a c tr IHr]; intros p x0 Hsub Hp Hr.
  - simpl in *. subst x0. by rewrite rename_addr_ne.
  - destruct (repr_node _ _ _ _ _ _ _ Hp Hr) as (Hn & Hl & Hrr).
    assert (x0 = a) as -> by (by destruct Hr).
    assert (aligned a ∧ a ≠ NULL) as [Ha Ha0] by (by destruct Hr as (_ & ? & ? & _)).
    simpl.
    apply (repr_intro _ _ _ _ _ _ (rename_addr old new (root_of tl))
             (rename_addr old new (root_of tr))).
    + destruct (Z.eq_dec a old) as [-> | Hne].
      * rewrite rename_addr_eq. by apply HB.
      * rewrite (rename_addr_ne _ _ a) by done. apply HA; [| done | exact Hn].
        apply Hsub. simpl. set_solver.
    + unfold rename_addr. by destruct (a =? old).
    + unfold rename_addr. by destruct (a =? old).
    + apply IHl; [| done | done]. intros z Hz. apply Hsub. simpl. set_solver.
    + apply IHr; [| done | done]. intros z Hz. apply Hsub. simpl. set_solver.
Qed.

Lemma ph_replace_node_linked m root calls t victim new nn :
  linked m root t → victim ∈ inorder t → new ∉ inorder t →
  new ≠ NULL → aligned new → m !! new = Some nn →
  ∃ q c l r,
    node_at m victim q c l r ∧
    let nv := mk_ph_node (Z.lor q (color_bit c)) r l in
    let m' := store_change_child victim new q
                (store_set_parent r new (store_set_parent l new (<[new := nv]> m))) in
    let root' := if nonnull q then root else mk_ph_root new in
    ph_replace_node victim new (mk_state m root calls) = Some (tt, mk_state m' root' calls) ∧
    m' !! new = Some nv ∧
    (l ≠ NULL → ∃ nl, m !! l = Some nl ∧ m' !! l = Some (set_parent_of new nl)) ∧
    (r ≠ NULL → ∃ nr, m !! r = Some nr ∧ m' !! r = Some (set_parent_of new nr)) ∧
    (q ≠ NULL → ∃ nq, m !! q = Some nq ∧ m' !! q = Some (change_child_of victim new nq)) ∧
    (∀ a, a ≠ new → a = NULL ∨ (a ≠ l ∧ a ≠ r ∧ a ≠ q) → m' !! a = m !! a) ∧
    linked m' root' (rename victim new t).
Proof.
  intros Hlk Hv Hnew Hn0 Hnal Hnn.
  pose proof (linked_shape _ _ _ Hlk) as Hsh. pose proof Hlk as [Hr Hnd].
  destruct (sh_node _ _ _ _ Hsh _ Hv) as (Hv0 & Hval & q & c & l & r & Hnv).
  pose proof Hnv as [Hqa Hmv].
  exists q, c, l, r. split; [done |]. intros nv m' root'.
  assert (new ≠ victim) as Hnv' by (intros ->; done).
  (* the three neighbours of the victim *)
  assert (l ≠ 0 → l ∈ inorder t ∧ l ≠ r ∧
            ∃ cl ll rl, node_at m l victim cl ll rl ∧ depth_in t l = S (depth_in t victim)) as Hl.
  { intros H0. destruct (shape_left_child _ _ _ _ _ _ _ _ _ Hsh Hv Hnv H0)
      as (cl & ll & rl & ? & ? & ? & ? & ?). eauto 10. }
  assert (r ≠ 0 → r ∈ inorder t ∧ l ≠ r ∧
            ∃ cr lr rr, node_at m r victim cr lr rr ∧ depth_in t r = S (depth_in t victim)) as Hrc.
  { intros H0. destruct (shape_right_child _ _ _ _ _ _ _ _ _ Hsh Hv Hnv H0)
      as (cl & ll & rl & ? & ? & ? & ? & ?). eauto 10. }
  assert (q ≠ 0 → q ∈ inorder t ∧
            ∃ q' c' l' r', node_at m q q' c' l' r' ∧ (l' = victim ∨ r' = victim) ∧
                           depth_in t victim = S (depth_in t q) ∧ (l' = r' → False)) as Hq.
  { intros H0. destruct (shape_parent_cases _ _ _ _ _ _ _ _ _ Hsh Hv Hnv)
      as [? | (_ & q' & c' & l' & r' & ? & ? & ? & ? & ? & ?)]; [done |]. eauto 10. }
  assert (l ≠ 0 → l ≠ new ∧ l ≠ victim ∧ l ≠ q) as Hl'.
  { intros H0. destruct (Hl H0) as (? & ? & cl & ll & rl & ? & Hd). split_and!.
    - intros ->. done.
    - intros Heq. rewrite Heq in Hd. lia.
    - intros Heq. assert (q ≠ 0) as Hq0 by congruence.
      destruct (Hq Hq0) as (_ & ? & ? & ? & ? & _ & _ & Hd' & _). rewrite Heq in Hd. lia. }
  assert (r ≠ 0 → r ≠ new ∧ r ≠ victim ∧ r ≠ q) as Hr'.
  { intros H0. destruct (Hrc H0) as (? & ? & cl & ll & rl & ? & Hd). split_and!.
    - intros ->. done.
    - intros Heq. rewrite Heq in Hd. lia.
    - intros Heq. assert (q ≠ 0) as Hq0 by congruence.
      destruct (Hq Hq0) as (_ & ? & ? & ? & ? & _ & _ & Hd' & _). rewrite Heq in Hd. lia. }
  assert (q ≠ 0 → q ≠ new ∧ q ≠ victim) as Hq'.
  { intros H0. destruct (Hq H0) as (? & ? & ? & ? & ? & _ & _ & Hd & _). split.
    - intros ->. done.
    - intros Heq. rewrite Heq in Hd. lia. }
  (* the store after the replacement, address by address *)
  assert (m' !! new = Some nv) as Hm'new.
  { unfold m'. rewrite lookup_store_change_child_ne
      by (let Hc := fresh in intros Hc; destruct (Hq' Hc); done).
    rewrite !lookup_store_set_parent_ne
      by (let Hc := fresh in
          intros Hc; first [destruct (Hl' Hc) as (? & _) | destruct (Hr' Hc) as (? & _)]; done).
    apply lookup_insert_eq. }
  assert (∀ a, a ≠ new → (l ≠ 0 → a ≠ l) → (r ≠ 0 → a ≠ r) → (q ≠ 0 → a ≠ q) →
             m' !! a = m !! a) as Hm'other.
  { intros a Ha Hal' Har Haq. unfold m'.
    rewrite lookup_store_change_child_ne by done.
    rewrite !lookup_store_set_parent_ne by done.
    by rewrite lookup_insert_ne. }
  assert (l ≠ 0 → m' !! l = set_parent_of new <$> m !! l) as Hm'l.
  { intros H0. destruct (Hl' H0) as (? & ? & ?). destruct (Hl H0) as (_ & ? & _).
    unfold m'. rewrite lookup_store_change_child_ne by done.
    rewrite lookup_store_set_parent_ne by done.
    rewrite lookup_store_set_parent_eq by done. by rewrite lookup_insert_ne. }
  assert (r ≠ 0 → m' !! r = set_parent_of new <$> m !! r) as Hm'r.
  { intros H0. destruct (Hr' H0) as (? & ? & ?). destruct (Hrc H0) as (_ & ? & _).
    unfold m'. rewrite lookup_store_change_child_ne by done.
    rewrite lookup_store_set_parent_eq by done.
    rewrite lookup_store_set_parent_ne by (intros _; congruence).
    by rewrite lookup_insert_ne. }
  assert (q ≠ 0 → m' !! q = change_child_of victim new <$> m !! q) as Hm'q.
  { intros H0. destruct (Hq' H0) as (? & ?).
    unfold m'. rewrite lookup_store_change_child_eq by done.
    rewrite !lookup_store_set_parent_ne
      by (let Hc := fresh in
          intros Hc; first [destruct (Hl' Hc) as (? & ? & ?) | destruct (Hr' Hc) as (? & ? & ?)];
          congruence).
    by rewrite lookup_insert_ne. }
  split_and!.
  - pose proof (run_replace_node victim new m root calls nv nn Hmv Hnn Hnv') as Hrun.
    cbn [nv __ph_parent_color ph_left ph_right] in Hrun.
    rewrite parent_packed in Hrun by done.
    apply Hrun.
    + intros H0. destruct (Hl' H0) as (? & ? & ?).
      destruct (Hl H0) as (_ & _ & ? & ? & ? & [_ ?] & _). eauto.
    + intros H0. destruct (Hr' H0) as (? & ? & ?).
      destruct (Hrc H0) as (_ & ? & ? & ? & ? & [_ ?] & _). split_and!; eauto.
    + intros H0. destruct (Hq' H0) as (? & ?).
      destruct (Hq H0) as (_ & ? & ? & ? & ? & [_ ?] & _).
      split_and!; eauto.
      * intros Heq. assert (l ≠ 0) as Hl0 by congruence. destruct (Hl' Hl0) as (_ & _ & ?). done.
      * intros Heq. assert (r ≠ 0) as Hr0 by congruence. destruct (Hr' Hr0) as (_ & _ & ?). done.
  - done.
  - intros H0. destruct (Hl H0) as (_ & _ & ? & ? & ? & [_ Hml] & _).
    eexists. split; [exact Hml |]. by rewrite Hm'l, Hml.
  - intros H0. destruct (Hrc H0) as (_ & _ & ? & ? & ? & [_ Hmr] & _).
    eexists. split; [exact Hmr |]. by rewrite Hm'r, Hmr.
  - intros H0. destruct (Hq H0) as (_ & ? & ? & ? & ? & [_ Hmq] & _).
    eexists. split; [exact Hmq |]. by rewrite Hm'q, Hmq.
  - intros a Ha [-> | (? & ? & ?)].
    + apply Hm'other; auto.
    + apply Hm'other; auto.
  - split.
    + (* the renamed tree is laid out *)
      assert (rename_addr victim new NULL = NULL) as Hren0 by (by apply rename_addr_ne).
      assert (ph_root_node root' = rename_addr victim new (ph_root_node root)) as Hroot.
      { unfold root'. destruct (Z.eq_dec q 0) as [-> | Hq0].
        - simpl. rewrite <- (sh_root _ _ _ _ Hsh _ _ _ _ Hv Hnv). by rewrite rename_addr_eq.
        - rewrite nonnull_true by done. rewrite rename_addr_ne; [done |].
          intros Heq. rewrite Heq in Hr.
          destruct (repr_root_node_at _ _ _ _ Hr aligned_0 Hv0) as (? & ? & Hn' & _).
          destruct (node_at_inj _ _ _ _ _ _ _ _ _ _ Hnv Hn') as (? & _). done. }
      rewrite Hroot, <- Hren0.
      apply (rename_repr m m' victim new t); auto using aligned_0.
      * (* a node other than the victim *)
        intros a p ca la ra Ha Hav Hna.
        pose proof (sh_node _ _ _ _ Hsh _ Ha) as (Ha0 & Haal & _).
        assert (a ≠ new) as Han by (intros ->; done).
        destruct (Z.eq_dec a q) as [-> | Haq].
        { (* the parent of the victim *)
          destruct (Hq Ha0) as (_ & q' & c' & l' & r' & Hnq & Hch & Hd & Hsides).
          destruct (node_at_inj _ _ _ _ _ _ _ _ _ _ Hna Hnq) as (-> & -> & -> & ->).
          assert (q' ≠ victim) as Hq'v.
          { intros ->. pose proof (sh_depth _ _ _ _ Hsh _ _ _ _ _ Ha Hnq Hv0). lia. }
          rewrite (rename_addr_ne _ _ q') by done.
          split; [by destruct Hnq |].
          rewrite Hm'q by done. destruct Hnq as [_ ->]. simpl.
          unfold change_child_of. simpl.
          destruct (Z.eqb_spec l' victim) as [-> | Hl'v].
          - rewrite rename_addr_eq, rename_addr_ne; [done |]. intros ->. by apply Hsides.
          - assert (r' = victim) as -> by (by destruct Hch).
            by rewrite rename_addr_eq, rename_addr_ne. }
        destruct (Z.eq_dec a l) as [-> | Hal'].
        { (* the left child of the victim *)
          destruct (Hl Ha0) as (_ & _ & cl & ll & rl & Hnl & Hd).
          destruct (node_at_inj _ _ _ _ _ _ _ _ _ _ Hna Hnl) as (-> & -> & -> & ->).
          rewrite rename_addr_eq.
          assert (ll ≠ victim ∧ rl ≠ victim) as [? ?].
          { split; intros ->.
            - destruct (shape_left_child _ _ _ _ _ _ _ _ _ Hsh Ha Hnl Hv0)
                as (? & ? & ? & _ & _ & Hd' & _). lia.
            - destruct (shape_right_child _ _ _ _ _ _ _ _ _ Hsh Ha Hnl Hv0)
                as (? & ? & ? & _ & _ & Hd' & _). lia. }
          rewrite !rename_addr_ne by done.
          split; [done |]. rewrite Hm'l by done. destruct Hnl as [_ ->]. simpl.
          unfold set_parent_of. simpl. by rewrite color_packed. }
        destruct (Z.eq_dec a r) as [-> | Har].
        { (* the right child of the victim *)
          destruct (Hrc Ha0) as (_ & _ & cl & ll & rl & Hnl & Hd).
          destruct (node_at_inj _ _ _ _ _ _ _ _ _ _ Hna Hnl) as (-> & -> & -> & ->).
          rewrite rename_addr_eq.
          assert (ll ≠ victim ∧ rl ≠ victim) as [? ?].
          { split; intros ->.
            - destruct (shape_left_child _ _ _ _ _ _ _ _ _ Hsh Ha Hnl Hv0)
                as (? & ? & ? & _ & _ & Hd' & _). lia.
            - destruct (shape_right_child _ _ _ _ _ _ _ _ _ Hsh Ha Hnl Hv0)
                as (? & ? & ? & _ & _ & Hd' & _). lia. }
          rewrite !rename_addr_ne by done.
          split; [done |]. rewrite Hm'r by done. destruct Hnl as [_ ->]. simpl.
          unfold set_parent_of. simpl. by rewrite color_packed. }
        (* a node away from the victim *)
        assert (p ≠ victim) as Hpv.
        { intros ->.
          destruct (sh_parent _ _ _ _ Hsh _ _ _ _ _ Ha Hna Hv0) as (_ & ? & ? & ? & ? & Hn' & Hch).
          destruct (node_at_inj _ _ _ _ _ _ _ _ _ _ Hnv Hn') as (_ & _ & <- & <-).
          destruct Hch; congruence. }
        assert (la ≠ victim) as Hlv.
        { intros ->.
          destruct (sh_left _ _ _ _ Hsh _ _ _ _ _ Ha Hna Hv0) as (_ & ? & ? & ? & Hn').
          destruct (node_at_inj _ _ _ _ _ _ _ _ _ _ Hnv Hn') as (? & _). congruence. }
        assert (ra ≠ victim) as Hrv.
        { intros ->.
          destruct (sh_right _ _ _ _ Hsh _ _ _ _ _ Ha Hna Hv0) as (_ & ? & ? & ? & Hn').
          destruct (node_at_inj _ _ _ _ _ _ _ _ _ _ Hnv Hn') as (? & _). congruence. }
        rewrite !rename_addr_ne by done.
        destruct Hna as [? Hma]. split; [done |]. rewrite Hm'other; auto.
      * (* the replacement *)
        intros p cv la ra Hn'.
        destruct (node_at_inj _ _ _ _ _ _ _ _ _ _ Hnv Hn') as (<- & <- & <- & <-).
        assert (q ≠ victim) as Hqv.
        { destruct (Z.eq_dec q 0) as [-> | H0]; [done |]. by destruct (Hq' H0). }
        assert (l ≠ victim) as Hlv.
        { destruct (Z.eq_dec l 0) as [-> | H0]; [done |]. by destruct (Hl' H0) as (? & ? & ?). }
        assert (r ≠ victim) as Hrv.
        { destruct (Z.eq_dec r 0) as [-> | H0]; [done |]. by destruct (Hr' H0) as (? & ? & ?). }
        rewrite !rename_addr_ne by done. split; [done |]. exact Hm'new.
    + rewrite inorder_rename. apply NoDup_fmap_2_strong; [| done].
      intros x y Hx Hy. unfold rename_addr.
      destruct (Z.eqb_spec x victim), (Z.eqb_spec y victim);
        intros Heq; subst; try done; congruence.
Qed.

(** C8: [ph_replace_node] copies the links and the colour of the victim to
    the fresh node, repoints the parent references of the victim's children
    and the child slot of its parent (or the root) to the fresh node, writes
    nothing else and calls nothing; the tree it leaves has the shape, the
    order and the colours of the original, with the fresh node at the
    victim's position. *)
Theorem ph_replace_node_frame (s : ph_state) (t : tree) (victim new : Z) (nn : ph_node) :
  linked (st_store s) (st_root s) t → victim ∈ inorder t → new ∉ inorder t →
  new ≠ NULL → aligned new → st_store s !! new = Some nn →
  ∃ s' nv,
    ph_replace_node victim new s = Some (tt, s') ∧
    st_store s !! victim = Some nv ∧
    st_store s' !! new = Some nv ∧
    (∀ ch, ch = ph_left nv ∨ ch = ph_right nv → ch ≠ NULL →
       ∃ nc, st_store s !! ch = Some nc ∧
             st_store s' !! ch = Some (set_parent_of new nc)) ∧
    (__ph_parent (__ph_parent_color nv) ≠ NULL →
       st_root s' = st_root s ∧
       ∃ nq, st_store s !! __ph_parent (__ph_parent_color nv) = Some nq ∧
             st_store s' !! __ph_parent (__ph_parent_color nv) =
               Some (change_child_of victim new nq)) ∧
    (__ph_parent (__ph_parent_color nv) = NULL → st_root s' = mk_ph_root new) ∧
    (∀ a, a ≠ new →
       a = NULL ∨ (a ≠ ph_left nv ∧ a ≠ ph_right nv ∧
                   a ≠ __ph_parent (__ph_parent_color nv)) →
       st_store s' !! a = st_store s !! a) ∧
    st_calls s' = st_calls s ∧
    linked (st_store s') (st_root s') (rename victim new t) ∧
    inorder (rename victim new t) = rename_addr victim new <$> inorder t.
Proof.
  intros Hlk Hv Hnew Hn0 Hnal Hnn. destruct s as [m root calls]. simpl in *.
  destruct (ph_replace_node_linked m root calls t victim new nn Hlk Hv Hnew Hn0 Hnal Hnn)
    as (q & c & l & r & Hnv & Hrun & Hm'new & Hl & Hr & Hq & Hother & Hlk').
  pose proof Hnv as [Hqa Hmv].
  eexists _, (mk_ph_node (Z.lor q (color_bit c)) r l).
  split; [exact Hrun |]. cbn [st_store st_root st_calls].
  cbn [__ph_parent_color ph_left ph_right]. rewrite parent_packed by done.
  split_and!; auto.
  - intros ch [-> | ->] Hch; auto.
  - intros Hq0. rewrite nonnull_true by done. auto.
  - intros ->. done.
  - apply inorder_rename.
Qed.

(** C10: on a node in the empty state [ph_next] and [ph_prev] return [NULL],
    whatever else the store holds and without any further access to it. *)
Theorem ph_next_prev_empty_node (m : store) (node : Z) (n : ph_node) (fuel : nat) :
  m !! node = Some n → __ph_parent_color n = node →
  PH_EMPTY_NODE m node = Some true ∧
  ph_next fuel m node = Some NULL ∧ ph_prev fuel m node = Some NULL.
Proof.
  intros Hn Hpc.
  assert (PH_EMPTY_NODE m node = Some true) as He.
  { unfold PH_EMPTY_NODE. rewrite Hn. simpl. by rewrite Hpc, Z.eqb_refl. }
  unfold ph_next, ph_prev. by rewrite He.
Qed.

(** [ph_link_node] writes no packed word at all. *)
Lemma insert_keeps_word (M : store) x nx nx' b v :
  M !! x = Some nx → __ph_parent_color nx' = __ph_parent_color nx →
  <[x := nx']> M !! b = Some v →
  ∃ nb, M !! b = Some nb ∧ __ph_parent_color v = __ph_parent_color nb.
Proof.
  intros Hx Hpc Hb. destruct (Z.eq_dec b x) as [-> | Hne].
  - rewrite lookup_insert_eq in Hb. injection Hb as <-. eauto.
  - rewrite lookup_insert_ne in Hb by done. eauto.
Qed.

Lemma ph_link_node_keeps_words node parent link s s' a n' :
  ph_link_node node parent link s = Some (tt, s') →
  st_store s' !! a = Some n' →
  ∃ n, st_store s !! a = Some n ∧ __ph_parent_color n' = __ph_parent_color n.
Proof.
  destruct s as [m root calls]. unfold ph_link_node.
  destruct (m !! node) as [n0 |] eqn:Hn0.
  2:{ unfold set_right, load, rd, bind. simpl. by rewrite Hn0. }
  erewrite bind_set_right by exact Hn0.
  erewrite bind_set_left by apply lookup_insert_eq.
  cbn [__ph_parent_color ph_right ph_left]. rewrite insert_insert_eq.
  set (m1 := <[node := _]> m).
  assert (∀ b nb, m1 !! b = Some nb →
            ∃ n, m !! b = Some n ∧ __ph_parent_color nb = __ph_parent_color n) as H1.
  { intros b nb Hb. unfold m1 in Hb.
    eapply insert_keeps_word; [exact Hn0 | | exact Hb]. reflexivity. }
  destruct link as [| p | p]; simpl.
  - intros [= <-]. simpl. apply H1.
  - destruct (m1 !! p) as [np |] eqn:Hp.
    2:{ unfold set_left, load, rd, bind. simpl. by rewrite Hp. }
    erewrite run_set_left by exact Hp. intros [= <-]. simpl. intros Ha.
    eapply insert_keeps_word in Ha; [| exact Hp | reflexivity].
    destruct Ha as (nb & Hnb & ->). by apply H1.
  - destruct (m1 !! p) as [np |] eqn:Hp.
    2:{ unfold set_right, load, rd, bind. simpl. by rewrite Hp. }
    erewrite run_set_right by exact Hp. intros [= <-]. simpl. intros Ha.
    eapply insert_keeps_word in Ha; [| exact Hp | reflexivity].
    destruct Ha as (nb & Hnb & ->). by apply H1.
Qed.

(** C3, at a node in the empty state that is linked as the right child of a
    BLACK root: [ph_link_node] clears the two child links and fills the slot,
    but the packed word of the node still names the node itself, not the
    parent it was given. *)
Theorem ph_link_node_omits_parent :
  ∃ s',
    ph_link_node 32 16 (link_right 16)
      (empty_tree_state (mk_ph_node (Z.lor NULL ph_BLACK) 0 0) (mk_ph_node 32 48 48)
                        zeroed_node) = Some (tt, s') ∧
    st_store s' !! 32 = Some (mk_ph_node 32 0 0) ∧
    st_store s' !! 16 = Some (mk_ph_node (Z.lor NULL ph_BLACK) 32 0) ∧
    ph_parent (st_store s') 32 = Some 32 ∧
    ph_parent (st_store s') 32 ≠ Some 16 ∧
    PH_EMPTY_NODE (st_store s') 32 = Some true.
Proof. eexists. split; [vm_compute; reflexivity |]. by vm_compute. Qed.

(** C2: the node type as phtree.h declares it has two members, the links
    [ph_right] and [ph_left]; the member [__ph_parent_color] that
    [PH_EMPTY_NODE] reads is not one of them. *)
Theorem ph_node_decl_members :
  ph_node_decl.*1 = ["ph_right"%string; "ph_left"%string] ∧
  member PH_EMPTY_NODE_member ph_node_decl = None.
Proof. split; reflexivity. Qed.

(** ** The theorems at concrete states *)

Lemma three_nodes_linked : linked three_nodes (mk_ph_root 32) three_nodes_tree.
Proof.
  split.
  - simpl. split_and!; try done. eexists. split; [vm_compute; reflexivity |].
    simpl. split_and!; try done.
    + eexists. split; [vm_compute; reflexivity |]. done.
    + eexists. split; [vm_compute; reflexivity |]. done.
  - simpl. repeat (apply NoDup_cons; split; [set_solver |]). apply NoDup_nil_2.
Qed.

Lemma ph_next_prev_enumerate_witness :
  ph_inorder_walk 3 three_nodes (mk_ph_root 32) = Some [16; 32; 48] ∧
  ph_reverse_walk 3 three_nodes (mk_ph_root 32) = Some [48; 32; 16].
Proof.
  destruct (ph_next_prev_enumerate three_nodes (mk_ph_root 32) three_nodes_tree 3)
    as (H1 & H2 & _).
  - exact three_nodes_linked.
  - simpl. lia.
  - split; [exact H1 | exact H2].
Defined.

Lemma ph_postorder_visits_witness :
  ∃ vs, ph_postorder_walk 3 three_nodes (mk_ph_root 32) = Some vs ∧ NoDup vs.
Proof.
  destruct (ph_postorder_visits three_nodes (mk_ph_root 32) three_nodes_tree 3)
    as (vs & H1 & H2 & _).
  - exact three_nodes_linked.
  - simpl. lia.
  - exists vs. split; [exact H1 | exact H2].
Defined.

Lemma ph_replace_node_frame_witness :
  ∃ s', ph_replace_node 32 64 three_nodes_state = Some (tt, s') ∧
        linked (st_store s') (st_root s') (rename 32 64 three_nodes_tree).
Proof.
  destruct (ph_replace_node_frame three_nodes_state three_nodes_tree 32 64 (cleared_node 64))
    as (s' & nv & H1 & _ & _ & _ & _ & _ & _ & _ & H2 & _).
  - exact three_nodes_linked.
  - simpl. set_solver.
  - simpl. set_solver.
  - done.
  - reflexivity.
  - vm_compute. reflexivity.
  - exists s'. split; [exact H1 | exact H2].
Defined.

Lemma ph_next_prev_empty_node_witness :
  ph_next 0 three_nodes 64 = Some NULL ∧ ph_prev 0 three_nodes 64 = Some NULL.
Proof.
  destruct (ph_next_prev_empty_node three_nodes 64 (cleared_node 64) 0) as (_ & H1 & H2).
  - vm_compute. reflexivity.
  - reflexivity.
  - split; [exact H1 | exact H2].
Defined.

Lemma __ph_insert_case_analysis_witness :
  __ph_insert 3 8 record_rotate leaf_linked_state =
    spec_insert_fixup 3 record_rotate 8 leaf_linked_state ∧
  ∃ s', __ph_insert 3 8 record_rotate leaf_linked_state = Some (tt, s').
Proof.
  destruct (__ph_insert_case_analysis leaf_linked_state
              (Node (Node Leaf 16 Red Leaf) 32 Black Leaf)
              (Node (Node (Node Leaf 8 Red Leaf) 16 Red Leaf) 32 Black Leaf)
              8 record_rotate 3) as (H1 & H2).
  - split_and!.
    + reflexivity.
    + simpl. split_and!; done.
    + intros h k Hh Hk. simpl in Hh, Hk. set_solver.
  - apply linked_left, linked_left, linked_here.
  - split.
    + simpl. split_and!; try done. eexists. split; [vm_compute; reflexivity |].
      simpl. split_and!; try done.
      eexists. split; [vm_compute; reflexivity |].
      simpl. split_and!; try done.
      eexists. split; [vm_compute; reflexivity |]. done.
    + simpl. repeat (apply NoDup_cons; split; [set_solver |]). apply NoDup_nil_2.
  - split; [exact H1 |]. apply H2. simpl. lia.
Defined.

(** ** Erase *)

(** ** Black height *)

Lemma bh_in_black_counts t : bh t ∈ black_counts t.
Proof.
  induction t as [| l IHl a c r IHr]; simpl; [set_solver |].
  apply list_elem_of_fmap. exists (bh l). split; [by destruct c; simpl; lia |].
  apply elem_of_app. by left.
Qed.

Lemma black_balanced_iff t : black_balanced t ↔ balanced t.
Proof.
  induction t as [| l IHl a c r IHr].
  - split; [done |]. intros _ h k Hh Hk. simpl in *. set_solver.
  - set (f := λ k : nat, match c with Black => S k | Red => k end).
    assert (Inj (=) (=) f) as Hinj by (intros x y; unfold f; destruct c; lia).
    cbn [black_counts balanced]. fold f. split.
    + intros Hb. split_and!.
      * apply IHl. intros h k Hh Hk. apply (inj f). apply Hb; apply list_elem_of_fmap.
        -- exists h. split; [done |]. apply elem_of_app. by left.
        -- exists k. split; [done |]. apply elem_of_app. by left.
      * apply IHr. intros h k Hh Hk. apply (inj f). apply Hb; apply list_elem_of_fmap.
        -- exists h. split; [done |]. apply elem_of_app. by right.
        -- exists k. split; [done |]. apply elem_of_app. by right.
      * apply (inj f). apply Hb; apply list_elem_of_fmap.
        -- exists (bh l). split; [done |]. apply elem_of_app. left. apply bh_in_black_counts.
        -- exists (bh r). split; [done |]. apply elem_of_app. right. apply bh_in_black_counts.
    + intros (Hl & Hr & Heq) h k Hh Hk.
      apply IHl in Hl. apply IHr in Hr.
      assert (∀ x, x ∈ f <$> (black_counts l ++ black_counts r) → x = f (bh l)) as Hall.
      { intros x Hx. apply list_elem_of_fmap in Hx as (y & -> & Hy). f_equal.
        apply elem_of_app in Hy as [Hy | Hy].
        - apply Hl; [done | apply bh_in_black_counts].
        - rewrite Heq. apply Hr; [done | apply bh_in_black_counts]. }
      by rewrite (Hall h Hh), (Hall k Hk).
Qed.

(** ** Positions *)

Lemma plug_app p1 p2 t : plug (p1 ++ p2) t = plug p2 (plug p1 t).
Proof. revert t. induction p1 as [| f p1 IH]; intros t; simpl; [done | apply IH]. Qed.

Lemma nodes_before_app p1 p2 : nodes_before (p1 ++ p2) = nodes_before p2 ++ nodes_before p1.
Proof.
  induction p1 as [| [a c r | l a c] p1 IH]; simpl.
  - by rewrite app_nil_r.
  - done.
  - by rewrite IH, <- ?app_assoc.
Qed.

Lemma nodes_after_app p1 p2 : nodes_after (p1 ++ p2) = nodes_after p1 ++ nodes_after p2.
Proof.
  induction p1 as [| [a c r | l a c] p1 IH]; simpl.
  - done.
  - by rewrite IH, <- ?app_assoc.
  - done.
Qed.

Lemma inorder_plug above t :
  inorder (plug above t) = nodes_before above ++ inorder t ++ nodes_after above.
Proof.
  revert t. induction above as [| [a c r | l a c] above IH]; intros t; simpl.
  - by rewrite app_nil_r.
  - rewrite IH. simpl. by rewrite <- ?app_assoc.
  - rewrite IH. simpl. rewrite <- ?app_assoc. simpl. by rewrite <- ?app_assoc.
Qed.

Lemma locate_None node t above : node ∉ inorder t → locate node t above = None.
Proof.
  revert above. induction t as [| l IHl a c r IHr]; intros above Hin; [done |].
  simpl in *. rewrite elem_of_app, elem_of_cons in Hin.
  destruct (Z.eqb_spec a node) as [-> | Hne]; [naive_solver |].
  rewrite IHl by naive_solver. apply IHr. naive_solver.
Qed.

Lemma locate_found node t above :
  node ∈ inorder t →
  ∃ above' l c r, locate node t above = Some (above', Node l node c r) ∧
                  plug above' (Node l node c r) = plug above t.
Proof.
  revert above. induction t as [| l IHl a c r IHr]; intros above Hin.
  - by apply elem_of_nil in Hin.
  - simpl. destruct (Z.eqb_spec a node) as [-> | Hne]; [eauto 10 |].
    simpl in Hin. rewrite elem_of_app, elem_of_cons in Hin.
    destruct (decide (node ∈ inorder l)) as [Hl | Hl].
    + destruct (IHl (below_left a c r :: above) Hl) as (ab & l' & c' & r' & -> & Hp). eauto 10.
    + assert (node ∈ inorder r) as Hr by (destruct Hin as [? | [? | ?]]; done).
      destruct (IHr (below_right l a c :: above) Hr) as (ab & l' & c' & r' & Hloc & Hp).
      rewrite (locate_None node l) by done. rewrite Hloc. eauto 10.
Qed.

Lemma leftmost_found t above :
  t ≠ Leaf →
  ∃ down s cs sr, leftmost t above = (down ++ above, Node Leaf s cs sr) ∧
                  plug down (Node Leaf s cs sr) = t ∧ nodes_before down = [].
Proof.
  revert above. induction t as [| l IHl a c r _]; intros above Ht; [done |].
  simpl. destruct l as [| ll la lc lr].
  - exists [], a, c, r. done.
  - destruct (IHl (below_left a c r :: above)) as (down & s & cs & sr & -> & Hp & Hb); [done |].
    exists (down ++ [below_left a c r]), s, cs, sr. split_and!.
    + by rewrite <- app_assoc.
    + rewrite plug_app, Hp. done.
    + rewrite nodes_before_app. simpl. done.
Qed.

(** ** Red-black trees around a position *)

Lemma is_rb_iff t : is_rb t ↔ root_black t ∧ no_red_red t ∧ balanced t.
Proof. unfold is_rb. by rewrite black_balanced_iff. Qed.

Lemma plug_rb above t :
  path_ok above (bh t) → balanced t → no_red_red t →
  (color_above above = Red → color_of t = Black) →
  root_black (plug above t) ∧ no_red_red (plug above t) ∧ balanced (plug above t).
Proof.
  revert t. induction above as [| f above IH]; intros t Hp Hb Hn Hc;
    [split_and!; auto; by apply Hc |].
  destruct f as [a c s | s a c]; cbn [path_ok] in Hp;
    destruct Hp as (Hbs & Hh & Hns & Hcs & Hp); cbn [color_above] in Hc;
    cbn [plug fill]; apply IH; cbn [bh balanced no_red_red color_of].
  - exact Hp.
  - auto.
  - split_and!; auto. intros ->. destruct Hcs; auto.
  - intros Ha. destruct c; [| done]. destruct Hcs as [_ Hcs]; [done |]. congruence.
  - rewrite Hh. exact Hp.
  - auto.
  - split_and!; auto. intros ->. destruct Hcs; auto.
  - intros Ha. destruct c; [| done]. destruct Hcs as [_ Hcs]; [done |]. congruence.
Qed.

Lemma rb_plug above t :
  root_black (plug above t) → no_red_red (plug above t) → balanced (plug above t) →
  path_ok above (bh t) ∧ balanced t ∧ no_red_red t ∧
  (color_above above = Red → color_of t = Black).
Proof.
  revert t. induction above as [| f above IH]; intros t Hr Hn Hb.
  { repeat split; auto. }
  cbn [plug] in Hr, Hn, Hb.
  destruct (IH _ Hr Hn Hb) as (Hp & Hbf & Hnf & Hca).
  destruct f as [a c s | s a c]; cbn [fill bh balanced no_red_red color_of] in *;
    destruct Hbf as (Hb1 & Hb2 & Heq); destruct Hnf as (Hc & Hn1 & Hn2);
    cbn [path_ok color_above].
  - assert (c = Red → color_of s = Black ∧ color_above above = Black) as Hcs.
    { intros ->. split; [by destruct Hc |].
      destruct (color_above above) eqn:E; [| done]. by specialize (Hca eq_refl). }
    split_and!; auto. intros ->. by destruct Hc.
  - assert (c = Red → color_of s = Black ∧ color_above above = Black) as Hcs.
    { intros ->. split; [by destruct Hc |].
      destruct (color_above above) eqn:E; [| done]. by specialize (Hca eq_refl). }
    rewrite <- Heq. split_and!; auto. intros ->. by destruct Hc.
Qed.

Lemma no_red_red_recolor_black t : no_red_red t → no_red_red (recolor Black t).
Proof. destruct t; simpl; [done |]. intros (_ & ? & ?). split_and!; auto. done. Qed.

Lemma inorder_recolor c t : inorder (recolor c t) = inorder t.
Proof. by destruct t. Qed.

Lemma balanced_recolor c t : balanced (recolor c t) ↔ balanced t.
Proof. by destruct t. Qed.

Lemma recolor_same t : color_of t = Black → recolor Black t = t.
Proof. destruct t as [| l a c r]; simpl; [done |]. by intros ->. Qed.

(** The cases of a BLACK sibling, for a deficient left child. *)
Lemma erase_black_sibling_left_ok x p cp sl sa sr rot calls :
  balanced x → no_red_red x →
  balanced (Node sl sa Black sr) → no_red_red (Node sl sa Black sr) →
  bh (Node sl sa Black sr) = S (bh x) →
  ∃ sub up calls',
    erase_black_sibling_left x p cp (Node sl sa Black sr) rot calls = (sub, up, calls') ∧
    balanced sub ∧ no_red_red (recolor Black sub) ∧
    inorder sub = inorder x ++ p :: inorder (Node sl sa Black sr) ∧
    (up = false →
       bh sub = (S (bh x) + if is_black cp then 1 else 0)%nat ∧
       color_of sub = cp ∧ no_red_red sub) ∧
    (up = true →
       bh sub = (bh x + if is_black cp then 1 else 0)%nat ∧ color_of sub = cp).
Proof.
  intros Hbx Hnx (Hbl & Hbr & Heq) (_ & Hnl & Hnr) Hh. simpl in Hh.
  assert (bh sl = bh x) as Hsl by lia.
  unfold erase_black_sibling_left.
  destruct (color_of sr) eqn:Hcr.
  - (* the far nephew is RED *)
    destruct sr as [| srl sra src srr]; [done |]. simpl in Hcr. subst src.
    eexists _, _, _. split; [reflexivity |].
    simpl in *. destruct Hbr as (? & ? & ?). destruct Hnr as (? & ? & ?).
    repeat first [ split | intros _ | intros -> ]; simpl; auto; try lia; try done.
    by rewrite <- ?app_assoc.
  - destruct sl as [| sll sla [|] slr].
    + (* both nephews BLACK: the near one is absent *)
      eexists _, _, _. split; [reflexivity |].
      simpl in *.
      repeat first [ split | intros _ | intros -> ]; simpl; auto; try lia; try done.
    + (* the near nephew is RED *)
      eexists _, _, _. split; [reflexivity |].
      simpl in *. destruct Hbl as (? & ? & ?). destruct Hnl as (? & ? & ?).
      repeat first [ split | intros _ | intros -> ]; simpl; auto; try lia; try done.
      by rewrite <- ?app_assoc.
    + (* both nephews BLACK *)
      eexists _, _, _. split; [reflexivity |].
      simpl in *. destruct Hbl as (? & ? & ?). destruct Hnl as (? & ? & ?).
      repeat first [ split | intros _ | intros -> ]; simpl; auto; try lia; try done.
Qed.

(** The mirror image, for a deficient right child. *)
Lemma erase_black_sibling_right_ok x p cp sl sa sr rot calls :
  balanced x → no_red_red x →
  balanced (Node sl sa Black sr) → no_red_red (Node sl sa Black sr) →
  bh (Node sl sa Black sr) = S (bh x) →
  ∃ sub up calls',
    erase_black_sibling_right (Node sl sa Black sr) p cp x rot calls = (sub, up, calls') ∧
    balanced sub ∧ no_red_red (recolor Black sub) ∧
    inorder sub = inorder (Node sl sa Black sr) ++ p :: inorder x ∧
    (up = false →
       bh sub = (S (bh x) + if is_black cp then 1 else 0)%nat ∧
       color_of sub = cp ∧ no_red_red sub) ∧
    (up = true →
       bh sub = (bh x + if is_black cp then 1 else 0)%nat ∧ color_of sub = cp).
Proof.
  intros Hbx Hnx (Hbl & Hbr & Heq) (_ & Hnl & Hnr) Hh. simpl in Hh.
  assert (bh sl = bh x) as Hsl by lia.
  assert (bh sr = bh x) as Hsr by lia.
  unfold erase_black_sibling_right.
  destruct (color_of sl) eqn:Hcl.
  - (* the far nephew is RED *)
    destruct sl as [| sll sla slc slr]; [done |]. simpl in Hcl. subst slc.
    eexists _, _, _. split; [reflexivity |].
    simpl in *. destruct Hbl as (? & ? & ?). destruct Hnl as (? & ? & ?).
    repeat first [ split | intros _ | intros -> ]; simpl; auto; try lia; try done.
    by rewrite <- ?app_assoc.
  - destruct sr as [| srl sra [|] srr].
    + (* both nephews BLACK: the near one is absent *)
      eexists _, _, _. split; [reflexivity |].
      simpl in *.
      repeat first [ split | intros _ | intros -> ]; simpl; auto; try lia; try done.
    + (* the near nephew is RED *)
      eexists _, _, _. split; [reflexivity |].
      simpl in *. destruct Hbr as (? & ? & ?). destruct Hnr as (? & ? & ?).
      repeat first [ split | intros _ | intros -> ]; simpl; auto; try lia; try done.
      rewrite <- ?app_assoc. simpl. by rewrite <- ?app_assoc.
    + (* both nephews BLACK *)
      eexists _, _, _. split; [reflexivity |].
      simpl in *. destruct Hbr as (? & ? & ?). destruct Hnr as (? & ? & ?).
      repeat first [ split | intros _ | intros -> ]; simpl; auto; try lia; try done.
Qed.

Lemma bh_recolor_black t : color_of t = Red → bh (recolor Black t) = S (bh t).
Proof. destruct t as [| l a c r]; simpl; [done |]. intros ->. simpl. lia. Qed.

Lemma black_sibling_shape s h :
  bh s = S h → color_of s = Black → ∃ sl sa sr, s = Node sl sa Black sr.
Proof.
  destruct s as [| sl sa sc sr]; simpl; [lia |]. intros _ ->. eauto.
Qed.

Ltac app_norm :=
  cbn [nodes_before nodes_after inorder fill];
  repeat first [ rewrite <- app_assoc | rewrite <- app_comm_cons ].

(** The erase fixup makes a red-black tree of what is red-black but for one
    BLACK node missing on the paths through the position, and keeps the
    order of the nodes. *)
Lemma erase_fixup_ok rot above :
  ∀ x calls,
    path_ok above (S (bh x)) → balanced x → no_red_red (recolor Black x) →
    let t' := (erase_fixup rot above x calls).1 in
    (root_black t' ∧ no_red_red t' ∧ balanced t') ∧
    inorder t' = inorder (plug above x).
Proof.
  induction above as [| f above IH]; intros x calls Hp Hb Hn; cbn zeta.
  - (* at the root *)
    simpl. destruct (color_of x) eqn:Hc; simpl.
    + rewrite inorder_recolor. split; [| done].
      destruct x; [done |]. simpl in *.
      destruct Hb as (? & ? & ?). destruct Hn as (? & ? & ?).
      split_and!; auto; done.
    + rewrite recolor_same in Hn by done. auto.
  - cbn [erase_fixup]. destruct (color_of x) eqn:Hc.
    { (* a RED node at the deficiency point *)
      cbn [fst]. rewrite !inorder_plug, inorder_recolor. split; [| done].
      apply plug_rb.
      - by rewrite bh_recolor_black.
      - by apply balanced_recolor.
      - done.
      - intros _. by destruct x. }
    rewrite recolor_same in Hn by done.
    destruct f as [p cp s | s p cp]; cbn [path_ok] in Hp;
      destruct Hp as (Hbs & Hh & Hns & Hcs & Hp).
    + (* the deficient node is a left child *)
      destruct s as [| sl sa [|] sr]; [simpl in Hh; lia | |].
      * (* RED sibling *)
        assert (cp = Black) as ->.
        { destruct cp; [| done]. by destruct Hcs as [? _]. }
        simpl in Hh, Hbs, Hns. destruct Hbs as (Hbl & Hbr & Heq).
        destruct Hns as (Hcn & Hnl & Hnr). destruct Hcn as [Hcl Hcr]; [done |].
        destruct (black_sibling_shape sl (bh x)) as (sll & sla & slr & ->); [lia | done |].
        destruct (erase_black_sibling_left_ok x p Red sll sla slr rot (rot p sa calls))
          as (sub & up & calls' & -> & Hbsub & Hnsub & Hio & Hdone & Hup); auto; [lia |].
        cbn [fst]. rewrite !inorder_plug.
        assert (inorder (if up then recolor Black sub else sub) = inorder sub) as Hio'.
        { destruct up; [apply inorder_recolor | done]. }
        cbn [fill inorder]. rewrite Hio', Hio. split; [| by app_norm].
        apply plug_rb.
        -- cbn [bh is_black]. simpl in Hp.
           replace (bh (if up then recolor Black sub else sub)) with (S (bh x)); [exact Hp |].
           destruct up.
           ++ destruct Hup as [Hbh Hcol]; [done |]. rewrite bh_recolor_black by done.
              simpl in Hbh. lia.
           ++ destruct Hdone as [Hbh _]; [done |]. simpl in Hbh. lia.
        -- cbn [balanced]. split_and!; auto.
           ++ destruct up; [by apply balanced_recolor | done].
           ++ destruct up.
              ** destruct Hup as [Hbh Hcol]; [done |]. rewrite bh_recolor_black by done.
                 simpl in Hbh. lia.
              ** destruct Hdone as [Hbh _]; [done |]. simpl in Hbh. lia.
        -- cbn [no_red_red]. split_and!; auto; [done |].
           destruct up; [done |]. by destruct Hdone as (_ & _ & ?).
        -- done.
      * (* BLACK sibling *)
        destruct (erase_black_sibling_left_ok x p cp sl sa sr rot calls)
          as (sub & up & calls' & Hrun & Hbsub & Hnsub & Hio & Hdone & Hup); auto.
        rewrite Hrun. destruct up.
        -- destruct Hup as [Hbh Hcol]; [done |].
           destruct (IH sub calls') as [Hrb Hio']; auto.
           { replace (S (bh sub)) with (S (bh x) + (if is_black cp then 1 else 0))%nat;
               [exact Hp | rewrite Hbh; lia]. }
           split; [exact Hrb |]. rewrite Hio', !inorder_plug, Hio.
           by app_norm.
        -- destruct Hdone as (Hbh & Hcol & Hnsub'); [done |].
           cbn [fst]. rewrite !inorder_plug, Hio.
           split; [| by app_norm]. apply plug_rb; auto.
           ++ by rewrite Hbh.
           ++ intros Ha. rewrite Hcol. destruct cp; [| done].
              destruct Hcs as [_ ?]; [done |]. congruence.
    + (* the deficient node is a right child *)
      destruct s as [| sl sa [|] sr]; [simpl in Hh; lia | |].
      * (* RED sibling *)
        assert (cp = Black) as ->.
        { destruct cp; [| done]. by destruct Hcs as [? _]. }
        simpl in Hh, Hbs, Hns. destruct Hbs as (Hbl & Hbr & Heq).
        destruct Hns as (Hcn & Hnl & Hnr). destruct Hcn as [Hcl Hcr]; [done |].
        destruct (black_sibling_shape sr (bh x)) as (srl & sra & srr & ->); [lia | done |].
        destruct (erase_black_sibling_right_ok x p Red srl sra srr rot (rot p sa calls))
          as (sub & up & calls' & -> & Hbsub & Hnsub & Hio & Hdone & Hup); auto; [lia |].
        cbn [fst]. rewrite !inorder_plug.
        assert (inorder (if up then recolor Black sub else sub) = inorder sub) as Hio'.
        { destruct up; [apply inorder_recolor | done]. }
        cbn [fill inorder]. rewrite Hio', Hio. split; [| by app_norm].
        apply plug_rb.
        -- cbn [bh is_black]. simpl in Hp.
           replace (bh sl) with (S (bh x)) by lia. exact Hp.
        -- cbn [balanced]. split_and!; auto.
           ++ destruct up; [by apply balanced_recolor | done].
           ++ destruct up.
              ** destruct Hup as [Hbh Hcol]; [done |]. rewrite bh_recolor_black by done.
                 simpl in Hbh. lia.
              ** destruct Hdone as [Hbh _]; [done |]. simpl in Hbh. lia.
        -- cbn [no_red_red]. split_and!; auto; [done |].
           destruct up; [done |]. by destruct Hdone as (_ & _ & ?).
        -- done.
      * (* BLACK sibling *)
        destruct (erase_black_sibling_right_ok x p cp sl sa sr rot calls)
          as (sub & up & calls' & Hrun & Hbsub & Hnsub & Hio & Hdone & Hup); auto.
        rewrite Hrun. destruct up.
        -- destruct Hup as [Hbh Hcol]; [done |].
           destruct (IH sub calls') as [Hrb Hio']; auto.
           { replace (S (bh sub)) with (S (bh x) + (if is_black cp then 1 else 0))%nat;
               [exact Hp | rewrite Hbh; lia]. }
           split; [exact Hrb |]. rewrite Hio', !inorder_plug, Hio.
           by app_norm.
        -- destruct Hdone as (Hbh & Hcol & Hnsub'); [done |].
           cbn [fst]. rewrite !inorder_plug, Hio.
           split; [| by app_norm]. apply plug_rb; auto.
           ++ by rewrite Hbh.
           ++ intros Ha. rewrite Hcol. destruct cp; [| done].
              destruct Hcs as [_ ?]; [done |]. congruence.
Qed.

(** The red-black conditions on a path do not look at the nodes' addresses. *)
Lemma color_above_relabel down l a b c above :
  color_above (down ++ below_right l a c :: above) =
  color_above (down ++ below_right l b c :: above).
Proof. by destruct down as [| [] ?]. Qed.

Lemma path_ok_relabel down l a b c above h :
  path_ok (down ++ below_right l a c :: above) h →
  path_ok (down ++ below_right l b c :: above) h.
Proof.
  revert h. induction down as [| f down IH]; intros h; [done |].
  destruct f; cbn [app path_ok]; rewrite (color_above_relabel down l a b c above);
    intros (? & ? & ? & ? & ?); split_and!; auto.
Qed.

(** The node found by [locate] is the one whose successor [succ_in] gives. *)
Lemma locate_None_succ_in node t above k :
  locate node t above = None → succ_in t k node = None.
Proof.
  revert above k. induction t as [| l IHl a c r IHr]; intros above k; [done |].
  simpl. rewrite (Z.eqb_sym node a). destruct (a =? node); [done |].
  destruct (locate node l _) eqn:Hl; [done |].
  intros Hr. rewrite (IHl _ _ Hl). by apply (IHr _ _ Hr).
Qed.

Lemma locate_succ_in node t above above' l c r k :
  locate node t above = Some (above', Node l node c r) → r ≠ Leaf →
  succ_in t k node = Some (first_in r NULL).
Proof.
  revert above k. induction t as [| l0 IHl a c0 r0 IHr]; intros above k; [done |].
  simpl. rewrite (Z.eqb_sym node a). destruct (a =? node).
  - intros [= -> -> -> -> ->] Hr. by destruct r.
  - destruct (locate node l0 _) eqn:Hl.
    + intros [= ->] Hr. by rewrite (IHl _ _ Hl Hr).
    + intros Hloc Hr. rewrite (locate_None_succ_in _ _ _ _ Hl). by apply (IHr _ _ Hloc).
Qed.

Lemma leftmost_first_in t above down s cs sr k :
  leftmost t above = (down, Node Leaf s cs sr) → first_in t k = s.
Proof.
  revert above k. induction t as [| l IHl a c r _]; intros above k; [done |].
  simpl. destruct l as [| ll la lc lr].
  - by intros [= _ -> _ _].
  - intros Hl. by apply (IHl _ _ Hl).
Qed.

(** What is left of a red-black tree when a node with at most one child has
    been spliced out, and what the fixup makes of it. *)
Lemma erase_rebalance_ok rot above x cr calls :
  path_ok above (bh x + if is_black cr then 1 else 0)%nat →
  balanced x → no_red_red x →
  (cr = Red → color_above above = Red → color_of x = Black) →
  let t' := if is_black cr then (erase_fixup rot above x calls).1 else plug above x in
  is_rb t' ∧ inorder t' = inorder (plug above x).
Proof.
  intros Hp Hb Hn Hc. destruct cr; cbn [is_black] in *; cbn zeta.
  - split; [| done]. apply is_rb_iff, plug_rb; auto.
    by replace (bh x + 0)%nat with (bh x) in Hp by lia.
  - destruct (erase_fixup_ok rot above x calls) as [Hrb Hio]; auto.
    + by replace (bh x + 1)%nat with (S (bh x)) in Hp by lia.
    + by apply no_red_red_recolor_black.
    + split; [by apply is_rb_iff | done].
Qed.

Lemma erase_augmented_ok t node augment calls :
  is_rb t → node ∈ inorder t →
  ∃ above l c r e cr,
    locate node t [] = Some (above, Node l node c r) ∧
    t = plug above (Node l node c r) ∧
    __ph_erase_augmented node t augment calls = Some e ∧
    er_rebalance e = is_black cr ∧
    path_ok (er_path e) (bh (er_promoted e) + if is_black cr then 1 else 0)%nat ∧
    balanced (er_promoted e) ∧ no_red_red (er_promoted e) ∧
    (cr = Red → color_above (er_path e) = Red → color_of (er_promoted e) = Black) ∧
    (∃ pre post, inorder t = pre ++ node :: post ∧
                 inorder (plug (er_path e) (er_promoted e)) = pre ++ post) ∧
    (l = Leaf ∨ r = Leaf →
       er_path e = above ∧ er_promoted e = (match l with Leaf => r | _ => l end) ∧
       cr = c ∧ er_calls e = calls) ∧
    (l ≠ Leaf → r ≠ Leaf →
       ∃ down s sr,
         leftmost r [] = (down, Node Leaf s cr sr) ∧
         r = plug down (Node Leaf s cr sr) ∧ nodes_before down = [] ∧
         er_path e = down ++ below_right l s c :: above ∧ er_promoted e = sr ∧
         er_calls e = copy augment node s calls).
Proof.
  intros Hrb Hin. apply is_rb_iff in Hrb as (Hroot & Hnrr & Hbal).
  destruct (locate_found node t [] Hin) as (above & l & c & r & Hloc & Ht).
  simpl in Ht. subst t.
  unfold __ph_erase_augmented. rewrite Hloc.
  destruct l as [| ll la lc lr]; [| destruct r as [| rl ra rc rr]].
  - (* no left child: the right child is promoted *)
    destruct (rb_plug _ _ Hroot Hnrr Hbal) as (Hp & Hb & Hn & Hc).
    cbn [bh balanced no_red_red color_of] in Hp, Hb, Hn, Hc.
    destruct Hb as (_ & Hbr & Heq). destruct Hn as (Hcc & _ & Hnr).
    exists above, Leaf, c, r.
    eexists (mk_erase_state above r (is_black c) calls), c.
    cbn [er_path er_promoted er_rebalance er_calls].
    assert (bh r = O) as Hr0 by (simpl in Heq; lia).
    split_and!; auto.
    + by rewrite Hr0.
    + intros -> Ha. by destruct Hcc.
    + exists (nodes_before above), (inorder r ++ nodes_after above).
      rewrite !inorder_plug. split; by app_norm.
    + done.
  - (* no right child: the left child is promoted *)
    destruct (rb_plug _ _ Hroot Hnrr Hbal) as (Hp & Hb & Hn & Hc).
    set (l := Node ll la lc lr) in *.
    cbn [bh balanced no_red_red color_of] in Hp, Hb, Hn, Hc.
    destruct Hb as (Hbl & _ & Heq). destruct Hn as (Hcc & Hnl & _).
    exists above, l, c, Leaf.
    eexists (mk_erase_state above l (is_black c) calls), c.
    cbn [er_path er_promoted er_rebalance er_calls].
    split_and!; auto.
    + intros -> Ha. by destruct Hcc.
    + exists (nodes_before above ++ inorder l), (nodes_after above).
      rewrite !inorder_plug. split; by app_norm.
    + done.
  - (* two children: the successor takes the node's place *)
    set (l := Node ll la lc lr) in *. set (r := Node rl ra rc rr) in *.
    destruct (leftmost_found r []) as (down & s & cs & sr & Hlm & Hr & Hnb); [done |].
    rewrite app_nil_r in Hlm.
    rewrite Hlm.
    assert (plug above (Node l node c r) =
            plug (down ++ below_right l node c :: above) (Node Leaf s cs sr)) as Ht.
    { by rewrite plug_app, Hr. }
    rewrite Ht in Hroot, Hnrr, Hbal.
    destruct (rb_plug _ _ Hroot Hnrr Hbal) as (Hp & Hb & Hn & Hc).
    apply (path_ok_relabel _ _ _ s) in Hp.
    rewrite (color_above_relabel _ _ _ s) in Hc.
    cbn [bh balanced no_red_red color_of] in Hp, Hb, Hn, Hc.
    destruct Hb as (_ & Hbr & Heq). destruct Hn as (Hcc & _ & Hnr).
    exists above, l, c, r.
    eexists (mk_erase_state (down ++ below_right l s c :: above) sr (is_black cs)
               (copy augment node s calls)), cs.
    cbn [er_path er_promoted er_rebalance er_calls].
    assert (bh sr = O) as Hr0 by (simpl in Heq; lia).
    split_and!; auto.
    + by rewrite Hr0.
    + intros -> Ha. by destruct Hcc.
    + exists (nodes_before above ++ inorder l),
        (s :: inorder sr ++ nodes_after down ++ nodes_after above).
      assert (inorder r = s :: inorder sr ++ nodes_after down) as Hior.
      { by rewrite <- Hr, inorder_plug, Hnb. }
      rewrite !inorder_plug, nodes_before_app, nodes_after_app, Hnb.
      cbn [inorder nodes_before nodes_after]. rewrite Hior.
      split; app_norm; by rewrite ?app_nil_r.
    + intros [? | ?]; done.
    + intros _ _. exists down, s, sr. by rewrite Hr.
Qed.

(** C5: erasing a linked node [node] of a red-black tree [t].  If the node
    has two children, the node [s] spliced into its position is the leftmost
    node of its right subtree, which is its in-order successor; it takes the
    node's place and colour, its own right subtree is promoted into the
    place it leaves, and the caller's [copy] is called with [node] and [s].
    With at most one child the child, or nothing, is promoted and [copy] is
    not called.  A rebalance is asked for exactly when the node taken out of
    its place was BLACK; if it was RED the tree is red-black as it is, and
    if it was BLACK the erase fixup, walking up from that place by the cases
    of the sibling's colour, makes it red-black again without changing the
    order of the nodes.  [ph_erase] returns a red-black tree with the nodes
    of [t] but [node], in the same order. *)
Theorem ph_erase_splice_and_fixup (t : tree) (node : Z)
    (augment : ph_augment_callbacks) (calls : list aug_call) :
  is_rb t → node ∈ inorder t →
  ∃ above l c r e,
    locate node t [] = Some (above, Node l node c r) ∧
    t = plug above (Node l node c r) ∧
    __ph_erase_augmented node t augment calls = Some e ∧
    (l ≠ Leaf → r ≠ Leaf →
       ∃ down s cs sr,
         leftmost r [] = (down, Node Leaf s cs sr) ∧
         r = plug down (Node Leaf s cs sr) ∧
         succ_in t NULL node = Some s ∧
         plug (er_path e) (er_promoted e) = plug above (Node l s c (plug down sr)) ∧
         er_calls e = copy augment node s calls ∧
         er_rebalance e = is_black cs) ∧
    (l = Leaf ∨ r = Leaf →
       plug (er_path e) (er_promoted e) =
         plug above (match l with Leaf => r | _ => l end) ∧
       er_calls e = calls ∧
       er_rebalance e = is_black c) ∧
    (∃ pre post, inorder t = pre ++ node :: post ∧
                 inorder (plug (er_path e) (er_promoted e)) = pre ++ post) ∧
    (er_rebalance e = false → is_rb (plug (er_path e) (er_promoted e))) ∧
    (er_rebalance e = true →
       let t' := (____ph_erase_color e (rotate augment)).1 in
       is_rb t' ∧ inorder t' = inorder (plug (er_path e) (er_promoted e))) ∧
    ∃ t', ph_erase node t = Some t' ∧ is_rb t' ∧
          ∃ pre post, inorder t = pre ++ node :: post ∧ inorder t' = pre ++ post.
Proof.
  intros Hrb Hin.
  destruct (erase_augmented_ok t node augment calls Hrb Hin)
    as (above & l & c & r & e & cr & Hloc & Ht & He & Hreb & Hp & Hb & Hn & Hc &
        Hio & Hone & Htwo).
  pose proof (erase_rebalance_ok (rotate augment) _ _ cr (er_calls e) Hp Hb Hn Hc) as Hfix.
  cbn zeta in Hfix.
  exists above, l, c, r, e. split_and!; try done.
  - intros Hl Hr.
    destruct (Htwo Hl Hr) as (down & s & sr & Hlm & Hreq & Hnb & Hpath & Hprom & Hcalls).
    exists down, s, cr, sr. split_and!; auto.
    + rewrite (locate_succ_in _ _ _ _ _ _ _ NULL Hloc Hr). f_equal.
      apply (leftmost_first_in _ _ _ _ _ _ NULL Hlm).
    + by rewrite Hpath, Hprom, plug_app.
  - intros Hor. destruct (Hone Hor) as (Hpath & Hprom & Hcr & Hcalls).
    rewrite Hpath, Hprom, Hreb, Hcr. done.
  - rewrite Hreb. destruct cr; [| done]. intros _. apply Hfix.
  - rewrite Hreb. destruct cr; [done |]. intros _. exact Hfix.
  - destruct (erase_augmented_ok t node dummy_callbacks [] Hrb Hin)
      as (above' & l' & c' & r' & e' & cr' & _ & _ & He' & Hreb' & Hp' & Hb' & Hn' &
          Hc' & (pre & post & Hpre & Hpost) & _ & _).
    pose proof (erase_rebalance_ok dummy_rotate _ _ cr' (er_calls e') Hp' Hb' Hn' Hc')
      as [Hfix1 Hfix2].
    unfold ph_erase, ____ph_erase_color. rewrite He', Hreb'.
    destruct (is_black cr'); (eexists; split; [reflexivity |]);
      (split; [exact Hfix1 |]); exists pre, post; (split; [exact Hpre |]);
      by rewrite <- Hpost.
Qed.

Lemma ph_erase_splice_and_fixup_witness :
  __ph_erase_augmented 32 three_black_tree record_callbacks [] =
    Some {| er_path := [below_right (Node Leaf 16 Black Leaf) 48 Black];
            er_promoted := Leaf; er_rebalance := true;
            er_calls := [Copy 32 48] |} ∧
  ph_erase 32 three_black_tree = Some (Node (Node Leaf 16 Red Leaf) 48 Black Leaf) ∧
  ∃ t', ph_erase 32 three_black_tree = Some t' ∧ is_rb t'.
Proof.
  split; [reflexivity |]. split; [reflexivity |].
  destruct (ph_erase_splice_and_fixup three_black_tree 32 record_callbacks [])
    as (above & l & c & r & e & _ & _ & _ & _ & _ & _ & _ & _ & t' & Ht' & Hrb & _).
  - apply is_rb_iff. simpl. split_and!; done.
  - simpl. set_solver.
  - exists t'. by split.
Defined.

(** ** The ends of the order, and single steps *)

Lemma first_in_head t k : first_in t k = default k (head (inorder t)).
Proof.
  revert k. induction t as [| l IHl a c r _]; intros k; simpl; [done |].
  rewrite IHl. by destruct (inorder l).
Qed.

Lemma height_mirror t : height (mirror t) = height t.
Proof. induction t as [| l IHl a c r IHr]; simpl; [done |]. lia. Qed.

Lemma head_reverse {A} (l : list A) : head (reverse l) = last l.
Proof.
  induction l as [| x l IH] using rev_ind; [done |].
  by rewrite reverse_app, last_snoc.
Qed.

Lemma ph_last_linked m root t fuel :
  linked m root t → (height t ≤ fuel)%nat →
  ph_last fuel m root = Some (default NULL (last (inorder t))).
Proof.
  intros Hlk Hf. rewrite ph_last_swap.
  rewrite (ph_first_linked _ _ (mirror t)); [| by apply linked_mirror | by rewrite height_mirror].
  by rewrite first_in_head, inorder_mirror, head_reverse.
Qed.

(** A node has one place in a sequence without repetitions. *)
Lemma NoDup_split_inj (y : Z) l1 l2 l1' l2' :
  NoDup (l1 ++ y :: l2) → l1 ++ y :: l2 = l1' ++ y :: l2' → l1 = l1' ∧ l2 = l2'.
Proof.
  revert l1'. induction l1 as [| x l1 IH]; intros l1' Hnd Heq.
  - destruct l1' as [| x' l1']; simpl in *; [by injection Heq |].
    injection Heq as <- ->. apply NoDup_cons in Hnd as [Hy _]. set_solver.
  - destruct l1' as [| x' l1']; simpl in *.
    + injection Heq as -> <-. apply NoDup_cons in Hnd as [Hy _]. set_solver.
    + injection Heq as <- Heq. apply NoDup_cons in Hnd as [_ Hnd].
      destruct (IH l1' Hnd Heq) as [-> ->]. done.
Qed.

(** [succ_in] names the node that follows in the in-order sequence. *)
Lemma succ_in_follows t k y pre rest :
  NoDup (inorder t) → inorder t = pre ++ y :: rest →
  succ_in t k y = Some (default k (head rest)).
Proof.
  revert k pre rest. induction t as [| l IHl a c r IHr]; intros k pre rest Hnd Heq.
  - by destruct pre.
  - simpl in Hnd, Heq. simpl.
    pose proof Hnd as Hnd0.
    apply NoDup_app in Hnd as (Hndl & Hdisj & Hndr).
    apply NoDup_cons in Hndr as (Har & Hndr).
    destruct (Z.eqb_spec y a) as [-> | Hya].
    + rewrite Heq in Hnd0. symmetry in Heq.
      destruct (NoDup_split_inj _ _ _ _ _ Hnd0 Heq) as [_ ->].
      by rewrite first_in_head.
    + assert (y ∈ inorder l ++ a :: inorder r) as Hy by (rewrite Heq; set_solver).
      rewrite elem_of_app, elem_of_cons in Hy. destruct Hy as [Hy | [-> | Hy]]; [| done |].
      * apply list_elem_of_split in Hy as (p1 & p2 & Hl).
        rewrite Hl, <- app_assoc in Heq. simpl in Heq.
        rewrite Hl, <- app_assoc in Hnd0. simpl in Hnd0.
        destruct (NoDup_split_inj _ _ _ _ _ Hnd0 Heq) as [_ <-].
        rewrite (IHl a p1 p2 Hndl Hl). by destruct p2.
      * rewrite succ_in_None by (intros Hin; apply (Hdisj y Hin); set_solver).
        apply list_elem_of_split in Hy as (p1 & p2 & Hr).
        assert (inorder l ++ a :: inorder r = (inorder l ++ a :: p1) ++ y :: p2) as Heq'.
        { by rewrite Hr, <- app_assoc. }
        rewrite Heq' in Hnd0. rewrite Heq' in Heq.
        destruct (NoDup_split_inj _ _ _ _ _ Hnd0 Heq) as [_ <-].
        by rewrite (IHr k p1 p2 Hndr Hr).
Qed.

Lemma ph_next_linked m root t fuel y :
  linked m root t → (height t ≤ fuel)%nat → y ∈ inorder t →
  ph_next fuel m y = succ_in t NULL y.
Proof.
  intros [Hr Hnd] Hf Hy.
  apply (ph_next_succ_in t m NULL (ph_root_node root) NULL 1 fuel);
    auto using aligned_0; try lia.
  - intros H0. apply (linked_null_free m root t); [by split | done].
  - intros f Hf1. eapply climb_from_right_root; eauto.
    intros H0. rewrite H0 in Hr. apply repr_null in Hr. subst t. by apply elem_of_nil in Hy.
Qed.

Lemma ph_next_follows m root t fuel pre y rest :
  linked m root t → (height t ≤ fuel)%nat → inorder t = pre ++ y :: rest →
  ph_next fuel m y = Some (default NULL (head rest)).
Proof.
  intros Hlk Hf Heq.
  rewrite (ph_next_linked m root t) by (auto; rewrite Heq; set_solver).
  apply (succ_in_follows _ _ _ pre); [apply Hlk | done].
Qed.

Lemma ph_prev_precedes m root t fuel pre y rest :
  linked m root t → (height t ≤ fuel)%nat → inorder t = pre ++ y :: rest →
  ph_prev fuel m y = Some (default NULL (last pre)).
Proof.
  intros Hlk Hf Heq. rewrite ph_prev_swap.
  rewrite (ph_next_follows _ root (mirror t) fuel (reverse rest) y (reverse pre)).
  - by rewrite head_reverse.
  - by apply linked_mirror.
  - by rewrite height_mirror.
  - rewrite inorder_mirror, Heq, reverse_app, reverse_cons, <- app_assoc. done.
Qed.

Lemma sorted_lt (key : Z → Z) l1 l2 a b :
  StronglySorted (λ x y, key x < key y) (l1 ++ l2) → a ∈ l1 → b ∈ l2 → key a < key b.
Proof. intros Hs Ha Hb. exact (StronglySorted_app_1_elem_of _ l1 l2 a b Hs Ha Hb). Qed.

(** [ph_first] and [ph_last] return the two ends of the in-order sequence,
    within a number of steps bounded by the height, and [NULL] for an empty
    tree, which is what [PH_EMPTY_ROOT] tests; under the callers' order no
    linked node ranks below the first or above the last. *)
Theorem ph_first_last_ends (m : store) (root : ph_root) (t : tree) (fuel : nat) :
  linked m root t → (height t ≤ fuel)%nat →
  ph_first fuel m root = Some (default NULL (head (inorder t))) ∧
  ph_last fuel m root = Some (default NULL (last (inorder t))) ∧
  (PH_EMPTY_ROOT root = true ↔ inorder t = []) ∧
  (ph_first fuel m root = Some NULL ↔ inorder t = []) ∧
  (∀ key f z, bst key t → ph_first fuel m root = Some f → ph_last fuel m root = Some z →
     ∀ x, x ∈ inorder t → key f ≤ key x ≤ key z).
Proof.
  intros Hlk Hf.
  pose proof (ph_first_linked m root t fuel Hlk Hf) as Hfirst.
  rewrite first_in_head in Hfirst.
  pose proof (ph_last_linked m root t fuel Hlk Hf) as Hlast.
  pose proof (linked_null_free _ _ _ Hlk) as H0.
  split_and!; [done | done | | |].
  - destruct Hlk as [Hr _]. unfold PH_EMPTY_ROOT. split.
    + intros Hz. apply Z.eqb_eq in Hz. rewrite Hz in Hr. apply repr_null in Hr. by subst t.
    + intros Hnil. destruct t as [| l a c r]; [| simpl in Hnil; destruct (inorder l); done].
      simpl in Hr. by rewrite Hr.
  - rewrite Hfirst. split.
    + intros [= Hd]. destruct (inorder t) as [| a rest]; [done |].
      simpl in Hd. subst a. exfalso. apply H0. set_solver.
    + by intros ->.
  - intros key f z Hbst Hf' Hz' x Hx.
    rewrite Hfirst in Hf'. rewrite Hlast in Hz'. injection Hf' as <-. injection Hz' as <-.
    pose proof (bst_sorted key t Hbst) as Hs.
    apply list_elem_of_split in Hx as (pre & rest & Heq). rewrite Heq in Hs |- *.
    split.
    + destruct pre as [| f pre]; [simpl; lia |]. simpl.
      assert (key f < key x); [| lia].
      apply (sorted_lt key [f] (pre ++ x :: rest)); [done | | ]; set_solver.
    + destruct rest as [| z rest _] using rev_ind.
      * rewrite last_snoc. simpl. lia.
      * rewrite app_comm_cons, app_assoc, last_snoc. simpl.
        assert (key x < key z); [| lia].
        apply (sorted_lt key (pre ++ [x]) (rest ++ [z]));
          [by rewrite <- app_assoc | | ]; set_solver.
Qed.

(** [ph_next] returns the node that follows in the in-order sequence and
    [ph_prev] the one that precedes, [NULL] at the two ends. *)
Theorem ph_next_prev_neighbours (m : store) (root : ph_root) (t : tree) (fuel : nat)
    (pre rest : list Z) (y : Z) :
  linked m root t → (height t ≤ fuel)%nat → inorder t = pre ++ y :: rest →
  ph_next fuel m y = Some (default NULL (head rest)) ∧
  ph_prev fuel m y = Some (default NULL (last pre)).
Proof.
  intros Hlk Hf Heq. split.
  - by apply (ph_next_follows m root t fuel pre).
  - by apply (ph_prev_precedes m root t fuel pre y rest).
Qed.

(** [ph_prev] undoes [ph_next] and [ph_next] undoes [ph_prev] wherever the
    step does not leave the tree, and a step of [ph_next] goes up in the
    callers' order. *)
Theorem ph_next_prev_inverse (m : store) (root : ph_root) (t : tree) (fuel : nat) (x y : Z) :
  linked m root t → (height t ≤ fuel)%nat → x ∈ inorder t → y ≠ NULL →
  (ph_next fuel m x = Some y → 
     y ∈ inorder t ∧ ph_prev fuel m y = Some x ∧ ∀ key, bst key t → key x < key y) ∧
  (ph_prev fuel m x = Some y → 
     y ∈ inorder t ∧ ph_next fuel m y = Some x ∧ ∀ key, bst key t → key y < key x).
Proof.
  intros Hlk Hf Hx Hy.
  apply list_elem_of_split in Hx as (pre & rest & Heq).
  rewrite (ph_next_follows m root t fuel pre x rest Hlk Hf Heq).
  rewrite (ph_prev_precedes m root t fuel pre x rest Hlk Hf Heq).
  split.
  - destruct rest as [| y' rest]; simpl; intros [= <-]; [done |].
    split; [rewrite Heq; set_solver |]. split.
    + rewrite (ph_prev_precedes m root t fuel (pre ++ [x]) y' rest Hlk Hf).
      * by rewrite last_snoc.
      * by rewrite Heq, <- app_assoc.
    + intros key Hbst. pose proof (bst_sorted key t Hbst) as Hs. rewrite Heq in Hs.
      apply (sorted_lt key (pre ++ [x]) (y' :: rest));
        [by rewrite <- app_assoc | | ]; set_solver.
  - destruct pre as [| y' pre] using rev_ind; [simpl; intros [= <-]; done |].
    clear IHpre. rewrite last_snoc. simpl. intros [= <-].
    rewrite <- app_assoc in Heq. simpl in Heq.
    split; [rewrite Heq; set_solver |]. split.
    + by rewrite (ph_next_follows m root t fuel pre y' (x :: rest) Hlk Hf Heq).
    + intros key Hbst. pose proof (bst_sorted key t Hbst) as Hs. rewrite Heq in Hs.
      apply (sorted_lt key (pre ++ [y']) (x :: rest));
        [by rewrite <- app_assoc | | ]; set_solver.
Qed.

Lemma ph_first_last_ends_witness :
  ph_first 2 three_nodes (mk_ph_root 32) = Some 16 ∧
  ph_last 2 three_nodes (mk_ph_root 32) = Some 48.
Proof.
  destruct (ph_first_last_ends three_nodes (mk_ph_root 32) three_nodes_tree 2)
    as (H1 & H2 & _).
  - exact three_nodes_linked.
  - simpl. lia.
  - split; [exact H1 | exact H2].
Defined.

Lemma ph_next_prev_neighbours_witness :
  ph_next 2 three_nodes 48 = Some NULL ∧ ph_prev 2 three_nodes 48 = Some 32.
Proof.
  apply (ph_next_prev_neighbours three_nodes (mk_ph_root 32) three_nodes_tree 2 [16; 32] [] 48).
  - exact three_nodes_linked.
  - simpl. lia.
  - reflexivity.
Defined.

Lemma ph_next_prev_inverse_witness :
  ph_next 2 three_nodes 16 = Some 32 ∧ ph_prev 2 three_nodes 32 = Some 16.
Proof.
  assert (ph_next 2 three_nodes 16 = Some 32) as H by (vm_compute; reflexivity).
  split; [exact H |].
  destruct (ph_next_prev_inverse three_nodes (mk_ph_root 32) three_nodes_tree 2 16 32)
    as [Hn _].
  - exact three_nodes_linked.
  - simpl. lia.
  - simpl. set_solver.
  - done.
  - by destruct (Hn H) as (_ & ? & _).
Defined.

(** ** The callbacks of an insertion *)

Lemma nc_ret {A} (a : A) : no_calls (ret a).
Proof. by intros s b s' [= _ <-]. Qed.

Lemma nc_rd {A} (f : store → option A) : no_calls (rd f).
Proof. intros s a s'. unfold rd. destruct (f (st_store s)); [| done]. by intros [= _ <-]. Qed.

Lemma nc_store_node a n : no_calls (store_node a n).
Proof.
  intros s b s'. unfold store_node. destruct (st_store s !! a); [| done]. by intros [= _ <-].
Qed.

Lemma nc_set_root v : no_calls (set_root v).
Proof. by intros s b s' [= _ <-]. Qed.

Lemma nc_bind {A B} (x : M A) (f : A → M B) :
  no_calls x → (∀ a, no_calls (f a)) → no_calls (bind x f).
Proof.
  intros Hx Hf s b s'. unfold bind. destruct (x s) as [[a s1] |] eqn:Hxs; [| done].
  intros Hfs. rewrite (Hf a _ _ _ Hfs). by apply (Hx _ _ _ Hxs).
Qed.

Ltac nc :=
  repeat first
    [ apply nc_ret | apply nc_rd | apply nc_store_node | apply nc_set_root
    | apply nc_bind; [| intros ?]
    | progress unfold load, get_left, get_right, get_parent_color, set_left, set_right,
        set_parent_color_word, ph_set_parent_color, ph_set_parent, __ph_change_child,
        __ph_rotate_set_parents
    | match goal with |- no_calls (if ?b then _ else _) => destruct b end ].

Lemma apply_calls_app cb rs1 rs2 calls :
  apply_calls cb (rs2 ++ rs1) calls = apply_calls cb rs2 (apply_calls cb rs1 calls).
Proof. unfold apply_calls. by rewrite foldr_app. Qed.

Lemma cam_nc {A} cb n (x : M A) : no_calls x → calls_at_most cb n x.
Proof. intros Hx s a s' Hs. exists []. split; [simpl; lia |]. by apply (Hx _ _ _ Hs). Qed.

Lemma cam_call cb n x y : calls_at_most cb (S n) (call cb x y).
Proof. intros s a s' [= _ <-]. exists [(x, y)]. split; [simpl; lia | done]. Qed.

Lemma cam_bind {A B} cb n k (x : M A) (f : A → M B) :
  calls_at_most cb n x → (∀ a, calls_at_most cb k (f a)) →
  calls_at_most cb (n + k) (bind x f).
Proof.
  intros Hx Hf s b s'. unfold bind. destruct (x s) as [[a s1] |] eqn:Hxs; [| done].
  intros Hfs. destruct (Hx _ _ _ Hxs) as (rs1 & Hn & Hc1).
  destruct (Hf a _ _ _ Hfs) as (rs2 & Hk & Hc2).
  exists (rs2 ++ rs1). split; [rewrite length_app; lia |].
  by rewrite apply_calls_app, <- Hc1.
Qed.

Lemma cam_bind0 {A B} cb k (x : M A) (f : A → M B) :
  no_calls x → (∀ a, calls_at_most cb k (f a)) → calls_at_most cb k (bind x f).
Proof. intros Hx Hf. apply (cam_bind cb 0 k); [by apply cam_nc | done]. Qed.

Lemma cam_bind_call {B} cb k x y (f : unit → M B) :
  (∀ a, calls_at_most cb k (f a)) → calls_at_most cb (S k) (bind (call cb x y) f).
Proof. intros Hf. apply (cam_bind cb 1 k); [apply cam_call | done]. Qed.

Ltac cam :=
  repeat first
    [ apply cam_nc; solve [nc]
    | apply cam_call
    | apply cam_bind_call; intros ?
    | apply cam_bind0; [solve [nc] | intros ?]
    | match goal with
      | |- calls_at_most _ _ (if ?b then _ else _) => destruct b
      | |- calls_at_most _ _ (match ?p with (_, _) => _ end) => destruct p
      end ].

Lemma insert_loop_calls cb fuel :
  ∀ node parent, calls_at_most cb 2 (__ph_insert_loop fuel cb node parent).
Proof.
  induction fuel as [| fuel IH]; intros node parent; [by intros s a s' |].
  cbn [__ph_insert_loop]. cam.
  - apply IH.
  - apply (cam_bind cb 1 1); [| intros ?]; cam.
  - apply IH.
  - apply (cam_bind cb 1 1); [| intros ?]; cam.
Qed.

Lemma apply_calls_dummy rs calls : apply_calls dummy_rotate rs calls = calls.
Proof. induction rs as [| r rs IH]; [done |]. simpl. exact IH. Qed.

(** [__ph_insert] calls [augment_rotate] at most twice, whatever the nodes
    hold, and not at all when the colour flips of case 1 get it to the root
    or under a BLACK parent. *)
Theorem __ph_insert_rotates_twice_at_most (fuel : nat) (node : Z) (cb : callback)
    (s s' : ph_state) :
  __ph_insert fuel node cb s = Some (tt, s') →
  ∃ rs, (length rs ≤ 2)%nat ∧ st_calls s' = apply_calls cb rs (st_calls s).
Proof.
  assert (calls_at_most cb 2 (__ph_insert fuel node cb)) as H.
  { unfold __ph_insert. apply cam_bind0; [nc | intros parent]. apply insert_loop_calls. }
  apply H.
Qed.

Lemma __ph_insert_rotates_twice_at_most_witness :
  ∃ s', __ph_insert 3 8 record_rotate leaf_linked_state = Some (tt, s') ∧
        st_calls s' = [Rotate 32 16] ∧
        ∃ rs, (length rs ≤ 2)%nat ∧
              st_calls s' = apply_calls record_rotate rs (st_calls leaf_linked_state).
Proof.
  eexists. split; [vm_compute; reflexivity |]. split; [reflexivity |].
  apply (__ph_insert_rotates_twice_at_most 3 8 record_rotate leaf_linked_state).
  vm_compute. reflexivity.
Defined.

(** ** The postorder loop that lets its body give up the record *)

Section safe_postorder.
Variables (off : Z) (body : Z → store → store).
Hypothesis body_frame : ∀ pos m a, a ≠ pos + off → body pos m !! a = m !! a.

Lemma foldl_body_frame l m a :
  a ∉ l → foldl (λ acc y, body (y - off) acc) m l !! a = m !! a.
Proof using body_frame.
  revert m. induction l as [| y l IH]; intros m Ha; [done |].
  simpl. rewrite IH by set_solver. apply body_frame.
  intros ->. apply Ha. replace (y - off + off) with y by lia. set_solver.
Qed.

Lemma safe_from_null fuel wf m :
  postorder_for_each_entry_safe_from fuel wf off body m NULL = Some ([], m).
Proof using Type. by destruct fuel. Qed.

Lemma safe_from_postorder wf t :
  ∀ m p x k f cur (vis : Z → Prop),
    repr m p t x → NoDup (inorder t) → aligned p → (height t ≤ wf)%nat →
    (∀ a, a ∈ inorder t → a ≠ off) →
    (∀ a, ¬ vis a → cur !! a = m !! a) →
    (∀ a, a ∈ inorder t → ¬ vis a) →
    (t ≠ Leaf →
     ∀ m', (∀ a, ¬ vis a → a ∉ inorder t ∨ a = x → m' !! a = m !! a) →
           ph_next_postorder wf m' x = Some k) →
    postorder_for_each_entry_safe_from (size t + f) wf off body cur
      (ph_entry_safe off (first_post t k)) =
    r ← postorder_for_each_entry_safe_from f wf off body
           (foldl (λ acc y, body (y - off) acc) cur (postorder t)) (ph_entry_safe off k);
    Some (((λ a, a - off) <$> postorder t) ++ r.1, r.2).
Proof using body_frame.
  induction t as [| l IHl a c r IHr];
    intros m p x k f cur vis Hr Hnd Hp Hwf Hoff Hcur Hvis Hk.
  - simpl. by destruct (postorder_for_each_entry_safe_from _ _ _ _ _ _) as [[] |].
  - destruct Hr as (-> & Hne & Hal & n & Hn & Hpc & Hl & Hrr).
    cbn [inorder postorder first_post size height] in *.
    pose proof Hnd as Hnd0.
    apply NoDup_app in Hnd as (Hndl & Hdisj & Hndr).
    apply NoDup_cons in Hndr as (Har & Hndr).
    assert (a ∉ inorder l) as Hal'.
    { intros Hin. apply (Hdisj a Hin). set_solver. }
    pose proof (repr_root_of _ _ _ _ Hl) as Hla.
    pose proof (repr_root_of _ _ _ _ Hrr) as Hra.
    replace (S (size l + size r) + f)%nat with (size l + (size r + S f))%nat by lia.
    rewrite (IHl m a (ph_left n) (first_post r a) _ cur vis); auto; try lia.
    2:{ intros y Hy. apply Hoff. set_solver. }
    2:{ intros y Hy. apply Hvis. set_solver. }
    2:{ (* from the left child to the first node of the right subtree *)
        intros Hlne m' Hm'. destruct l as [| ll la cl lr]; [done |].
        assert (ph_left n ≠ 0) as Hl0 by (simpl in Hl; destruct Hl as (-> & ? & _); done).
        assert (m' !! ph_left n = m !! ph_left n) as Hml.
        { apply Hm'; [| by right]. apply Hvis. rewrite Hla. simpl. set_solver. }
        assert (m' !! a = Some n) as Hma.
        { rewrite <- Hn. apply Hm'; [apply Hvis; set_solver | by left]. }
        unfold ph_next_postorder. rewrite nonnull_true by done.
        unfold ph_parent. rewrite Hml. fold (ph_parent m (ph_left n)).
        rewrite (ph_parent_repr m a ll la cl lr) by done. simpl.
        rewrite nonnull_true by done. rewrite Hma. simpl. rewrite Z.eqb_refl. simpl.
        destruct (Z.eqb_spec (ph_right n) 0) as [H0 | H0].
        - unfold nonnull. rewrite H0. simpl.
          rewrite H0 in Hrr. apply repr_null in Hrr. by subst r.
        - rewrite nonnull_true by done.
          apply (left_deepest_first r m' a); [| done | lia].
          apply (repr_frame m); [| done].
          intros y Hy. apply Hm'; [apply Hvis; set_solver |].
          left. intros Hin. apply (Hdisj y Hin). set_solver. }
    set (cur1 := foldl (λ acc y, body (y - off) acc) cur (postorder l)).
    assert (∀ y, ¬ (vis y ∨ y ∈ inorder l) → cur1 !! y = m !! y) as Hcur1.
    { intros y Hy. unfold cur1. rewrite foldl_body_frame.
      - apply Hcur. tauto.
      - rewrite postorder_inorder. tauto. }
    rewrite (IHr m a (ph_right n) a _ cur1 (λ y, vis y ∨ y ∈ inorder l)); auto; try lia.
    2:{ intros y Hy. apply Hoff. set_solver. }
    2:{ intros y Hy [Hv | Hin]; [apply (Hvis y); [set_solver | done] |].
        apply (Hdisj y Hin). set_solver. }
    2:{ (* from the right child to the node *)
        intros Hrne m' Hm'. destruct r as [| rl ra rc rr]; [done |].
        assert (ph_right n ≠ 0) as Hr0 by (simpl in Hrr; destruct Hrr as (-> & ? & _); done).
        assert (¬ (vis (ph_right n) ∨ ph_right n ∈ inorder l)) as Hnv.
        { rewrite Hra. simpl. intros [Hv | Hin].
          - apply (Hvis ra); [set_solver | done].
          - apply (Hdisj ra Hin). set_solver. }
        assert (m' !! ph_right n = m !! ph_right n) as Hmr by (apply Hm'; [done | by right]).
        assert (m' !! a = Some n) as Hma.
        { rewrite <- Hn. apply Hm'; [| left; set_solver].
          intros [Hv | Hin]; [apply (Hvis a); [set_solver | done] | done]. }
        unfold ph_next_postorder. rewrite nonnull_true by done.
        unfold ph_parent. rewrite Hmr. fold (ph_parent m (ph_right n)).
        rewrite (ph_parent_repr m a rl ra rc rr) by done. simpl.
        rewrite nonnull_true by done. rewrite Hma. simpl.
        destruct (Z.eqb_spec (ph_right n) (ph_left n)) as [Heq | ?]; [| done].
        exfalso. destruct l as [| ll la cl lr].
        - simpl in Hl. unfold NULL in Hl. congruence.
        - destruct (children_differ _ _ _ Hnd0) as [Hdiff | ?]; [done | | done].
          apply Hdiff. by rewrite <- Hla, <- Hra. }
    set (cur2 := foldl (λ acc y, body (y - off) acc) cur1 (postorder r)).
    assert (a ≠ off) as Haoff by (apply Hoff; set_solver).
    assert (ph_entry_safe off a = a - off) as ->.
    { unfold ph_entry_safe. by rewrite nonnull_true by done. }
    cbn [postorder_for_each_entry_safe_from].
    rewrite nonnull_true by lia.
    replace (a - off + off) with a by lia.
    rewrite (Hk ltac:(done) cur2).
    2:{ intros y Hv Hy. unfold cur2. rewrite foldl_body_frame.
        - apply Hcur1. intros [? | Hin]; [done |]. destruct Hy as [Hy | ->]; [| done].
          apply Hy. set_solver.
        - rewrite postorder_inorder. intros Hin. destruct Hy as [Hy | ->]; [| done].
          apply Hy. set_solver. }
    simpl. unfold cur2, cur1. rewrite !foldl_app. simpl.
    destruct (postorder_for_each_entry_safe_from f wf off body _ _) as [[vs mf] |];
      simpl; [| done].
    rewrite !fmap_app. simpl. by rewrite <- !app_assoc.
Qed.
End safe_postorder.

(** The loop [phtree_postorder_for_each_entry_safe] visits every record of
    the tree once, children before their parent, even though its body gives
    up the record it is handed (frees or overwrites the node in it): the
    next node is read before the body runs, and no later step reads a node
    that was visited. *)
Theorem postorder_for_each_entry_safe_visits (m : store) (root : ph_root) (t : tree)
    (fuel : nat) (off : Z) (body : Z → store → store) :
  linked m root t → (size t ≤ fuel)%nat →
  (∀ a, a ∈ inorder t → a ≠ off) →
  (∀ pos m' a, a ≠ pos + off → body pos m' !! a = m' !! a) →
  phtree_postorder_for_each_entry_safe fuel off body m root =
    Some ((λ a, a - off) <$> postorder t,
          foldl (λ acc y, body (y - off) acc) m (postorder t)).
Proof.
  intros Hlk Hf Hoff Hbody. unfold phtree_postorder_for_each_entry_safe.
  pose proof (height_le_size t) as Hhs.
  rewrite (ph_first_postorder_linked m root t) by (auto; lia). simpl.
  destruct Hlk as [Hr Hnd].
  replace fuel with (size t + (fuel - size t))%nat at 1 by lia.
  rewrite (safe_from_postorder off body Hbody fuel t m NULL (ph_root_node root) NULL
             _ m (λ _, False)); auto using aligned_0; try lia.
  - unfold ph_entry_safe. simpl. rewrite safe_from_null. simpl. by rewrite app_nil_r.
  - intros Ht m' Hm'. unfold ph_next_postorder.
    destruct t as [| l a c r]; [done |].
    assert (ph_root_node root = a ∧ a ≠ NULL) as [Hx Hne] by (simpl in Hr; tauto).
    rewrite nonnull_true by (by rewrite Hx).
    unfold ph_parent. rewrite Hm'; [| tauto | by right]. fold (ph_parent m (ph_root_node root)).
    by rewrite (ph_parent_repr m NULL l a c r) by (auto using aligned_0).
Qed.

Lemma postorder_for_each_entry_safe_visits_witness :
  phtree_postorder_for_each_entry_safe 3 8 (λ pos m, delete (pos + 8) m)
    three_nodes (mk_ph_root 32) =
  Some ([8; 40; 24], <[64 := cleared_node 64]> ∅).
Proof.
  rewrite (postorder_for_each_entry_safe_visits three_nodes (mk_ph_root 32)
             three_nodes_tree 3 8 (λ pos m, delete (pos + 8) m)).
  - vm_compute. reflexivity.
  - exact three_nodes_linked.
  - simpl. lia.
  - simpl. intros a Ha ->. set_solver.
  - intros pos m' a Ha. by rewrite lookup_delete_ne.
Defined.

(** ** Replacing back *)

Lemma set_parent_of_twice p p' c l r :
  aligned p → aligned p' →
  set_parent_of p (set_parent_of p' (mk_ph_node (Z.lor p (color_bit c)) r l)) =
  mk_ph_node (Z.lor p (color_bit c)) r l.
Proof.
  intros Hp Hp'. unfold set_parent_of. simpl.
  by rewrite (color_packed p c), (color_packed p' c) by done.
Qed.

Lemma change_child_of_twice old new n :
  new ≠ old → ph_left n ≠ new → (ph_left n = old ∨ ph_right n = old) →
  change_child_of new old (change_child_of old new n) = n.
Proof.
  intros Hne Hl Hor. destruct n as [pc r l]. unfold change_child_of. simpl in *.
  destruct (Z.eqb_spec l old) as [-> | Hlo]; simpl.
  - by rewrite Z.eqb_refl.
  - destruct Hor as [? | ->]; [done |].
    destruct (Z.eqb_spec l new); [done |]. done.
Qed.

Lemma rename_absent old new t : old ∉ inorder t → rename old new t = t.
Proof.
  induction t as [| l IHl a c r IHr]; simpl; [done |].
  rewrite elem_of_app, elem_of_cons. intros Hn.
  rewrite IHl, IHr by tauto. rewrite rename_addr_ne by (intros ->; tauto). done.
Qed.

Lemma ph_replace_node_back m root calls t victim new nn :
  linked m root t → victim ∈ inorder t → new ∉ inorder t →
  new ≠ NULL → aligned new → m !! new = Some nn →
  ∃ s1 nv,
    ph_replace_node victim new (mk_state m root calls) = Some (tt, s1) ∧
    m !! victim = Some nv ∧
    ph_replace_node new victim s1 = Some (tt, mk_state (<[new := nv]> m) root calls).
Proof.
  intros Hlk Hv Hn Hn0 Hna Hnn.
  pose proof (linked_shape m root t Hlk) as Hsh.
  destruct (ph_replace_node_linked m root calls t victim new nn Hlk Hv Hn Hn0 Hna Hnn)
    as (q & c & l & r & Hat & H1).
  cbn zeta in H1. destruct H1 as (Hrun1 & Hnew1 & Hl1 & Hr1 & Hq1 & Hfr1 & Hlk1).
  set (nv := mk_ph_node (Z.lor q (color_bit c)) r l) in *.
  set (m1 := store_change_child victim new q
               (store_set_parent r new (store_set_parent l new (<[new := nv]> m)))) in *.
  set (root1 := if nonnull q then root else mk_ph_root new) in *.
  assert (m !! victim = Some nv) as Hmv by (destruct Hat as [_ ?]; done).
  assert (victim ≠ NULL) as Hv0 by (destruct Hlk as [Hr _]; eapply repr_not_null; eauto).
  assert (aligned victim) as Hva by (destruct Hlk as [Hr _]; eapply repr_aligned; eauto).
  assert (new ≠ victim) as Hnv by (intros ->; done).
  assert (victim ≠ q) as Hvq by (eapply shape_parent_ne; eauto).
  (* the neighbours of the victim *)
  assert (l = 0 ∨ l ≠ 0 ∧ l ∈ inorder t ∧ l ≠ victim ∧
          ∃ cl ll rl, aligned victim ∧ m !! l = Some (mk_ph_node (Z.lor victim (color_bit cl)) rl ll))
    as Hlc.
  { destruct (shape_left_cases _ _ _ _ _ _ _ _ _ Hsh Hv Hat) as [? | (? & cl & ll & rl & Hd & Hatl & Hdl & _)];
      [by left | right].
    split_and!; [done | done | | exists cl, ll, rl; destruct Hatl; done].
    intros ->. lia. }
  assert (r = 0 ∨ r ≠ 0 ∧ r ∈ inorder t ∧ r ≠ victim ∧
          ∃ cr lr rr, aligned victim ∧ m !! r = Some (mk_ph_node (Z.lor victim (color_bit cr)) rr lr))
    as Hrc.
  { destruct (shape_right_cases _ _ _ _ _ _ _ _ _ Hsh Hv Hat) as [? | (? & cr & lr & rr & Hd & Hatr & Hdr & _)];
      [by left | right].
    split_and!; [done | done | | exists cr, lr, rr; destruct Hatr; done].
    intros ->. lia. }
  assert (q = 0 ∨ q ≠ 0 ∧ q ∈ inorder t ∧
          ∃ nq, m !! q = Some nq ∧ (ph_left nq = victim ∨ ph_right nq = victim) ∧
                ph_left nq ≠ new) as Hqc.
  { destruct (shape_parent_cases _ _ _ _ _ _ _ _ _ Hsh Hv Hat)
      as [? | (? & q' & c' & l' & r' & Hd & Hatq & Hor & _)]; [by left | right].
    split_and!; [done | done |]. eexists. split; [apply Hatq |]. simpl. split; [done |].
    intros ->. destruct (shape_left_cases _ _ _ _ _ _ _ _ _ Hsh Hd Hatq)
      as [? | (? & ? & ? & ? & Hd' & _)]; done. }
  assert (new ≠ l) as Hnl by (destruct Hlc as [-> | (_ & ? & _)]; [done | by intros ->]).
  assert (new ≠ r) as Hnr by (destruct Hrc as [-> | (_ & ? & _)]; [done | by intros ->]).
  assert (new ≠ q) as Hnq by (destruct Hqc as [-> | (_ & ? & _)]; [done | by intros ->]).
  assert (m1 !! victim = Some nv) as Hv1.
  { rewrite Hfr1; [done | done |]. right.
    split_and!; [destruct Hlc as [-> | (_ & _ & ? & _)]; done
                | destruct Hrc as [-> | (_ & _ & ? & _)]; done | done]. }
  (* replace back *)
  assert (linked m1 root1 (rename victim new t)) as Hlk1' by exact Hlk1.
  destruct (ph_replace_node_linked m1 root1 calls (rename victim new t) new victim nv)
    as (q' & c' & l' & r' & Hat' & H2); auto.
  { rewrite inorder_rename. apply list_elem_of_fmap. exists victim.
    by rewrite rename_addr_eq. }
  { rewrite inorder_rename. intros Hin. apply list_elem_of_fmap in Hin as (a & Ha & Hin).
    unfold rename_addr in Ha. destruct (Z.eqb_spec a victim); congruence. }
  assert (node_at m1 new q c l r) as Hat1.
  { split; [apply Hat | exact Hnew1]. }
  destruct (node_at_inj _ _ _ _ _ _ _ _ _ _ Hat' Hat1) as (-> & -> & -> & ->).
  cbn zeta in H2. destruct H2 as (Hrun2 & Hnew2 & Hl2 & Hr2 & Hq2 & Hfr2 & _).
  fold nv in Hrun2, Hnew2, Hfr2, Hl2, Hr2, Hq2.
  exists (mk_state m1 root1 calls), nv. split; [exact Hrun1 |]. split; [exact Hmv |].
  rewrite Hrun2. f_equal. f_equal. f_equal.
  - apply map_eq. intros a.
    destruct (decide (a = new)) as [-> | Han].
    { rewrite lookup_insert_eq. rewrite Hfr2; [done | done |]. right. done. }
    rewrite lookup_insert_ne by done.
    destruct (decide (a = victim)) as [-> | Hav]; [by rewrite Hnew2 |].
    destruct (decide (a = 0)) as [-> | Ha0].
    { rewrite Hfr2 by auto. rewrite Hfr1 by auto. done. }
    destruct (decide (a = l)) as [-> | Hal].
    { destruct Hlc as [? | (Hl0 & _ & _ & cl & ll & rl & _ & Hml)]; [done |].
      destruct (Hl2 Hl0) as (nl1 & Hm1l & ->). destruct (Hl1 Hl0) as (nl & Hml' & Hm1l').
      rewrite Hm1l' in Hm1l. injection Hm1l as <-. rewrite Hml in Hml'. injection Hml' as <-.
      by rewrite set_parent_of_twice, Hml. }
    destruct (decide (a = r)) as [-> | Har].
    { destruct Hrc as [? | (Hr0 & _ & _ & cr & lr & rr & _ & Hmr)]; [done |].
      destruct (Hr2 Hr0) as (nr1 & Hm1r & ->). destruct (Hr1 Hr0) as (nr & Hmr' & Hm1r').
      rewrite Hm1r' in Hm1r. injection Hm1r as <-. rewrite Hmr in Hmr'. injection Hmr' as <-.
      by rewrite set_parent_of_twice, Hmr. }
    destruct (decide (a = q)) as [-> | Haq].
    { destruct Hqc as [? | (Hq0 & _ & nq & Hmq & Hor & Hlq)]; [done |].
      destruct (Hq2 Hq0) as (nq1 & Hm1q & ->). destruct (Hq1 Hq0) as (nq' & Hmq' & Hm1q').
      rewrite Hm1q' in Hm1q. injection Hm1q as <-. rewrite Hmq in Hmq'. injection Hmq' as <-.
      by rewrite change_child_of_twice, Hmq. }
    rewrite Hfr2 by auto. rewrite Hfr1 by auto. done.
  - unfold root1. destruct (Z.eqb_spec q 0) as [-> | Hq0].
    + unfold nonnull. simpl. destruct root as [x]. f_equal.
      symmetry. apply (sh_root _ _ _ _ Hsh victim c l r Hv Hat).
    + by rewrite !nonnull_true.
Qed.

(** Replacing [victim] by [new] and then [new] by [victim] puts the tree
    back: every linked node and the root are as before, and only the record
    of [new] keeps the copy of [victim] it was given. *)
Theorem ph_replace_node_round_trip (s : ph_state) (t : tree) (victim new : Z) (nn : ph_node) :
  linked (st_store s) (st_root s) t → victim ∈ inorder t → new ∉ inorder t →
  new ≠ NULL → aligned new → st_store s !! new = Some nn →
  ∃ s1 s2 nv,
    ph_replace_node victim new s = Some (tt, s1) ∧
    ph_replace_node new victim s1 = Some (tt, s2) ∧
    st_store s !! victim = Some nv ∧
    st_store s2 = <[new := nv]> (st_store s) ∧
    st_root s2 = st_root s ∧ st_calls s2 = st_calls s ∧
    linked (st_store s2) (st_root s2) t.
Proof.
  destruct s as [m root calls]. simpl. intros Hlk Hv Hn Hn0 Hna Hnn.
  destruct (ph_replace_node_back m root calls t victim new nn Hlk Hv Hn Hn0 Hna Hnn)
    as (s1 & nv & Hrun1 & Hmv & Hrun2).
  exists s1, (mk_state (<[new := nv]> m) root calls), nv. simpl.
  split_and!; try done.
  destruct Hlk as [Hr Hnd]. split; [| done].
  apply (repr_frame m); [| done].
  intros y Hy. rewrite lookup_insert_ne; [done |]. by intros ->.
Qed.

Lemma ph_replace_node_round_trip_witness :
  ∃ s1, ph_replace_node 48 64 three_nodes_state = Some (tt, s1) ∧
        st_root s1 = mk_ph_root 32 ∧
        ph_replace_node 64 48 s1 =
          Some (tt, mk_state (<[64 := mk_ph_node (Z.lor 32 ph_RED) 0 0]> three_nodes)
                             (mk_ph_root 32) []).
Proof.
  destruct (ph_replace_node_round_trip three_nodes_state three_nodes_tree 48 64
              (cleared_node 64)) as (s1 & s2 & nv & H1 & H2 & Hnv & Hm & Hr & Hc & _).
  - exact three_nodes_linked.
  - simpl. set_solver.
  - simpl. set_solver.
  - done.
  - reflexivity.
  - reflexivity.
  - exists s1. split; [exact H1 |]. split.
    + vm_compute in H1. by injection H1 as <-.
    + rewrite H2. destruct s2 as [m2 r2 c2]. simpl in Hm, Hr, Hc. subst m2 r2 c2.
      vm_compute in Hnv. by injection Hnv as <-.
Defined.

(** ** Single steps of the postorder walk *)

Lemma first_post_head t k : first_post t k = default k (head (postorder t)).
Proof.
  revert k. induction t as [| l IHl a c r IHr]; intros k; simpl; [done |].
  rewrite IHl, IHr. destruct (postorder l); [| done]. simpl. by destruct (postorder r).
Qed.

(** [succ_post] names the node that follows in the postorder sequence. *)
Lemma succ_post_follows t k y pre rest :
  NoDup (postorder t) → postorder t = pre ++ y :: rest →
  succ_post t k y = Some (default k (head rest)).
Proof.
  revert k pre rest. induction t as [| l IHl a c r IHr]; intros k pre rest Hnd Heq.
  - by destruct pre.
  - simpl in Hnd, Heq. simpl.
    pose proof Hnd as Hnd0.
    apply NoDup_app in Hnd as (Hndl & Hdisj & Hndr).
    apply NoDup_app in Hndr as (Hndr & Hdisjr & _).
    destruct (Z.eqb_spec y a) as [-> | Hya].
    + assert (postorder l ++ postorder r ++ [a] = (postorder l ++ postorder r) ++ a :: [])
        as Heq' by (by rewrite <- app_assoc).
      rewrite Heq' in Hnd0. rewrite Heq' in Heq.
      by destruct (NoDup_split_inj _ _ _ _ _ Hnd0 Heq) as [_ <-].
    + assert (y ∈ postorder l ++ postorder r ++ [a]) as Hy by (rewrite Heq; set_solver).
      rewrite !elem_of_app in Hy. destruct Hy as [Hy | [Hy | Hy]]; [| | set_solver].
      * apply list_elem_of_split in Hy as (p1 & p2 & Hl).
        rewrite Hl, <- app_assoc in Heq. simpl in Heq.
        rewrite Hl, <- app_assoc in Hnd0. simpl in Hnd0.
        destruct (NoDup_split_inj _ _ _ _ _ Hnd0 Heq) as [_ <-].
        rewrite (IHl _ p1 p2 Hndl Hl). rewrite first_post_head.
        destruct p2; [| done]. simpl. by destruct (postorder r).
      * rewrite succ_post_None.
        2:{ rewrite <- postorder_inorder. intros Hin. apply (Hdisj y Hin). set_solver. }
        apply list_elem_of_split in Hy as (p1 & p2 & Hr).
        assert (postorder l ++ postorder r ++ [a] = (postorder l ++ p1) ++ y :: (p2 ++ [a]))
          as Heq'.
        { rewrite Hr, <- !app_assoc. done. }
        rewrite Heq' in Hnd0. rewrite Heq' in Heq.
        destruct (NoDup_split_inj _ _ _ _ _ Hnd0 Heq) as [_ <-].
        rewrite (IHr a p1 p2 Hndr Hr). by destruct p2.
Qed.

(** [ph_first_postorder] returns the first node of the postorder sequence,
    a node without children, and [ph_next_postorder] the node that follows:
    [NULL] after the root, which comes last. *)
Theorem ph_next_postorder_follows (m : store) (root : ph_root) (t : tree) (fuel : nat)
    (pre rest : list Z) (y : Z) :
  linked m root t → (height t ≤ fuel)%nat → postorder t = pre ++ y :: rest →
  ph_first_postorder fuel m root = Some (default NULL (head (postorder t))) ∧
  ph_next_postorder fuel m y = Some (default NULL (head rest)) ∧
  (rest = [] ↔ y = ph_root_node root).
Proof.
  intros Hlk Hf Heq.
  assert (NoDup (postorder t)) as Hnd by (rewrite postorder_inorder; apply Hlk).
  assert (y ∈ inorder t) as Hy by (rewrite <- postorder_inorder, Heq; set_solver).
  split_and!.
  - rewrite (ph_first_postorder_linked m root t) by done. by rewrite first_post_head.
  - destruct Hlk as [Hr Hndi].
    rewrite (ph_next_postorder_succ t m NULL (ph_root_node root) NULL fuel);
      auto using aligned_0.
    + by apply (succ_post_follows _ _ _ pre).
    + intros Ht. unfold ph_next_postorder. destruct t as [| l a c r]; [done |].
      assert (ph_root_node root = a ∧ a ≠ NULL) as [Hx Hne] by (simpl in Hr; tauto).
      rewrite nonnull_true by (by rewrite Hx).
      by rewrite (ph_parent_repr m NULL l a c r) by (auto using aligned_0).
  - destruct Hlk as [Hr _]. apply repr_root_of in Hr. rewrite Hr.
    destruct t as [| l a c r]; [by destruct pre |].
    destruct (postorder_ends_in_root (Node l a c r)) as [pre' Hpre]; [done |].
    simpl root_of in *. split.
    + intros ->. rewrite Hpre in Heq. by apply app_inj_tail in Heq as [_ ->].
    + intros ->. rewrite Hpre in Heq, Hnd.
      change (pre' ++ [a]) with (pre' ++ a :: []) in *.
      by destruct (NoDup_split_inj _ _ _ _ _ Hnd Heq) as [_ <-].
Qed.

Lemma ph_next_postorder_follows_witness :
  ph_first_postorder 2 three_nodes (mk_ph_root 32) = Some 16 ∧
  ph_next_postorder 2 three_nodes 48 = Some 32.
Proof.
  destruct (ph_next_postorder_follows three_nodes (mk_ph_root 32) three_nodes_tree 2
              [16] [32] 48) as (H1 & H2 & _).
  - exact three_nodes_linked.
  - simpl. lia.
  - reflexivity.
  - split; [exact H1 | exact H2].
Defined.

(** ** Trees around a position, in the store *)

Lemma nodes_above_left a c r above :
  nodes_above (below_left a c r :: above) ≡ₚ a :: inorder r ++ nodes_above above.
Proof.
  unfold nodes_above. simpl.
  rewrite (Permutation_app_comm (nodes_before above)). simpl. apply perm_skip.
  rewrite <- app_assoc. apply Permutation_app_head, Permutation_app_comm.
Qed.

Lemma nodes_above_right l a c above :
  nodes_above (below_right l a c :: above) ≡ₚ a :: inorder l ++ nodes_above above.
Proof.
  unfold nodes_above. simpl.
  rewrite <- !app_assoc. rewrite (Permutation_app_comm (nodes_before above)).
  rewrite <- !app_assoc. simpl.
  rewrite <- Permutation_middle. apply perm_skip.
  apply Permutation_app_head, Permutation_app_comm.
Qed.

Lemma inorder_plug_perm above t : inorder (plug above t) ≡ₚ inorder t ++ nodes_above above.
Proof.
  rewrite inorder_plug. unfold nodes_above.
  rewrite !app_assoc. apply Permutation_app_tail, Permutation_app_comm.
Qed.

Lemma NoDup_plug above t :
  NoDup (inorder (plug above t)) →
  NoDup (inorder t) ∧ NoDup (nodes_above above) ∧
  (∀ y, y ∈ inorder t → y ∉ nodes_above above).
Proof. rewrite inorder_plug_perm, NoDup_app. tauto. Qed.

Lemma elem_of_plug above t y :
  y ∈ inorder (plug above t) ↔ y ∈ inorder t ∨ y ∈ nodes_above above.
Proof. by rewrite inorder_plug_perm, elem_of_app. Qed.

Lemma repr_above_aligned m root above x :
  repr_above m root above x → aligned (parent_above above).
Proof.
  destruct above as [| [a c r | l a c] above]; simpl; [intros _; apply aligned_0 | |];
    by intros (_ & ? & _).
Qed.

Lemma parent_above_elem above : above ≠ [] → parent_above above ∈ nodes_above above.
Proof.
  destruct above as [| [a c r | l a c] above]; [done | |]; intros _.
  - rewrite nodes_above_left. set_solver.
  - rewrite nodes_above_right. set_solver.
Qed.

Lemma repr_above_parent m root above x :
  repr_above m root above x →
  (above = [] ∧ parent_above above = 0) ∨
  (parent_above above ≠ 0 ∧ parent_above above ∈ nodes_above above ∧
   is_Some (m !! parent_above above)).
Proof.
  intros H. destruct above as [| f above]; [by left | right].
  split_and!; [| by apply parent_above_elem |];
    destruct f; simpl in *; destruct H as (? & ? & n & ? & _); eauto.
Qed.

(** A tree around a position is the way to the root and the subtree under
    the position. *)
Lemma repr_plug m root above t :
  repr m NULL (plug above t) root ↔
  repr_above m root above (root_of t) ∧ repr m (parent_above above) t (root_of t).
Proof.
  revert t. induction above as [| f above IH]; intros t.
  - simpl. split.
    + intros H. pose proof (repr_root_of _ _ _ _ H) as ->. done.
    + by intros [-> ?].
  - cbn [plug]. rewrite IH. destruct f as [a c r | l a c]; simpl; split.
    + intros (Ha & _ & Hne & Hal & n & Hn & Hpc & Hl & Hr).
      pose proof (repr_root_of _ _ _ _ Hl) as Hx. rewrite Hx in Hl.
      split; [| done]. split_and!; auto. exists n. split_and!; auto.
    + intros ((Hne & Hal & n & Hn & Hpc & Hx & Hr & Ha) & Hl).
      split; [done |]. split_and!; auto. exists n. rewrite Hx. split_and!; auto.
    + intros (Ha & _ & Hne & Hal & n & Hn & Hpc & Hl & Hr).
      pose proof (repr_root_of _ _ _ _ Hr) as Hx. rewrite Hx in Hr.
      split; [| done]. split_and!; auto. exists n. split_and!; auto.
    + intros ((Hne & Hal & n & Hn & Hpc & Hx & Hl & Ha) & Hr).
      split; [done |]. split_and!; auto. exists n. rewrite Hx. split_and!; auto.
Qed.

Lemma repr_above_frame m m' root above x :
  (∀ y, y ∈ nodes_above above → m' !! y = m !! y) →
  repr_above m root above x → repr_above m' root above x.
Proof.
  revert x. induction above as [| f above IH]; intros x Hm; [done |].
  destruct f as [a c r | l a c]; simpl;
    intros (Hne & Hal & n & Hn & Hpc & Hx & Hs & Ha);
    (split_and!; [done | done |]); exists n.
  - assert (∀ y, y ∈ a :: inorder r ++ nodes_above above → m' !! y = m !! y) as Hm'.
    { intros y Hy. apply Hm. by rewrite nodes_above_left. }
    split_and!; auto.
    + rewrite <- Hn. apply Hm'. set_solver.
    + apply (repr_frame m); [| done]. intros y Hy. apply Hm'. set_solver.
    + apply IH; [| done]. intros y Hy. apply Hm'. set_solver.
  - assert (∀ y, y ∈ a :: inorder l ++ nodes_above above → m' !! y = m !! y) as Hm'.
    { intros y Hy. apply Hm. by rewrite nodes_above_right. }
    split_and!; auto.
    + rewrite <- Hn. apply Hm'. set_solver.
    + apply (repr_frame m); [| done]. intros y Hy. apply Hm'. set_solver.
    + apply IH; [| done]. intros y Hy. apply Hm'. set_solver.
Qed.

(** The slot above a position is made to hold another node. *)
Lemma repr_above_change m m' root above x x' :
  repr_above m root above x → NoDup (nodes_above above) →
  x ∉ nodes_above above → x ≠ 0 →
  (∀ y, y ∈ nodes_above above → y ≠ parent_above above → m' !! y = m !! y) →
  (parent_above above ≠ 0 →
   m' !! parent_above above = change_child_of x x' <$> m !! parent_above above) →
  repr_above m' (if nonnull (parent_above above) then root else x') above x'.
Proof.
  intros Hr Hnd Hx Hx0 Hm HP.
  destruct above as [| [a c r | l a c] above]; [done | |]; simpl in Hr |- *;
    destruct Hr as (Hne & Hal & n & Hn & Hpc & Hch & Hs & Ha);
    rewrite nonnull_true by done; simpl in HP; specialize (HP Hne); rewrite Hn in HP;
    simpl in HP; (split_and!; [done | done |]).
  - rewrite nodes_above_left in Hnd. apply NoDup_cons in Hnd as [Hna Hnd].
    assert (∀ y, y ∈ inorder r ++ nodes_above above → m' !! y = m !! y) as Hm'.
    { intros y Hy. apply Hm; [rewrite nodes_above_left; set_solver |].
      simpl. intros ->. done. }
    eexists. split; [exact HP |]. unfold change_child_of. rewrite Hch, Z.eqb_refl. simpl.
    split_and!; auto.
    + apply (repr_frame m); [| done]. intros y Hy. apply Hm'. set_solver.
    + apply (repr_above_frame m); [| done]. intros y Hy. apply Hm'. set_solver.
  - rewrite nodes_above_right in Hnd. apply NoDup_cons in Hnd as [Hna Hnd].
    assert (∀ y, y ∈ inorder l ++ nodes_above above → m' !! y = m !! y) as Hm'.
    { intros y Hy. apply Hm; [rewrite nodes_above_right; set_solver |].
      simpl. intros ->. done. }
    assert (ph_left n ≠ x) as Hlx.
    { pose proof (repr_root_of _ _ _ _ Hs) as Hl. rewrite Hl.
      destruct l as [| ll la lc lr]; [simpl; unfold NULL; congruence |].
      intros Heq. apply Hx. rewrite nodes_above_right, <- Heq. simpl. set_solver. }
    eexists. split; [exact HP |]. unfold change_child_of.
    apply Z.eqb_neq in Hlx. rewrite Hlx. simpl.
    split_and!; auto.
    + apply (repr_frame m); [| done]. intros y Hy. apply Hm'. set_solver.
    + apply (repr_above_frame m); [| done]. intros y Hy. apply Hm'. set_solver.
Qed.

(** A subtree is hung under another node: only its topmost node is
    written. *)
Lemma repr_reparent m m' p p' t x :
  repr m p t x → aligned p → NoDup (inorder t) →
  (x ≠ 0 → m' !! x = set_parent_of p' <$> m !! x) →
  (∀ y, y ∈ inorder t → y ≠ x → m' !! y = m !! y) →
  repr m' p' t x.
Proof.
  intros Hr Hp Hnd Hx Hm. destruct t as [| l a c r]; [done |].
  destruct Hr as (-> & Hne & Hal & n & Hn & Hpc & Hl & Hrr).
  simpl in Hnd. pose proof Hnd as Hnd0.
  apply NoDup_app in Hnd as (_ & Hdisj & Hndr). apply NoDup_cons in Hndr as (Har & _).
  simpl. split_and!; auto. rewrite Hx, Hn by done. simpl. eexists. split; [done |].
  simpl. rewrite Hpc, color_packed by done. split_and!; [done | |].
  - apply (repr_frame m); [| done]. intros y Hy. apply Hm; [set_solver |].
    intros ->. apply (Hdisj a Hy). set_solver.
  - apply (repr_frame m); [| done]. intros y Hy. apply Hm; [set_solver |].
    intros ->. done.
Qed.

(** ** Recolouring and rotating, as updates of the store *)

Lemma bind_spec_set_color {B} x w (k : unit → M B) m root calls n :
  m !! x = Some n →
  bind (spec_set_color x w) k (mk_state m root calls) =
  k tt (mk_state (<[x := mk_ph_node (Z.lor (__ph_parent (__ph_parent_color n)) w)
                          (ph_right n) (ph_left n)]> m) root calls).
Proof.
  intros H. unfold spec_set_color, ph_set_parent_color. rewrite bind_assoc.
  erewrite bind_rd by (unfold ph_parent; rewrite H; reflexivity).
  by rewrite (bind_set_word _ _ _ _ _ _ n H).
Qed.

Lemma run_spec_set_color x w m root calls n :
  m !! x = Some n →
  spec_set_color x w (mk_state m root calls) =
  Some (tt, mk_state (<[x := mk_ph_node (Z.lor (__ph_parent (__ph_parent_color n)) w)
                              (ph_right n) (ph_left n)]> m) root calls).
Proof.
  intros H. unfold spec_set_color, ph_set_parent_color.
  erewrite bind_rd by (unfold ph_parent; rewrite H; reflexivity).
  by rewrite (run_set_word _ _ _ _ _ n H).
Qed.

Ltac lk :=
  repeat first [ rewrite lookup_insert_eq
               | rewrite lookup_insert_ne by congruence ].

Lemma run_spec_rotate_right pivot up inner P cp cu c1 c2 rp lu cb m root calls :
  m !! pivot = Some (mk_ph_node (Z.lor P (color_bit cp)) rp up) →
  m !! up = Some (mk_ph_node (Z.lor pivot (color_bit cu)) inner lu) →
  aligned P → aligned pivot → aligned up → pivot ≠ up →
  (inner ≠ 0 → inner ≠ pivot ∧ inner ≠ up ∧ is_Some (m !! inner)) →
  (P ≠ 0 → P ≠ pivot ∧ P ≠ up ∧ P ≠ inner ∧ is_Some (m !! P)) →
  ∃ m', spec_rotate Right pivot (color_bit c1) (color_bit c2) cb (mk_state m root calls) =
        Some (tt, mk_state m' (if nonnull P then root else mk_ph_root up) (cb pivot up calls)) ∧
    m' !! pivot = Some (mk_ph_node (Z.lor up (color_bit c2)) rp inner) ∧
    m' !! up = Some (mk_ph_node (Z.lor P (color_bit c1)) pivot lu) ∧
    (inner ≠ 0 → m' !! inner = set_parent_of pivot <$> m !! inner) ∧
    (P ≠ 0 → m' !! P = change_child_of pivot up <$> m !! P) ∧
    (∀ y, y ≠ pivot → y ≠ up → (inner ≠ 0 → y ≠ inner) → (P ≠ 0 → y ≠ P) →
          m' !! y = m !! y).
Proof.
  intros Hpivot Hup HaP Hap Hau Hpu Hinner HP.
  destruct (Z.eq_dec inner 0) as [-> | Hi0]; destruct (Z.eq_dec P 0) as [-> | HP0];
    try (destruct (Hinner Hi0) as (Hi1 & Hi2 & [ni Hni]));
    try (destruct (HP HP0) as (HP1 & HP2 & HP3 & [[pcP rP lP] HnP]));
    try (destruct (Z.eqb_spec lP pivot) as [-> | HlP]);
    (eexists; split; [unfold spec_rotate; run; reflexivity |]);
    (split_and!; [by lk | by lk | | |]);
    try (intros []; done); try (intros _);
    try (intros y ? ? Hyi HyP; try specialize (Hyi Hi0); try specialize (HyP HP0); by lk).
  all: lk.
  all: try (rewrite Hni; reflexivity).
  all: rewrite HnP; unfold change_child_of; simpl; rewrite ?Z.eqb_refl; try done.
  all: apply Z.eqb_neq in HlP; by rewrite HlP.
Qed.

Lemma run_spec_rotate_left pivot up inner P cp cu c1 c2 lp ru cb m root calls :
  m !! pivot = Some (mk_ph_node (Z.lor P (color_bit cp)) up lp) →
  m !! up = Some (mk_ph_node (Z.lor pivot (color_bit cu)) ru inner) →
  aligned P → aligned pivot → aligned up → pivot ≠ up →
  (inner ≠ 0 → inner ≠ pivot ∧ inner ≠ up ∧ is_Some (m !! inner)) →
  (P ≠ 0 → P ≠ pivot ∧ P ≠ up ∧ P ≠ inner ∧ is_Some (m !! P)) →
  ∃ m', spec_rotate Left pivot (color_bit c1) (color_bit c2) cb (mk_state m root calls) =
        Some (tt, mk_state m' (if nonnull P then root else mk_ph_root up) (cb pivot up calls)) ∧
    m' !! pivot = Some (mk_ph_node (Z.lor up (color_bit c2)) inner lp) ∧
    m' !! up = Some (mk_ph_node (Z.lor P (color_bit c1)) ru pivot) ∧
    (inner ≠ 0 → m' !! inner = set_parent_of pivot <$> m !! inner) ∧
    (P ≠ 0 → m' !! P = change_child_of pivot up <$> m !! P) ∧
    (∀ y, y ≠ pivot → y ≠ up → (inner ≠ 0 → y ≠ inner) → (P ≠ 0 → y ≠ P) →
          m' !! y = m !! y).
Proof.
  intros Hpivot Hup HaP Hap Hau Hpu Hinner HP.
  destruct (Z.eq_dec inner 0) as [-> | Hi0]; destruct (Z.eq_dec P 0) as [-> | HP0];
    try (destruct (Hinner Hi0) as (Hi1 & Hi2 & [ni Hni]));
    try (destruct (HP HP0) as (HP1 & HP2 & HP3 & [[pcP rP lP] HnP]));
    try (destruct (Z.eqb_spec lP pivot) as [-> | HlP]);
    (eexists; split; [unfold spec_rotate; run; reflexivity |]);
    (split_and!; [by lk | by lk | | |]);
    try (intros []; done); try (intros _);
    try (intros y ? ? Hyi HyP; try specialize (Hyi Hi0); try specialize (HyP HP0); by lk).
  all: lk.
  all: try (rewrite Hni; reflexivity).
  all: rewrite HnP; unfold change_child_of; simpl; rewrite ?Z.eqb_refl; try done.
  all: apply Z.eqb_neq in HlP; by rewrite HlP.
Qed.

(** ** Recolouring and rotating, on trees *)

Lemma two_over_three_distinct (ia ib ic : list Z) up pivot :
  NoDup (pivot :: up :: ia ++ ib ++ ic) →
  pivot ≠ up ∧
  (∀ y, y ∈ ia → y ≠ pivot ∧ y ≠ up ∧ (y ∉ ib) ∧ (y ∉ ic)) ∧
  (∀ y, y ∈ ib → y ≠ pivot ∧ y ≠ up ∧ (y ∉ ic)) ∧
  (∀ y, y ∈ ic → y ≠ pivot ∧ y ≠ up) ∧
  NoDup ia ∧ NoDup ib ∧ NoDup ic.
Proof.
  intros Hnd. apply NoDup_cons in Hnd as [Hp Hnd]. apply NoDup_cons in Hnd as [Hu Hnd].
  apply NoDup_app in Hnd as (Ha & Hab & Hnd). apply NoDup_app in Hnd as (Hb & Hbc & Hc).
  split_and!; auto.
  - intros ->. apply Hp. set_solver.
  - intros y Hy. split_and!.
    + intros ->. apply Hp. set_solver.
    + intros ->. apply Hu. set_solver.
    + intros Hyb. apply (Hab y Hy). set_solver.
    + intros Hyc. apply (Hab y Hy). set_solver.
  - intros y Hy. split_and!.
    + intros ->. apply Hp. set_solver.
    + intros ->. apply Hu. set_solver.
    + by apply Hbc.
  - intros y Hy. split_and!.
    + intros ->. apply Hp. set_solver.
    + intros ->. apply Hu. set_solver.
Qed.

Lemma root_of_elem m p t x : repr m p t x → x ≠ 0 → x ∈ inorder t ∧ is_Some (m !! x).
Proof.
  intros Hr Hx. destruct (repr_nonnull _ _ _ _ Hr Hx) as (l & a & c & r & ->).
  destruct Hr as (-> & _ & _ & n & Hn & _). split; [simpl; set_solver | eauto].
Qed.

(** The node at a position is given another colour. *)
Lemma recolor_tree m root above l x c c' r n :
  repr m NULL (plug above (Node l x c r)) root →
  NoDup (inorder (plug above (Node l x c r))) →
  m !! x = Some n →
  repr (<[x := mk_ph_node (Z.lor (__ph_parent (__ph_parent_color n)) (color_bit c'))
                (ph_right n) (ph_left n)]> m)
       NULL (plug above (Node l x c' r)) root.
Proof.
  intros Hr Hnd Hn. apply repr_plug in Hr as [Ha Ht].
  pose proof (repr_above_aligned _ _ _ _ Ha) as HaP.
  destruct (NoDup_plug _ _ Hnd) as (Hndt & _ & Hdisj).
  simpl in Ht. destruct Ht as (_ & Hx0 & Hxal & n' & Hn' & Hpc & Hl & Hrr).
  rewrite Hn in Hn'. injection Hn' as <-.
  simpl in Hndt. apply NoDup_app in Hndt as (_ & Hdl & Hndr).
  apply NoDup_cons in Hndr as (Hxr & _).
  apply repr_plug. split.
  - apply (repr_above_frame m); [| done].
    intros y Hy. rewrite lookup_insert_ne; [done |]. intros ->.
    apply (Hdisj y); [simpl; set_solver | done].
  - simpl. split_and!; auto. eexists. split; [by rewrite lookup_insert_eq |]. simpl.
    rewrite Hpc, parent_packed by done. split_and!; [done | |].
    + apply (repr_frame m); [| done]. intros y Hy. rewrite lookup_insert_ne; [done |].
      intros ->. apply (Hdl y Hy). set_solver.
    + apply (repr_frame m); [| done]. intros y Hy. rewrite lookup_insert_ne; [done |].
      by intros ->.
Qed.

Lemma inorder_plug_eq above t t' :
  inorder t = inorder t' → inorder (plug above t) = inorder (plug above t').
Proof. intros H. by rewrite !inorder_plug, H. Qed.

(** A rotation to the right at [pivot]: its left child [up] rises. *)
Lemma spec_rotate_right_tree m root calls above a up cu b pivot cp c c1 c2 cb :
  repr m NULL (plug above (Node (Node a up cu b) pivot cp c)) (ph_root_node root) →
  NoDup (inorder (plug above (Node (Node a up cu b) pivot cp c))) →
  ∃ m' root',
    spec_rotate Right pivot (color_bit c1) (color_bit c2) cb (mk_state m root calls) =
      Some (tt, mk_state m' root' (cb pivot up calls)) ∧
    repr m' NULL (plug above (Node a up c1 (Node b pivot c2 c))) (ph_root_node root') ∧
    (∀ y, y ∉ inorder (plug above (Node (Node a up cu b) pivot cp c)) → m' !! y = m !! y).
Proof.
  intros Hr Hnd. apply repr_plug in Hr as [Ha Ht].
  pose proof (repr_above_aligned _ _ _ _ Ha) as HaP.
  pose proof (repr_above_parent _ _ _ _ Ha) as HP.
  destruct (NoDup_plug _ _ Hnd) as (Hndt & Hnda & Hdisj).
  set (P := parent_above above) in *.
  cbn [root_of] in Ha.
  destruct Ht as (_ & Hp0 & Hpal & [pcp rp lp] & Hnp & Hpcp & Hl & Hrc).
  destruct Hl as (Hup & Hu0 & Hual & [pcu ru lu] & Hnu & Hpcu & Hla & Hlb).
  cbn [__ph_parent_color ph_left ph_right] in *. subst lp pcp pcu.
  assert (inorder (Node (Node a up cu b) pivot cp c) ≡ₚ
          pivot :: up :: inorder a ++ inorder b ++ inorder c) as Hperm.
  { simpl. solve_Permutation. }
  rewrite Hperm in Hndt.
  destruct (two_over_three_distinct _ _ _ _ _ Hndt) as (Hpu & Hia & Hib & Hic & Hnda' & Hndb & Hndc).
  assert (∀ y, y ∈ nodes_above above →
               y ≠ pivot ∧ y ≠ up ∧ (y ∉ inorder a) ∧ (y ∉ inorder b) ∧ (y ∉ inorder c)) as Hab.
  { intros y Hy.
    assert (∀ z, z ∈ pivot :: up :: inorder a ++ inorder b ++ inorder c → z ≠ y) as Hz.
    { intros z Hz ->. rewrite <- Hperm in Hz. by apply (Hdisj y). }
    split_and!; try (intros Hin; apply (Hz y); [set_solver | done]);
      intros ->; apply (Hz y); set_solver. }
  assert (ru ≠ 0 → ru ∈ inorder b ∧ is_Some (m !! ru)) as Hru.
  { intros Hz0. by apply (root_of_elem m up b). }
  assert (P ≠ 0 → P ∈ nodes_above above ∧ is_Some (m !! P)) as HP'.
  { intros Hz0. destruct HP as [[_ ?] | (_ & ? & ?)]; done. }
  destruct (run_spec_rotate_right pivot up ru P cp cu c1 c2 rp lu cb m root calls)
    as (m' & Hrun & Hmp & Hmu & Hmi & HmP & Hfr); auto.
  { intros Hz0. destruct (Hru Hz0) as [Hin ?]. destruct (Hib _ Hin) as (? & ? & _). done. }
  { intros Hz0. destruct (HP' Hz0) as [Hin ?]. destruct (Hab _ Hin) as (? & ? & _ & Hb & _).
    split_and!; auto. intros ->. destruct (Z.eq_dec ru 0) as [? | Hr0]; [done |].
    apply Hb. by apply Hru. }
  assert (∀ y, y ≠ pivot → y ≠ up → y ∉ inorder b → y ∉ nodes_above above →
               m' !! y = m !! y) as Hfr'.
  { intros y ? ? Hyb Hya. apply Hfr; auto.
    - intros Hz0 ->. apply Hyb. by apply Hru.
    - intros Hz0 ->. apply Hya. by apply HP'. }
  exists m', (if nonnull P then root else mk_ph_root up).
  split; [exact Hrun |]. split.
  - apply repr_plug. split.
    + cbn [root_of].
      replace (ph_root_node (if nonnull P then root else mk_ph_root up))
        with (if nonnull P then ph_root_node root else up) by (by destruct (nonnull P)).
      apply (repr_above_change m m' _ above pivot up); auto.
      * intros Hin. by destruct (Hab _ Hin) as (? & _).
      * intros y Hy HyP. destruct (Hab _ Hy) as (? & ? & _ & ? & _).
        apply Hfr; auto. intros Hz0 ->. destruct (Hru Hz0) as [? _]. done.
    + cbn [repr root_of]. fold P. split_and!; auto.
      eexists. split; [exact Hmu |]. cbn [__ph_parent_color ph_left ph_right].
      split_and!; auto.
      * apply (repr_frame m); [| done]. intros y Hy.
        destruct (Hia _ Hy) as (? & ? & ? & _). apply Hfr'; auto.
        intros Hin. destruct (Hab _ Hin) as (_ & _ & ? & _). done.
      * eexists. split; [exact Hmp |]. cbn [__ph_parent_color ph_left ph_right].
        split_and!; auto.
        -- apply (repr_reparent m m' up pivot b ru); auto.
           intros y Hy Hne. destruct (Hib _ Hy) as (? & ? & _). apply Hfr; auto.
           intros Hz0 ->. destruct (HP' Hz0) as [Hin _].
           destruct (Hab _ Hin) as (_ & _ & _ & ? & _). done.
        -- apply (repr_frame m); [| done]. intros y Hy.
           destruct (Hic _ Hy) as (? & ?). apply Hfr'; auto.
           ++ intros Hin. destruct (Hib _ Hin) as (_ & _ & ?). done.
           ++ intros Hin. destruct (Hab _ Hin) as (_ & _ & _ & _ & ?). done.
  - intros y Hy. rewrite elem_of_plug in Hy. apply Hfr'.
    + intros ->. apply Hy. left. simpl. set_solver.
    + intros ->. apply Hy. left. simpl. set_solver.
    + intros Hin. apply Hy. left. simpl. set_solver.
    + intros Hin. apply Hy. by right.
Qed.

(** A rotation to the left at [pivot]: its right child [up] rises. *)
Lemma spec_rotate_left_tree m root calls above a up cu b pivot cp c c1 c2 cb :
  repr m NULL (plug above (Node a pivot cp (Node b up cu c))) (ph_root_node root) →
  NoDup (inorder (plug above (Node a pivot cp (Node b up cu c)))) →
  ∃ m' root',
    spec_rotate Left pivot (color_bit c1) (color_bit c2) cb (mk_state m root calls) =
      Some (tt, mk_state m' root' (cb pivot up calls)) ∧
    repr m' NULL (plug above (Node (Node a pivot c2 b) up c1 c)) (ph_root_node root') ∧
    (∀ y, y ∉ inorder (plug above (Node a pivot cp (Node b up cu c))) → m' !! y = m !! y).
Proof.
  intros Hr Hnd. apply repr_plug in Hr as [Ha Ht].
  pose proof (repr_above_aligned _ _ _ _ Ha) as HaP.
  pose proof (repr_above_parent _ _ _ _ Ha) as HP.
  destruct (NoDup_plug _ _ Hnd) as (Hndt & Hnda & Hdisj).
  set (P := parent_above above) in *.
  cbn [root_of] in Ha.
  destruct Ht as (_ & Hp0 & Hpal & [pcp rp lp] & Hnp & Hpcp & Hla & Hrc).
  destruct Hrc as (Hup & Hu0 & Hual & [pcu ru lu] & Hnu & Hpcu & Hlb & Hlc).
  cbn [__ph_parent_color ph_left ph_right] in *. subst rp pcp pcu.
  assert (inorder (Node a pivot cp (Node b up cu c)) ≡ₚ
          pivot :: up :: inorder a ++ inorder b ++ inorder c) as Hperm.
  { simpl. solve_Permutation. }
  rewrite Hperm in Hndt.
  destruct (two_over_three_distinct _ _ _ _ _ Hndt) as (Hpu & Hia & Hib & Hic & Hnda' & Hndb & Hndc).
  assert (∀ y, y ∈ nodes_above above →
               y ≠ pivot ∧ y ≠ up ∧ (y ∉ inorder a) ∧ (y ∉ inorder b) ∧ (y ∉ inorder c)) as Hab.
  { intros y Hy.
    assert (∀ z, z ∈ pivot :: up :: inorder a ++ inorder b ++ inorder c → z ≠ y) as Hz.
    { intros z Hz ->. rewrite <- Hperm in Hz. by apply (Hdisj y). }
    split_and!; try (intros Hin; apply (Hz y); [set_solver | done]);
      intros ->; apply (Hz y); set_solver. }
  assert (lu ≠ 0 → lu ∈ inorder b ∧ is_Some (m !! lu)) as Hlu.
  { intros Hz0. by apply (root_of_elem m up b). }
  assert (P ≠ 0 → P ∈ nodes_above above ∧ is_Some (m !! P)) as HP'.
  { intros Hz0. destruct HP as [[_ ?] | (_ & ? & ?)]; done. }
  destruct (run_spec_rotate_left pivot up lu P cp cu c1 c2 lp ru cb m root calls)
    as (m' & Hrun & Hmp & Hmu & Hmi & HmP & Hfr); auto.
  { intros Hz0. destruct (Hlu Hz0) as [Hin ?]. destruct (Hib _ Hin) as (? & ? & _). done. }
  { intros Hz0. destruct (HP' Hz0) as [Hin ?]. destruct (Hab _ Hin) as (? & ? & _ & Hb & _).
    split_and!; auto. intros ->. destruct (Z.eq_dec lu 0) as [? | Hr0]; [done |].
    apply Hb. by apply Hlu. }
  assert (∀ y, y ≠ pivot → y ≠ up → y ∉ inorder b → y ∉ nodes_above above →
               m' !! y = m !! y) as Hfr'.
  { intros y ? ? Hyb Hya. apply Hfr; auto.
    - intros Hz0 ->. apply Hyb. by apply Hlu.
    - intros Hz0 ->. apply Hya. by apply HP'. }
  exists m', (if nonnull P then root else mk_ph_root up).
  split; [exact Hrun |]. split.
  - apply repr_plug. split.
    + cbn [root_of].
      replace (ph_root_node (if nonnull P then root else mk_ph_root up))
        with (if nonnull P then ph_root_node root else up) by (by destruct (nonnull P)).
      apply (repr_above_change m m' _ above pivot up); auto.
      * intros Hin. by destruct (Hab _ Hin) as (? & _).
      * intros y Hy HyP. destruct (Hab _ Hy) as (? & ? & _ & ? & _).
        apply Hfr; auto. intros Hz0 ->. destruct (Hlu Hz0) as [? _]. done.
    + cbn [repr root_of]. fold P. split_and!; auto.
      eexists. split; [exact Hmu |]. cbn [__ph_parent_color ph_left ph_right].
      split_and!; auto.
      * eexists. split; [exact Hmp |]. cbn [__ph_parent_color ph_left ph_right].
        split_and!; auto.
        -- apply (repr_frame m); [| done]. intros y Hy.
           destruct (Hia _ Hy) as (? & ? & ? & _). apply Hfr'; auto.
           intros Hin. destruct (Hab _ Hin) as (_ & _ & ? & _). done.
        -- apply (repr_reparent m m' up pivot b lu); auto.
           intros y Hy Hne. destruct (Hib _ Hy) as (? & ? & _). apply Hfr; auto.
           intros Hz0 ->. destruct (HP' Hz0) as [Hin _].
           destruct (Hab _ Hin) as (_ & _ & _ & ? & _). done.
      * apply (repr_frame m); [| done]. intros y Hy.
        destruct (Hic _ Hy) as (? & ?). apply Hfr'; auto.
        -- intros Hin. destruct (Hib _ Hin) as (_ & _ & ?). done.
        -- intros Hin. destruct (Hab _ Hin) as (_ & _ & _ & _ & ?). done.
  - intros y Hy. rewrite elem_of_plug in Hy. apply Hfr'.
    + intros ->. apply Hy. left. simpl. set_solver.
    + intros ->. apply Hy. left. simpl. set_solver.
    + intros Hin. apply Hy. left. simpl. set_solver.
    + intros Hin. apply Hy. by right.
Qed.

(** ** The insert fixup, on trees *)

Lemma bh_red l a r : bh (Node l a Red r) = bh l.
Proof. simpl. lia. Qed.

Lemma bh_black l a r : bh (Node l a Black r) = S (bh l).
Proof. simpl. lia. Qed.

(** The colour flips of case 1, the parent being on the left. *)
Lemma recolor_three_left {B} m root calls above pl p cp pr g cg ul ua cu ur c1 c2 c3
    (k : unit → M B) :
  repr m NULL (plug above (Node (Node pl p cp pr) g cg (Node ul ua cu ur))) (ph_root_node root) →
  NoDup (inorder (plug above (Node (Node pl p cp pr) g cg (Node ul ua cu ur)))) →
  ∃ m3,
    bind (spec_set_color p (color_bit c1))
         (λ _, bind (spec_set_color ua (color_bit c2))
                    (λ _, bind (spec_set_color g (color_bit c3)) k))
         (mk_state m root calls) = k tt (mk_state m3 root calls) ∧
    repr m3 NULL (plug above (Node (Node pl p c1 pr) g c3 (Node ul ua c2 ur))) (ph_root_node root) ∧
    (∀ y, y ≠ p → y ≠ ua → y ≠ g → m3 !! y = m !! y).
Proof.
  intros Hr Hnd.
  assert (∃ np nu ng, m !! p = Some np ∧ m !! ua = Some nu ∧ m !! g = Some ng)
    as (np & nu & ng & Hnp & Hnu & Hng).
  { apply repr_plug in Hr as [_ Ht].
    destruct Ht as (_ & _ & _ & ng & Hng & _ & Hl & Hrr).
    destruct Hl as (_ & _ & _ & np & Hnp & _). destruct Hrr as (_ & _ & _ & nu & Hnu & _).
    eauto 10. }
  assert (p ≠ ua ∧ p ≠ g ∧ ua ≠ g) as (Hpu & Hpg & Hug).
  { apply NoDup_plug in Hnd as (Hndt & _). simpl in Hndt.
    apply NoDup_app in Hndt as (_ & Hd & Hndr). apply NoDup_cons in Hndr as (Hg & _).
    split_and!.
    - intros ->. apply (Hd ua); set_solver.
    - intros ->. apply (Hd g); set_solver.
    - intros ->. apply Hg. set_solver. }
  eexists. split.
  { rewrite (bind_spec_set_color _ _ _ _ _ _ np Hnp).
    rewrite (bind_spec_set_color _ _ _ _ _ _ nu) by (by rewrite lookup_insert_ne).
    rewrite (bind_spec_set_color _ _ _ _ _ _ ng) by (by rewrite !lookup_insert_ne).
    reflexivity. }
  split; [| intros y ? ? ?; by rewrite !lookup_insert_ne].
  apply (recolor_tree _ (ph_root_node root) above (Node pl p c1 pr) g cg c3 (Node ul ua c2 ur) ng).
  - apply (recolor_tree _ (ph_root_node root) (below_right (Node pl p c1 pr) g cg :: above) ul ua cu c2 ur nu).
    + apply (recolor_tree m (ph_root_node root) (below_left g cg (Node ul ua cu ur) :: above) pl p cp c1 pr np);
        done.
    + cbn [plug fill]. by rewrite (inorder_plug_eq above _ (Node (Node pl p cp pr) g cg (Node ul ua cu ur))).
    + by rewrite lookup_insert_ne.
  - by rewrite (inorder_plug_eq above _ (Node (Node pl p cp pr) g cg (Node ul ua cu ur))).
  - by rewrite !lookup_insert_ne.
Qed.

(** The same, the parent being on the right. *)
Lemma recolor_three_right {B} m root calls above pl p cp pr g cg ul ua cu ur c1 c2 c3
    (k : unit → M B) :
  repr m NULL (plug above (Node (Node ul ua cu ur) g cg (Node pl p cp pr))) (ph_root_node root) →
  NoDup (inorder (plug above (Node (Node ul ua cu ur) g cg (Node pl p cp pr)))) →
  ∃ m3,
    bind (spec_set_color p (color_bit c1))
         (λ _, bind (spec_set_color ua (color_bit c2))
                    (λ _, bind (spec_set_color g (color_bit c3)) k))
         (mk_state m root calls) = k tt (mk_state m3 root calls) ∧
    repr m3 NULL (plug above (Node (Node ul ua c2 ur) g c3 (Node pl p c1 pr))) (ph_root_node root) ∧
    (∀ y, y ≠ p → y ≠ ua → y ≠ g → m3 !! y = m !! y).
Proof.
  intros Hr Hnd.
  assert (∃ np nu ng, m !! p = Some np ∧ m !! ua = Some nu ∧ m !! g = Some ng)
    as (np & nu & ng & Hnp & Hnu & Hng).
  { apply repr_plug in Hr as [_ Ht].
    destruct Ht as (_ & _ & _ & ng & Hng & _ & Hl & Hrr).
    destruct Hl as (_ & _ & _ & nu & Hnu & _). destruct Hrr as (_ & _ & _ & np & Hnp & _).
    eauto 10. }
  assert (p ≠ ua ∧ p ≠ g ∧ ua ≠ g) as (Hpu & Hpg & Hug).
  { apply NoDup_plug in Hnd as (Hndt & _). simpl in Hndt.
    apply NoDup_app in Hndt as (_ & Hd & Hndr). apply NoDup_cons in Hndr as (Hg & _).
    split_and!.
    - intros ->. apply (Hd ua); set_solver.
    - intros ->. apply Hg. set_solver.
    - intros ->. apply (Hd g); set_solver. }
  eexists. split.
  { rewrite (bind_spec_set_color _ _ _ _ _ _ np Hnp).
    rewrite (bind_spec_set_color _ _ _ _ _ _ nu) by (by rewrite lookup_insert_ne).
    rewrite (bind_spec_set_color _ _ _ _ _ _ ng) by (by rewrite !lookup_insert_ne).
    reflexivity. }
  split; [| intros y ? ? ?; by rewrite !lookup_insert_ne].
  apply (recolor_tree _ (ph_root_node root) above (Node ul ua c2 ur) g cg c3 (Node pl p c1 pr) ng).
  - apply (recolor_tree _ (ph_root_node root) (below_left g cg (Node pl p c1 pr) :: above) ul ua cu c2 ur nu).
    + apply (recolor_tree m (ph_root_node root) (below_right (Node ul ua cu ur) g cg :: above) pl p cp c1 pr np);
        done.
    + cbn [plug fill]. by rewrite (inorder_plug_eq above _ (Node (Node ul ua cu ur) g cg (Node pl p cp pr))).
    + by rewrite lookup_insert_ne.
  - by rewrite (inorder_plug_eq above _ (Node (Node ul ua cu ur) g cg (Node pl p cp pr))).
  - by rewrite !lookup_insert_ne.
Qed.

Lemma path_ok_eq above h h' : path_ok above h → h = h' → path_ok above h'.
Proof. by intros H <-. Qed.

Lemma root_of_not_elem t x : x ≠ 0 → x ∉ inorder t → root_of t ≠ x.
Proof.
  intros Hx Hn. destruct t as [| l a c r]; [simpl; unfold NULL; congruence |].
  simpl in *. intros ->. apply Hn. set_solver.
Qed.

Lemma uncle_red_eval m root calls g u x :
  repr m g u x → aligned g →
  (if nonnull x then rd (λ m, ph_is_red m x) else ret false) (mk_state m root calls) =
  Some (match color_of u with Red => true | Black => false end, mk_state m root calls).
Proof.
  intros Hr Hg. destruct u as [| l a c r]; simpl in Hr.
  - by subst x.
  - destruct Hr as (-> & Ha0 & _ & n & Hn & Hpc & _). rewrite nonnull_true by done.
    unfold rd, ph_is_red. simpl. rewrite Hn. simpl. rewrite Hpc, is_red_packed by done.
    by destruct c.
Qed.

Ltac io_norm :=
  simpl; repeat first [ rewrite <- app_assoc | rewrite <- app_comm_cons ]; reflexivity.

Ltac rb_side :=
  cbn [bh balanced no_red_red color_of is_black color_above];
  repeat split; auto; try lia; try congruence; try done.

Lemma spec_insert_fixup_linked cb fuel :
  ∀ above l node r m root calls,
    repr m NULL (plug above (Node l node Red r)) (ph_root_node root) →
    NoDup (inorder (plug above (Node l node Red r))) →
    path_ok above (bh (Node l node Red r)) →
    balanced (Node l node Red r) → no_red_red (Node l node Red r) →
    (length above < fuel)%nat →
    ∃ m' root' calls' t',
      spec_insert_fixup fuel cb node (mk_state m root calls) =
        Some (tt, mk_state m' root' calls') ∧
      repr m' NULL t' (ph_root_node root') ∧
      inorder t' = inorder (plug above (Node l node Red r)) ∧
      root_black t' ∧ no_red_red t' ∧ balanced t' ∧
      (∀ y, y ∉ inorder (plug above (Node l node Red r)) → m' !! y = m !! y).
Proof.
  induction fuel as [| fuel IH];
    intros above l node r m root calls Hr Hnd Hpath0 Hbal0 Hnrr0 Hlen; [lia |].
  pose proof Hpath0 as Hpath. rewrite bh_red in Hpath.
  pose proof Hbal0 as (Hbl & Hbr & Hbh). pose proof Hnrr0 as (Hcc & Hnl & Hnr).
  destruct Hcc as [Hcl Hcr]; [done |].
  pose proof Hr as Hr0. apply repr_plug in Hr0 as [Ha Hs]. cbn [root_of] in Ha, Hs.
  pose proof (repr_above_aligned _ _ _ _ Ha) as HaP.
  pose proof (ph_parent_repr _ _ _ _ _ _ _ HaP Hs) as Hpar.
  pose proof Hs as (_ & Hn0 & Hnal & nn & Hnn & Hpcn & Hsl & Hsr).
  destruct (NoDup_plug _ _ Hnd) as (Hnds & Hnda & Hdisj).
  cbn [spec_insert_fixup]. rewrite (bind_rd _ _ _ _ _ _ Hpar).
  destruct above as [| f1 above1].
  { (* the node is the root *)
    cbn [parent_above]. change (negb (nonnull NULL)) with true. cbv iota.
    change ph_BLACK with (color_bit Black).
    rewrite (run_spec_set_color _ _ _ _ _ nn Hnn).
    eexists _, root, calls, (Node l node Black r). split; [reflexivity |].
    split; [apply (recolor_tree m _ [] l node Red Black r nn); done |].
    split; [done |]. split; [done |]. split; [rb_side |]. split; [rb_side |].
    intros y Hy. rewrite lookup_insert_ne; [done |]. intros ->. apply Hy. simpl. set_solver. }
  assert (color_above (f1 :: above1) = Black →
          root_black (plug (f1 :: above1) (Node l node Red r)) ∧
          no_red_red (plug (f1 :: above1) (Node l node Red r)) ∧
          balanced (plug (f1 :: above1) (Node l node Red r))) as Hblack.
  { intros Hc. apply plug_rb; auto. rewrite Hc. done. }
  destruct f1 as [p cp s | s p cp]; cbn [parent_above] in *;
    destruct Ha as (Hp0 & Hpal & np & Hnp & Hpcp & Hpch & Hps & Ha1);
    cbn [path_ok] in Hpath; destruct Hpath as (Hbs & Hhs & Hns & Hcs & Hpath1);
    pose proof (repr_above_aligned _ _ _ _ Ha1) as HaG;
    rewrite nonnull_true by done; cbn [negb];
    (erewrite bind_rd by (unfold ph_is_black; rewrite Hnp; simpl;
                          rewrite Hpcp, is_black_packed by done; reflexivity));
    destruct cp;
    try (rewrite run_ret; destruct Hblack as (? & ? & ?); [done |];
         by eexists m, root, calls, _).
  - (* the node is a left child, under a RED parent *)
    destruct Hcs as [Hsblack Hgblack]; [done |].
    destruct above1 as [| f2 above2]; [done |].
    assert (node ∉ inorder s) as Hns'.
    { intros Hin. apply (Hdisj node); [simpl; set_solver |].
      rewrite nodes_above_left. set_solver. }
    assert (ph_right np ≠ node) as Hrn.
    { rewrite (repr_root_of _ _ _ _ Hps). by apply root_of_not_elem. }
    destruct f2 as [g cg u | u g cg]; cbn [color_above] in Hgblack; subst cg;
      cbn [parent_above] in *;
      destruct Ha1 as (Hg0 & Hgal & ng & Hng & Hpcg & Hgch & Hgu & Ha2);
      cbn [path_ok] in Hpath1; destruct Hpath1 as (Hbu & Hhu & Hnu & _ & Hpath2);
      cbn [is_black] in Hhu, Hpath2;
      (erewrite bind_rd by (unfold ph_parent; rewrite Hnp; simpl;
                            rewrite Hpcp, parent_packed by done; reflexivity));
      rewrite (bind_get_left _ _ _ _ _ _ Hng).
    + (* the parent is a left child *)
      rewrite Hgch, Z.eqb_refl. cbn [opposite get_child].
      rewrite (bind_get_right _ _ _ _ _ _ Hng).
      rewrite (bind_run _ _ _ _ _ (uncle_red_eval _ _ _ _ _ _ Hgu Hgal)).
      destruct (color_of u) eqn:Hcu.
      * (* case 1 *)
        destruct u as [| ul ua cu ur]; [done |]. simpl in Hcu. subst cu.
        pose proof Hgu as (Hua & _). rewrite Hua.
        change ph_BLACK with (color_bit Black). change ph_RED with (color_bit Red).
        destruct (recolor_three_left m root calls above2 (Node l node Red r) p Red s g Black
                    ul ua Red ur Black Black Red
                    (λ _, spec_insert_fixup fuel cb g))
          as (m3 & Hrun & Hr3 & Hfr3); [exact Hr | exact Hnd |].
        rewrite Hrun.
        destruct (IH above2 (Node (Node l node Red r) p Black s) g
                     (Node ul ua Black ur) m3 root calls)
          as (m' & root' & calls' & t' & Hrun' & Hr' & Hio & Hrb1 & Hrb2 & Hrb3 & Hfr');
          [exact Hr3 | | | | | simpl in Hlen; lia |].
        { by rewrite (inorder_plug_eq above2 _
                        (Node (Node (Node l node Red r) p Red s) g Black
                              (Node ul ua Red ur))). }
        { apply (path_ok_eq _ _ _ Hpath2). simpl. lia. }
        { destruct Hbu as (? & ? & ?). simpl in Hhu. rb_side. }
        { destruct Hnu as (_ & ? & ?). rb_side. }
        rewrite (inorder_plug_eq above2 _
                   (Node (Node (Node l node Red r) p Red s) g Black (Node ul ua Red ur)))
          in Hio, Hfr' by done.
        exists m', root', calls', t'. split; [exact Hrun' |]. split; [exact Hr' |].
        split; [exact Hio |]. split_and!; auto.
        intros y Hy. rewrite Hfr' by exact Hy.
        apply Hfr3; intros ->; apply Hy; cbn [plug fill]; rewrite elem_of_plug; left;
          simpl; set_solver.
      * (* case 3 *)
        cbv iota. rewrite (bind_get_right _ _ _ _ _ _ Hnp).
        apply Z.eqb_neq in Hrn. rewrite Z.eqb_sym, Hrn. rewrite bind_ret.
        destruct (spec_rotate_right_tree m root calls above2 (Node l node Red r) p Red s
                    g Black u Black Red cb)
          as (m' & root' & Hrun & Hr' & Hfr'); [exact Hr | exact Hnd |].
        exists m', root', (cb g p calls),
          (plug above2 (Node (Node l node Red r) p Black (Node s g Red u))).
        split; [exact Hrun |]. split; [exact Hr' |]. cbn [plug fill].
        split; [apply inorder_plug_eq; io_norm |].
        destruct (plug_rb above2 (Node (Node l node Red r) p Black (Node s g Red u)))
          as (? & ? & ?);
          [apply (path_ok_eq _ _ _ Hpath2); simpl; lia | rb_side | rb_side | rb_side |].
        split_and!; auto.
    + (* the parent is a right child *)
      assert (ph_left ng ≠ p) as Hlp.
      { rewrite (repr_root_of _ _ _ _ Hgu). apply root_of_not_elem; [done |].
        rewrite nodes_above_left in Hnda. apply NoDup_cons in Hnda as [Hp _].
        intros Hin. apply Hp. rewrite nodes_above_right. set_solver. }
      apply Z.eqb_neq in Hlp. rewrite Hlp. cbn [opposite get_child].
      rewrite (bind_get_left _ _ _ _ _ _ Hng).
      rewrite (bind_run _ _ _ _ _ (uncle_red_eval _ _ _ _ _ _ Hgu Hgal)).
      destruct (color_of u) eqn:Hcu.
      * (* case 1 *)
        destruct u as [| ul ua cu ur]; [done |]. simpl in Hcu. subst cu.
        pose proof Hgu as (Hua & _). rewrite Hua.
        change ph_BLACK with (color_bit Black). change ph_RED with (color_bit Red).
        destruct (recolor_three_right m root calls above2 (Node l node Red r) p Red s g Black
                    ul ua Red ur Black Black Red
                    (λ _, spec_insert_fixup fuel cb g))
          as (m3 & Hrun & Hr3 & Hfr3); [exact Hr | exact Hnd |].
        rewrite Hrun.
        destruct (IH above2 (Node ul ua Black ur) g
                     (Node (Node l node Red r) p Black s) m3 root calls)
          as (m' & root' & calls' & t' & Hrun' & Hr' & Hio & Hrb1 & Hrb2 & Hrb3 & Hfr');
          [exact Hr3 | | | | | simpl in Hlen; lia |].
        { by rewrite (inorder_plug_eq above2 _
                        (Node (Node ul ua Red ur) g Black
                              (Node (Node l node Red r) p Red s))). }
        { apply (path_ok_eq _ _ _ Hpath2). simpl in *. lia. }
        { destruct Hbu as (? & ? & ?). simpl in Hhu. rb_side. }
        { destruct Hnu as (_ & ? & ?). rb_side. }
        rewrite (inorder_plug_eq above2 _
                   (Node (Node ul ua Red ur) g Black (Node (Node l node Red r) p Red s)))
          in Hio, Hfr' by done.
        exists m', root', calls', t'. split; [exact Hrun' |]. split; [exact Hr' |].
        split; [exact Hio |]. split_and!; auto.
        intros y Hy. rewrite Hfr' by exact Hy.
        apply Hfr3; intros ->; apply Hy; cbn [plug fill]; rewrite elem_of_plug; left;
          simpl; set_solver.
      * (* case 2, then case 3 *)
        cbv iota. rewrite (bind_get_left _ _ _ _ _ _ Hnp). rewrite Hpch, Z.eqb_refl.
        change ph_BLACK with (color_bit Black). change ph_RED with (color_bit Red).
        destruct (spec_rotate_right_tree m root calls (below_right u g Black :: above2)
                    l node Red r p Red s Red Red cb)
          as (m1 & root1 & Hrun1 & Hr1 & Hfr1); [exact Hr | exact Hnd |].
        rewrite (bind_run _ _ _ _ _ Hrun1).
        cbn [plug fill] in Hr1, Hfr1.
        destruct (spec_rotate_left_tree m1 root1 (cb p node calls) above2
                    u node Red l g Black (Node r p Red s) Black Red cb)
          as (m' & root' & Hrun & Hr' & Hfr'); [exact Hr1 | |].
        { rewrite (inorder_plug_eq above2 _
                     (Node u g Black (Node (Node l node Red r) p Red s))); [exact Hnd |].
          io_norm. }
        exists m', root', (cb g node (cb p node calls)),
          (plug above2 (Node (Node u g Red l) node Black (Node r p Red s))).
        split; [exact Hrun |]. split; [exact Hr' |]. cbn [plug fill].
        split; [apply inorder_plug_eq; io_norm |].
        destruct (plug_rb above2 (Node (Node u g Red l) node Black (Node r p Red s)))
          as (? & ? & ?);
          [apply (path_ok_eq _ _ _ Hpath2); simpl; lia | rb_side | rb_side | rb_side |].
        split_and!; auto.
        intros y Hy. rewrite Hfr'.
        -- apply Hfr1. exact Hy.
        -- intros Hin. apply Hy. revert Hin. rewrite !elem_of_plug. simpl. set_solver.
  - (* the node is a right child, under a RED parent *)
    destruct Hcs as [Hsblack Hgblack]; [done |].
    destruct above1 as [| f2 above2]; [done |].
    assert (node ∉ inorder s) as Hns'.
    { intros Hin. apply (Hdisj node); [simpl; set_solver |].
      rewrite nodes_above_right. set_solver. }
    assert (ph_left np ≠ node) as Hln.
    { rewrite (repr_root_of _ _ _ _ Hps). by apply root_of_not_elem. }
    destruct f2 as [g cg u | u g cg]; cbn [color_above] in Hgblack; subst cg;
      cbn [parent_above] in *;
      destruct Ha1 as (Hg0 & Hgal & ng & Hng & Hpcg & Hgch & Hgu & Ha2);
      cbn [path_ok] in Hpath1; destruct Hpath1 as (Hbu & Hhu & Hnu & _ & Hpath2);
      cbn [is_black] in Hhu, Hpath2;
      (erewrite bind_rd by (unfold ph_parent; rewrite Hnp; simpl;
                            rewrite Hpcp, parent_packed by done; reflexivity));
      rewrite (bind_get_left _ _ _ _ _ _ Hng).
    + (* the parent is a left child *)
      rewrite Hgch, Z.eqb_refl. cbn [opposite get_child].
      rewrite (bind_get_right _ _ _ _ _ _ Hng).
      rewrite (bind_run _ _ _ _ _ (uncle_red_eval _ _ _ _ _ _ Hgu Hgal)).
      destruct (color_of u) eqn:Hcu.
      * (* case 1 *)
        destruct u as [| ul ua cu ur]; [done |]. simpl in Hcu. subst cu.
        pose proof Hgu as (Hua & _). rewrite Hua.
        change ph_BLACK with (color_bit Black). change ph_RED with (color_bit Red).
        destruct (recolor_three_left m root calls above2 s p Red (Node l node Red r) g Black
                    ul ua Red ur Black Black Red
                    (λ _, spec_insert_fixup fuel cb g))
          as (m3 & Hrun & Hr3 & Hfr3); [exact Hr | exact Hnd |].
        rewrite Hrun.
        destruct (IH above2 (Node s p Black (Node l node Red r)) g
                     (Node ul ua Black ur) m3 root calls)
          as (m' & root' & calls' & t' & Hrun' & Hr' & Hio & Hrb1 & Hrb2 & Hrb3 & Hfr');
          [exact Hr3 | | | | | simpl in Hlen; lia |].
        { by rewrite (inorder_plug_eq above2 _
                        (Node (Node s p Red (Node l node Red r)) g Black
                              (Node ul ua Red ur))). }
        { apply (path_ok_eq _ _ _ Hpath2). simpl in *. lia. }
        { destruct Hbu as (? & ? & ?). simpl in Hhu. rb_side. }
        { destruct Hnu as (_ & ? & ?). rb_side. }
        rewrite (inorder_plug_eq above2 _
                   (Node (Node s p Red (Node l node Red r)) g Black (Node ul ua Red ur)))
          in Hio, Hfr' by done.
        exists m', root', calls', t'. split; [exact Hrun' |]. split; [exact Hr' |].
        split; [exact Hio |]. split_and!; auto.
        intros y Hy. rewrite Hfr' by exact Hy.
        apply Hfr3; intros ->; apply Hy; cbn [plug fill]; rewrite elem_of_plug; left;
          simpl; set_solver.
      * (* case 2, then case 3 *)
        cbv iota. rewrite (bind_get_right _ _ _ _ _ _ Hnp). rewrite Hpch, Z.eqb_refl.
        change ph_BLACK with (color_bit Black). change ph_RED with (color_bit Red).
        destruct (spec_rotate_left_tree m root calls (below_left g Black u :: above2)
                    s node Red l p Red r Red Red cb)
          as (m1 & root1 & Hrun1 & Hr1 & Hfr1); [exact Hr | exact Hnd |].
        rewrite (bind_run _ _ _ _ _ Hrun1).
        cbn [plug fill] in Hr1, Hfr1.
        destruct (spec_rotate_right_tree m1 root1 (cb p node calls) above2
                    (Node s p Red l) node Red r g Black u Black Red cb)
          as (m' & root' & Hrun & Hr' & Hfr'); [exact Hr1 | |].
        { rewrite (inorder_plug_eq above2 _
                     (Node (Node s p Red (Node l node Red r)) g Black u)); [exact Hnd |].
          io_norm. }
        exists m', root', (cb g node (cb p node calls)),
          (plug above2 (Node (Node s p Red l) node Black (Node r g Red u))).
        split; [exact Hrun |]. split; [exact Hr' |]. cbn [plug fill].
        split; [apply inorder_plug_eq; io_norm |].
        destruct (plug_rb above2 (Node (Node s p Red l) node Black (Node r g Red u)))
          as (? & ? & ?);
          [apply (path_ok_eq _ _ _ Hpath2); simpl; lia | rb_side | rb_side | rb_side |].
        split_and!; auto.
        intros y Hy. rewrite Hfr'.
        -- apply Hfr1. exact Hy.
        -- intros Hin. apply Hy. revert Hin. rewrite !elem_of_plug. simpl. set_solver.
    + (* the parent is a right child *)
      assert (ph_left ng ≠ p) as Hlp.
      { rewrite (repr_root_of _ _ _ _ Hgu). apply root_of_not_elem; [done |].
        rewrite nodes_above_right in Hnda. apply NoDup_cons in Hnda as [Hp _].
        intros Hin. apply Hp. rewrite nodes_above_right. set_solver. }
      apply Z.eqb_neq in Hlp. rewrite Hlp. cbn [opposite get_child].
      rewrite (bind_get_left _ _ _ _ _ _ Hng).
      rewrite (bind_run _ _ _ _ _ (uncle_red_eval _ _ _ _ _ _ Hgu Hgal)).
      destruct (color_of u) eqn:Hcu.
      * (* case 1 *)
        destruct u as [| ul ua cu ur]; [done |]. simpl in Hcu. subst cu.
        pose proof Hgu as (Hua & _). rewrite Hua.
        change ph_BLACK with (color_bit Black). change ph_RED with (color_bit Red).
        destruct (recolor_three_right m root calls above2 s p Red (Node l node Red r) g Black
                    ul ua Red ur Black Black Red
                    (λ _, spec_insert_fixup fuel cb g))
          as (m3 & Hrun & Hr3 & Hfr3); [exact Hr | exact Hnd |].
        rewrite Hrun.
        destruct (IH above2 (Node ul ua Black ur) g
                     (Node s p Black (Node l node Red r)) m3 root calls)
          as (m' & root' & calls' & t' & Hrun' & Hr' & Hio & Hrb1 & Hrb2 & Hrb3 & Hfr');
          [exact Hr3 | | | | | simpl in Hlen; lia |].
        { by rewrite (inorder_plug_eq above2 _
                        (Node (Node ul ua Red ur) g Black
                              (Node s p Red (Node l node Red r)))). }
        { apply (path_ok_eq _ _ _ Hpath2). simpl in *. lia. }
        { destruct Hbu as (? & ? & ?). simpl in Hhu. rb_side. }
        { destruct Hnu as (_ & ? & ?). rb_side. }
        rewrite (inorder_plug_eq above2 _
                   (Node (Node ul ua Red ur) g Black (Node s p Red (Node l node Red r))))
          in Hio, Hfr' by done.
        exists m', root', calls', t'. split; [exact Hrun' |]. split; [exact Hr' |].
        split; [exact Hio |]. split_and!; auto.
        intros y Hy. rewrite Hfr' by exact Hy.
        apply Hfr3; intros ->; apply Hy; cbn [plug fill]; rewrite elem_of_plug; left;
          simpl; set_solver.
      * (* case 3 *)
        cbv iota. rewrite (bind_get_left _ _ _ _ _ _ Hnp).
        apply Z.eqb_neq in Hln. rewrite Z.eqb_sym, Hln. rewrite bind_ret.
        change ph_BLACK with (color_bit Black). change ph_RED with (color_bit Red).
        destruct (spec_rotate_left_tree m root calls above2 u p Red s
                    g Black (Node l node Red r) Black Red cb)
          as (m' & root' & Hrun & Hr' & Hfr'); [exact Hr | exact Hnd |].
        exists m', root', (cb g p calls),
          (plug above2 (Node (Node u g Red s) p Black (Node l node Red r))).
        split; [exact Hrun |]. split; [exact Hr' |]. cbn [plug fill].
        split; [apply inorder_plug_eq; io_norm |].
        destruct (plug_rb above2 (Node (Node u g Red s) p Black (Node l node Red r)))
          as (? & ? & ?);
          [apply (path_ok_eq _ _ _ Hpath2); simpl; lia | rb_side | rb_side | rb_side |].
        split_and!; auto.
Qed.

Lemma leaf_linked_plug node t0 t :
  leaf_linked node t0 t →
  ∃ above, t0 = plug above Leaf ∧ t = plug above (Node Leaf node Red Leaf).
Proof.
  induction 1 as [| l l' a c r _ (above & -> & ->) | l a c r r' _ (above & -> & ->)].
  - by exists [].
  - exists (above ++ [below_left a c r]). by rewrite !plug_app.
  - exists (above ++ [below_right l a c]). by rewrite !plug_app.
Qed.

Lemma height_plug above t : (length above + height t ≤ height (plug above t))%nat.
Proof.
  revert t. induction above as [| f above IH]; intros t; [simpl; lia |].
  cbn [plug length]. specialize (IH (fill f t)). destruct f; simpl in *; lia.
Qed.

Lemma sorted_bst (key : Z → Z) t :
  StronglySorted (λ x y, key x < key y) (inorder t) → bst key t.
Proof.
  induction t as [| l IHl a c r IHr]; simpl; [done |].
  intros Hs. pose proof Hs as Hs'.
  apply StronglySorted_app in Hs' as (_ & Hl & Har).
  apply StronglySorted_inv in Har as [Hr Hall]. rewrite Forall_forall in Hall.
  split_and!; auto.
  intros x Hx. apply (sorted_lt key _ _ x a Hs); set_solver.
Qed.

(** A RED leaf linked into a red-black tree: [__ph_insert] returns, and it
    leaves a red-black tree with the same nodes in the same order. *)
Lemma insert_rebalances m root calls t0 t node cb fuel :
  is_rb t0 → leaf_linked node t0 t → linked m root t → (height t ≤ fuel)%nat →
  ∃ m' root' calls' t',
    __ph_insert fuel node cb (mk_state m root calls) = Some (tt, mk_state m' root' calls') ∧
    linked m' root' t' ∧ is_rb t' ∧ inorder t' = inorder t ∧
    (∀ y, y ∉ inorder t → m' !! y = m !! y).
Proof.
  intros Hrb0 Hll Hlk Hfuel.
  pose proof Hrb0 as (Hrb & Hnrr & _).
  pose proof (linked_fixup_inv m root calls _ _ _ Hlk Hll Hrb Hnrr) as Hinv.
  destruct (fi_red _ _ _ _ Hinv) as (q & l & r & Hn). simpl in Hn.
  destruct (insert_loop_refines fuel cb _ _ _ _ _ _ _ Hinv Hn) as [Heq _].
  assert (__ph_insert fuel node cb (mk_state m root calls) =
          __ph_insert_loop fuel cb node q (mk_state m root calls)) as Hstart.
  { unfold __ph_insert. destruct Hn as [Hqa Hn]. run. done. }
  rewrite Hstart, Heq. clear Hstart Heq Hinv Hn.
  destruct (leaf_linked_plug _ _ _ Hll) as (above & -> & ->).
  apply is_rb_iff in Hrb0 as (Hr1 & Hr2 & Hr3).
  destruct (rb_plug _ _ Hr1 Hr2 Hr3) as (Hpath & _).
  destruct Hlk as [Hrepr Hnd].
  destruct (spec_insert_fixup_linked cb fuel above Leaf node Leaf m root calls)
    as (m' & root' & calls' & t' & Hrun & Hr' & Hio & Hb1 & Hb2 & Hb3 & Hfr); auto.
  - simpl. done.
  - simpl. done.
  - pose proof (height_plug above (Node Leaf node Red Leaf)). simpl in *. lia.
  - exists m', root', calls', t'. split; [exact Hrun |]. split_and!; auto.
    + split; [done |]. by rewrite Hio.
    + by apply is_rb_iff.
Qed.

(** The insert fixup: when [node] has been linked as a RED leaf into a
    red-black tree, [__ph_insert] returns within height-many rounds and
    leaves a red-black tree that holds the same nodes in the same order, so
    that a search tree stays a search tree; nodes outside the tree are not
    written. *)
Theorem __ph_insert_rebalances (s : ph_state) (t0 t : tree) (node : Z) (cb : callback)
    (fuel : nat) :
  is_rb t0 → leaf_linked node t0 t → linked (st_store s) (st_root s) t →
  (height t ≤ fuel)%nat →
  ∃ s' t',
    __ph_insert fuel node cb s = Some (tt, s') ∧
    linked (st_store s') (st_root s') t' ∧ is_rb t' ∧
    inorder t' = inorder t ∧
    (∀ key, bst key t → bst key t') ∧
    (∀ y, y ∉ inorder t → st_store s' !! y = st_store s !! y).
Proof.
  destruct s as [m root calls]. simpl. intros Hrb Hll Hlk Hfuel.
  destruct (insert_rebalances m root calls t0 t node cb fuel Hrb Hll Hlk Hfuel)
    as (m' & root' & calls' & t' & Hrun & Hlk' & Hrb' & Hio & Hfr).
  exists (mk_state m' root' calls'), t'. simpl. split_and!; auto.
  intros key Hbst. apply sorted_bst. rewrite Hio. by apply bst_sorted.
Qed.

Lemma __ph_insert_rebalances_witness :
  ∃ s' t',
    __ph_insert 3 8 record_rotate leaf_linked_state = Some (tt, s') ∧
    linked (st_store s') (st_root s') t' ∧ is_rb t' ∧ inorder t' = [8; 16; 32].
Proof.
  destruct (__ph_insert_rebalances leaf_linked_state
              (Node (Node Leaf 16 Red Leaf) 32 Black Leaf)
              (Node (Node (Node Leaf 8 Red Leaf) 16 Red Leaf) 32 Black Leaf)
              8 record_rotate 3) as (s' & t' & H1 & H2 & H3 & H4 & _).
  - split_and!.
    + reflexivity.
    + simpl. split_and!; done.
    + intros h k Hh Hk. simpl in Hh, Hk. set_solver.
  - apply linked_left, linked_left, linked_here.
  - split.
    + simpl. split_and!; try done. eexists. split; [vm_compute; reflexivity |].
      simpl. split_and!; try done.
      eexists. split; [vm_compute; reflexivity |].
      simpl. split_and!; try done.
      eexists. split; [vm_compute; reflexivity |]. done.
    + simpl. repeat (apply NoDup_cons; split; [set_solver |]). apply NoDup_nil_2.
  - simpl. lia.
  - exists s', t'. done.
Defined.

(** ** Linking a node and fixing the colours up *)

Lemma leaf_linked_under node above a b :
  leaf_linked node a b → leaf_linked node (plug above a) (plug above b).
Proof.
  revert a b. induction above as [| f above IH]; intros a b H; [done |].
  cbn [plug]. apply IH. destruct f; simpl; by constructor.
Qed.

(** [ph_link_node] puts the node into the slot, as a leaf; the packed word
    of the node is left as the caller has set it. *)
Lemma ph_link_node_linked m root calls above node parent nn :
  linked m root (plug above Leaf) →
  node ∉ inorder (plug above Leaf) → node ≠ NULL → aligned node →
  m !! node = Some nn →
  __ph_parent_color nn = Z.lor (parent_above above) ph_RED →
  ∃ m' root',
    ph_link_node node parent (link_above above) (mk_state m root calls) =
      Some (tt, mk_state m' root' calls) ∧
    linked m' root' (plug above (Node Leaf node Red Leaf)) ∧
    (∀ y, y ∉ inorder (plug above (Node Leaf node Red Leaf)) → m' !! y = m !! y).
Proof.
  intros [Hr Hnd] Hfresh Hn0 Hnal Hnn Hpc.
  apply repr_plug in Hr as [Ha _]. cbn [root_of] in Ha.
  rewrite elem_of_plug in Hfresh.
  assert (node ∉ nodes_above above) as Hfresh' by tauto.
  apply NoDup_plug in Hnd as (_ & Hnda & _).
  assert (NoDup (inorder (plug above (Node Leaf node Red Leaf)))) as Hnd'.
  { rewrite inorder_plug_perm. simpl. by apply NoDup_cons. }
  destruct nn as [pc rn ln]. simpl in Hpc. subst pc.
  destruct above as [| [P c r | l P c] above].
  - (* the first node of the tree *)
    simpl in Ha. unfold ph_link_node. cbn [link_above parent_above] in *.
    eexists _, _. split; [run; reflexivity |]. split; [split; [| done] |].
    + simpl. split_and!; auto. eexists. split; [by rewrite lookup_insert_eq |]. done.
    + intros y Hy. rewrite !lookup_insert_ne; [done | |]; intros ->; apply Hy; simpl;
        set_solver.
  - (* into the left slot of [P] *)
    cbn [link_above parent_above] in *.
    pose proof Ha as (HP0 & HPal & nP & HnP & HpcP & HlP & HrP & Ha').
    assert (node ≠ P) as HnP'.
    { intros ->. apply Hfresh'. rewrite nodes_above_left. set_solver. }
    rewrite nodes_above_left in Hnda. apply NoDup_cons in Hnda as [HPn Hnda].
    unfold ph_link_node.
    eexists _, _. split; [run; reflexivity |]. split; [split; [| done] |].
    + apply repr_plug. split.
      * cbn [root_of repr_above]. split_and!; auto.
        eexists. split; [by rewrite lookup_insert_eq |].
        cbn [__ph_parent_color ph_left ph_right]. split_and!; auto.
        -- apply (repr_frame m); [| done]. intros y Hy.
           rewrite !lookup_insert_ne; [done | | |]; intros ->.
           ++ apply Hfresh'. rewrite nodes_above_left. set_solver.
           ++ apply Hfresh'. rewrite nodes_above_left. set_solver.
           ++ apply HPn. set_solver.
        -- apply (repr_above_frame m); [| done]. intros y Hy.
           rewrite !lookup_insert_ne; [done | | |]; intros ->.
           ++ apply Hfresh'. rewrite nodes_above_left. set_solver.
           ++ apply Hfresh'. rewrite nodes_above_left. set_solver.
           ++ apply HPn. set_solver.
      * cbn [root_of repr parent_above]. split_and!; auto.
        eexists. split; [rewrite lookup_insert_ne by done; by rewrite lookup_insert_eq |].
        simpl. by rewrite lor_red.
    + intros y Hy. rewrite elem_of_plug in Hy.
      rewrite !lookup_insert_ne; [done | | |]; intros ->; apply Hy.
      * left. simpl. set_solver.
      * left. simpl. set_solver.
      * right. rewrite nodes_above_left. set_solver.
  - (* into the right slot of [P] *)
    cbn [link_above parent_above] in *.
    pose proof Ha as (HP0 & HPal & nP & HnP & HpcP & HrP & HlP & Ha').
    assert (node ≠ P) as HnP'.
    { intros ->. apply Hfresh'. rewrite nodes_above_right. set_solver. }
    rewrite nodes_above_right in Hnda. apply NoDup_cons in Hnda as [HPn Hnda].
    unfold ph_link_node.
    eexists _, _. split; [run; reflexivity |]. split; [split; [| done] |].
    + apply repr_plug. split.
      * cbn [root_of repr_above]. split_and!; auto.
        eexists. split; [by rewrite lookup_insert_eq |].
        cbn [__ph_parent_color ph_left ph_right]. split_and!; auto.
        -- apply (repr_frame m); [| done]. intros y Hy.
           rewrite !lookup_insert_ne; [done | | |]; intros ->.
           ++ apply Hfresh'. rewrite nodes_above_right. set_solver.
           ++ apply Hfresh'. rewrite nodes_above_right. set_solver.
           ++ apply HPn. set_solver.
        -- apply (repr_above_frame m); [| done]. intros y Hy.
           rewrite !lookup_insert_ne; [done | | |]; intros ->.
           ++ apply Hfresh'. rewrite nodes_above_right. set_solver.
           ++ apply Hfresh'. rewrite nodes_above_right. set_solver.
           ++ apply HPn. set_solver.
      * cbn [root_of repr parent_above]. split_and!; auto.
        eexists. split; [rewrite lookup_insert_ne by done; by rewrite lookup_insert_eq |].
        simpl. by rewrite lor_red.
    + intros y Hy. rewrite elem_of_plug in Hy.
      rewrite !lookup_insert_ne; [done | | |]; intros ->; apply Hy.
      * left. simpl. set_solver.
      * left. simpl. set_solver.
      * right. rewrite nodes_above_right. set_solver.
Qed.

(** Linking a node into an empty slot of a red-black tree and then calling
    [ph_insert_color] inserts it: the result is a red-black tree with the
    node at the place of the slot in the order of the nodes.  [ph_link_node]
    does not use its argument [parent]; the caller has to have stored the
    parent, with the colour RED, in the packed word of the node. *)
Theorem insert_at_inserts (s : ph_state) (above : path) (node parent : Z) (nn : ph_node)
    (fuel : nat) :
  is_rb (plug above Leaf) →
  linked (st_store s) (st_root s) (plug above Leaf) →
  node ∉ inorder (plug above Leaf) → node ≠ NULL → aligned node →
  st_store s !! node = Some nn →
  __ph_parent_color nn = Z.lor (parent_above above) ph_RED →
  (height (plug above (Node Leaf node Red Leaf)) ≤ fuel)%nat →
  ∃ s' t',
    insert_at fuel node parent (link_above above) s = Some (tt, s') ∧
    linked (st_store s') (st_root s') t' ∧ is_rb t' ∧
    inorder t' = nodes_before above ++ node :: nodes_after above ∧
    (∀ y, y ≠ node → y ∉ inorder (plug above Leaf) → st_store s' !! y = st_store s !! y) ∧
    st_calls s' = st_calls s.
Proof.
  destruct s as [m root calls]. simpl.
  intros Hrb Hlk Hfresh Hn0 Hnal Hnn Hpc Hfuel.
  destruct (ph_link_node_linked m root calls above node parent nn)
    as (m1 & root1 & Hrun1 & Hlk1 & Hfr1); auto.
  destruct (insert_rebalances m1 root1 calls (plug above Leaf)
              (plug above (Node Leaf node Red Leaf)) node dummy_rotate fuel)
    as (m' & root' & calls' & t' & Hrun & Hlk' & Hrb' & Hio & Hfr); auto.
  { apply leaf_linked_under. constructor. }
  assert (calls' = calls) as ->.
  { assert (calls_at_most dummy_rotate 2 (__ph_insert fuel node dummy_rotate)) as H.
    { unfold __ph_insert. apply cam_bind0; [nc | intros ?]. apply insert_loop_calls. }
    destruct (H _ _ _ Hrun) as (rs & _ & Hc). by rewrite apply_calls_dummy in Hc. }
  exists (mk_state m' root' calls), t'. simpl. split_and!; auto.
  - unfold insert_at, ph_insert_color. by rewrite (bind_run _ _ _ _ _ Hrun1).
  - rewrite Hio, inorder_plug. done.
  - intros y Hy Hyt.
    assert (y ∉ inorder (plug above (Node Leaf node Red Leaf))) as Hy'.
    { rewrite elem_of_plug in Hyt |- *. simpl. set_solver. }
    rewrite Hfr by done. by apply Hfr1.
Qed.

Lemma insert_at_inserts_witness :
  ∃ s' t',
    insert_at 3 64 0 (link_right 48) preset_node_state = Some (tt, s') ∧
    linked (st_store s') (st_root s') t' ∧ is_rb t' ∧ inorder t' = [16; 32; 48; 64].
Proof.
  destruct (insert_at_inserts preset_node_state
              [below_right Leaf 48 Red; below_right (Node Leaf 16 Red Leaf) 32 Black]
              64 0 (mk_ph_node (Z.lor 48 ph_RED) 7 7) 3)
    as (s' & t' & H1 & H2 & H3 & H4 & _).
  - apply is_rb_iff. simpl. split_and!; done.
  - split.
    + simpl. split_and!; try done. eexists. split; [vm_compute; reflexivity |].
      simpl. split_and!; try done.
      * eexists. split; [vm_compute; reflexivity |]. done.
      * eexists. split; [vm_compute; reflexivity |]. done.
    + simpl. repeat (apply NoDup_cons; split; [set_solver |]). apply NoDup_nil_2.
  - simpl. set_solver.
  - done.
  - reflexivity.
  - reflexivity.
  - reflexivity.
  - simpl. lia.
  - exists s', t'. done.
Defined.

(** ** Replacement keeps the invariants *)

Lemma color_of_rename old new t : color_of (rename old new t) = color_of t.
Proof. by destruct t. Qed.

Lemma no_red_red_rename old new t : no_red_red t → no_red_red (rename old new t).
Proof.
  induction t as [| l IHl a c r IHr]; simpl; [done |].
  rewrite !color_of_rename. tauto.
Qed.

Lemma black_counts_rename old new t : black_counts (rename old new t) = black_counts t.
Proof. induction t as [| l IHl a c r IHr]; simpl; [done |]. by rewrite IHl, IHr. Qed.

Lemma is_rb_rename old new t : is_rb t → is_rb (rename old new t).
Proof.
  intros (H1 & H2 & H3). split_and!.
  - unfold root_black. by rewrite color_of_rename.
  - by apply no_red_red_rename.
  - unfold black_balanced. by rewrite black_counts_rename.
Qed.

Lemma bst_rename (key : Z → Z) old new t :
  key new = key old → bst key t → bst key (rename old new t).
Proof.
  intros Hk.
  assert (∀ a, key (rename_addr old new a) = key a) as Hka.
  { intros a. unfold rename_addr. destruct (Z.eqb_spec a old); congruence. }
  induction t as [| l IHl a c r IHr]; simpl; [done |].
  intros (Hl & Hr & Hlt & Hgt). split_and!; auto.
  - intros x Hx. rewrite inorder_rename in Hx.
    apply list_elem_of_fmap in Hx as (y & -> & Hy). rewrite !Hka. by apply Hlt.
  - intros x Hx. rewrite inorder_rename in Hx.
    apply list_elem_of_fmap in Hx as (y & -> & Hy). rewrite !Hka. by apply Hgt.
Qed.

(** [ph_replace_node] needs no rebalancing: the tree it leaves has the
    shape and the colours it had, so it is red-black if it was, and it is a
    search tree if it was and [new] ranks as [victim] did. *)
Theorem ph_replace_node_keeps_invariants (s : ph_state) (t : tree) (victim new : Z)
    (nn : ph_node) :
  linked (st_store s) (st_root s) t → victim ∈ inorder t → new ∉ inorder t →
  new ≠ NULL → aligned new → st_store s !! new = Some nn →
  ∃ s',
    ph_replace_node victim new s = Some (tt, s') ∧
    linked (st_store s') (st_root s') (rename victim new t) ∧
    (is_rb t → is_rb (rename victim new t)) ∧
    (∀ key, key new = key victim → bst key t → bst key (rename victim new t)) ∧
    height (rename victim new t) = height t.
Proof.
  destruct s as [m root calls]. simpl. intros Hlk Hv Hn Hn0 Hna Hnn.
  destruct (ph_replace_node_linked m root calls t victim new nn Hlk Hv Hn Hn0 Hna Hnn)
    as (q & c & l & r & _ & H). cbn zeta in H.
  destruct H as (Hrun & _ & _ & _ & _ & _ & Hlk').
  eexists. split; [exact Hrun |]. simpl. split_and!; auto.
  - apply is_rb_rename.
  - intros key. apply bst_rename.
  - clear. induction t as [| l IHl a c r IHr]; simpl; [done |]. by rewrite IHl, IHr.
Qed.

Lemma ph_replace_node_keeps_invariants_witness :
  ∃ s', ph_replace_node 48 64 three_nodes_state = Some (tt, s') ∧
        linked (st_store s') (st_root s')
          (Node (Node Leaf 16 Red Leaf) 32 Black (Node Leaf 64 Red Leaf)).
Proof.
  destruct (ph_replace_node_keeps_invariants three_nodes_state three_nodes_tree 48 64
              (cleared_node 64)) as (s' & H1 & H2 & _).
  - exact three_nodes_linked.
  - simpl. set_solver.
  - simpl. set_solver.
  - done.
  - reflexivity.
  - reflexivity.
  - exists s'. split; [exact H1 | exact H2].
Defined.

(** ** Logarithmic height *)

Lemma rb_size_bound t : balanced t → (2 ^ bh t ≤ size t + 1)%nat.
Proof.
  induction t as [| l IHl a c r IHr]; simpl; [lia |].
  intros (Hl & Hr & Heq). specialize (IHl Hl). specialize (IHr Hr). rewrite <- Heq in IHr.
  destruct c; simpl.
  - rewrite Nat.add_0_r. lia.
  - rewrite Nat.add_1_r, Nat.pow_succ_r'. lia.
Qed.

Lemma rb_height_bound t :
  balanced t → no_red_red t →
  (height t ≤ 2 * bh t + match color_of t with Red => 1 | Black => 0 end)%nat.
Proof.
  induction t as [| l IHl a c r IHr]; simpl; [lia |].
  intros (Hl & Hr & Heq) (Hc & Hnl & Hnr).
  specialize (IHl Hl Hnl). specialize (IHr Hr Hnr). rewrite <- Heq in IHr.
  destruct c; simpl.
  - destruct Hc as [Hcl Hcr]; [done |]. rewrite Hcl in IHl. rewrite Hcr in IHr. lia.
  - destruct (color_of l), (color_of r); lia.
Qed.

Lemma is_rb_height t : is_rb t → (height t ≤ 2 * Nat.log2 (size t + 1))%nat.
Proof.
  intros Hrb. apply is_rb_iff in Hrb as (Hroot & Hnrr & Hbal).
  pose proof (rb_height_bound t Hbal Hnrr) as Hh. rewrite Hroot in Hh.
  pose proof (rb_size_bound t Hbal) as Hs.
  apply Nat.log2_le_pow2 in Hs; lia.
Qed.

Lemma leaf_linked_height node t0 t : leaf_linked node t0 t → (height t ≤ S (height t0))%nat.
Proof. induction 1; simpl; lia. Qed.

(** On a red-black tree of [n] nodes the loops of [ph_first], [ph_last],
    [ph_next] and [ph_prev] end within [2 * log2 (n + 1)] rounds, and the
    loop of [__ph_insert], for a RED leaf linked to it, within one round
    more. *)
Theorem rb_operations_logarithmic (s : ph_state) (t : tree) (fuel : nat) :
  linked (st_store s) (st_root s) t → is_rb t →
  (2 * Nat.log2 (size t + 1) ≤ fuel)%nat →
  ph_first fuel (st_store s) (st_root s) = Some (default NULL (head (inorder t))) ∧
  ph_last fuel (st_store s) (st_root s) = Some (default NULL (last (inorder t))) ∧
  (∀ pre y rest, inorder t = pre ++ y :: rest →
     ph_next fuel (st_store s) y = Some (default NULL (head rest)) ∧
     ph_prev fuel (st_store s) y = Some (default NULL (last pre))) ∧
  (∀ s1 t1 node cb,
     leaf_linked node t t1 → linked (st_store s1) (st_root s1) t1 →
     ∃ s' t', __ph_insert (S fuel) node cb s1 = Some (tt, s') ∧
              linked (st_store s') (st_root s') t' ∧ is_rb t' ∧ inorder t' = inorder t1).
Proof.
  intros Hlk Hrb Hfuel. pose proof (is_rb_height t Hrb) as Hh.
  assert (height t ≤ fuel)%nat as Hf by lia.
  split_and!.
  - rewrite (ph_first_linked _ _ t) by done. by rewrite first_in_head.
  - by apply ph_last_linked.
  - intros pre y rest Heq. split.
    + by apply (ph_next_follows _ (st_root s) t fuel pre).
    + by apply (ph_prev_precedes _ (st_root s) t fuel pre y rest).
  - intros [m1 root1 calls1] t1 node cb Hll Hlk1. simpl in Hlk1.
    pose proof (leaf_linked_height _ _ _ Hll) as Hh1.
    destruct (insert_rebalances m1 root1 calls1 t t1 node cb (S fuel))
      as (m' & root' & calls' & t' & Hrun & Hlk' & Hrb' & Hio & _); auto; [lia |].
    by exists (mk_state m' root' calls'), t'.
Qed.

Lemma rb_operations_logarithmic_witness :
  ph_first 4 three_nodes (mk_ph_root 32) = Some 16 ∧
  ph_next 4 three_nodes 32 = Some 48.
Proof.
  destruct (rb_operations_logarithmic three_nodes_state three_nodes_tree 4)
    as (H1 & _ & H3 & _).
  - exact three_nodes_linked.
  - apply is_rb_iff. simpl. split_and!; done.
  - vm_compute. lia.
  - split; [exact H1 |]. by destruct (H3 [16] 32 [48] eq_refl) as [? _].
Defined.

(** ** Sequences of valid inserts and erases *)

(** The nodes under a root spell out one tree. *)
Lemma repr_inj m t :
  ∀ t' p x, aligned p → repr m p t x → repr m p t' x → t = t'.
Proof.
  induction t as [| l IHl a c r IHr]; intros [| l' a' c' r'] p x Hp H H'; simpl in H, H'.
  - done.
  - destruct H' as (-> & Hne & _). done.
  - destruct H as (-> & Hne & _). done.
  - destruct H as (-> & _ & Ha & n & Hn & Hpc & Hl & Hr).
    destruct H' as (<- & _ & _ & n' & Hn' & Hpc' & Hl' & Hr').
    rewrite Hn in Hn'. injection Hn' as <-.
    rewrite Hpc in Hpc'.
    apply packed_inj in Hpc' as [_ Hc]; auto using color_bit_range.
    assert (c = c') as <- by (by destruct c, c').
    by rewrite (IHl l' a _ Ha Hl Hl'), (IHr r' a _ Ha Hr Hr').
Qed.

Lemma linked_inj m root t t' : linked m root t → linked m root t' → t = t'.
Proof. intros [H _] [H' _]. exact (repr_inj m t t' NULL _ aligned_0 H H'). Qed.

(** [ph_erase] returns on every node of a red-black tree and leaves a
    red-black tree. *)
Lemma erase_is_rb t node :
  is_rb t → node ∈ inorder t → ∃ t', ph_erase node t = Some t' ∧ is_rb t'.
Proof.
  intros Hrb Hin.
  destruct (erase_augmented_ok t node dummy_callbacks [] Hrb Hin)
    as (above & l & c & r & e & cr & _ & _ & He & Hreb & Hp & Hb & Hn & Hc & _).
  pose proof (erase_rebalance_ok dummy_rotate _ _ cr (er_calls e) Hp Hb Hn Hc) as [Hfix _].
  unfold ph_erase, ____ph_erase_color. rewrite He, Hreb.
  destruct (is_black cr); (eexists; split; [reflexivity | exact Hfix]).
Qed.

Lemma valid_ops_is_rb ops t : valid_ops ops t → is_rb t.
Proof.
  induction 1 as [| ops t0 t t' node cb fuel s s' _ IH Hleaf Hlinked Hfuel Hrun Hlinked'
                  | ops t t' node _ IH Hin Herase].
  - split_and!; [done | done |]. intros h k Hh Hk. simpl in Hh, Hk. set_solver.
  - destruct s as [m root calls].
    destruct (insert_rebalances m root calls t0 t node cb fuel IH Hleaf Hlinked Hfuel)
      as (m' & root' & calls' & t'' & Hrun' & Hl'' & Hrb & _).
    rewrite Hrun in Hrun'. injection Hrun' as ->.
    by rewrite (linked_inj _ _ _ _ Hlinked' Hl'').
  - destruct (erase_is_rb t node IH Hin) as (t'' & Herase' & Hrb).
    rewrite Herase in Herase'. by injection Herase' as ->.
Qed.

(** C1: every finite sequence of valid operations from the empty tree, an
    insert being a node linked as a RED leaf and then [__ph_insert], an
    erase being [ph_erase] on a node of the tree, leaves a tree with the
    three invariants: the root, if present, is BLACK; no RED node has a RED
    child; every path from the root to an absent child passes through the
    same number of BLACK nodes.  Such a sequence can always go on: on the
    tree it has left, [__ph_insert] returns for every node linked as a RED
    leaf, with the nodes spelling out a tree again, and [ph_erase] returns
    for every node of the tree. *)
Theorem valid_ops_keep_invariants (ops : list ph_op) (t : tree) :
  valid_ops ops t →
  (root_black t ∧ no_red_red t ∧ black_balanced t) ∧
  (∀ node t1 augment_rotate fuel s,
     leaf_linked node t t1 → linked (st_store s) (st_root s) t1 →
     (height t1 ≤ fuel)%nat →
     ∃ s' t', __ph_insert fuel node augment_rotate s = Some (tt, s') ∧
              linked (st_store s') (st_root s') t' ∧
              valid_ops (ops ++ [op_insert node]) t') ∧
  (∀ node, node ∈ inorder t →
     ∃ t', ph_erase node t = Some t' ∧ valid_ops (ops ++ [op_erase node]) t').
Proof.
  intros Hops. pose proof (valid_ops_is_rb ops t Hops) as Hrb.
  split; [exact Hrb |]. split.
  - intros node t1 cb fuel [m root calls] Hleaf Hlinked Hfuel.
    destruct (insert_rebalances m root calls t t1 node cb fuel Hrb Hleaf Hlinked Hfuel)
      as (m' & root' & calls' & t' & Hrun & Hl' & _).
    exists (mk_state m' root' calls'), t'. split; [exact Hrun |]. split; [exact Hl' |].
    exact (ops_insert ops t t1 t' node cb fuel _ _ Hops Hleaf Hlinked Hfuel Hrun Hl').
  - intros node Hin.
    destruct (erase_is_rb t node Hrb Hin) as (t' & Herase & _).
    exists t'. split; [exact Herase |].
    exact (ops_erase ops t t' node Hops Hin Herase).
Qed.

Lemma valid_ops_keep_invariants_witness :
  valid_ops [op_insert 32; op_insert 16; op_insert 8; op_erase 16]
            (Node (Node Leaf 8 Red Leaf) 32 Black Leaf) ∧
  root_black (Node (Node Leaf 8 Red Leaf) 32 Black Leaf) ∧
  no_red_red (Node (Node Leaf 8 Red Leaf) 32 Black Leaf) ∧
  black_balanced (Node (Node Leaf 8 Red Leaf) 32 Black Leaf).
Proof.
  assert (valid_ops [op_insert 32; op_insert 16; op_insert 8; op_erase 16]
            (Node (Node Leaf 8 Red Leaf) 32 Black Leaf)) as Hops.
  { apply (ops_erase [op_insert 32; op_insert 16; op_insert 8]
             (Node (Node Leaf 8 Red Leaf) 16 Black (Node Leaf 32 Red Leaf)) _ 16).
    - apply (ops_insert [op_insert 32; op_insert 16]
               (Node (Node Leaf 16 Red Leaf) 32 Black Leaf)
               (Node (Node (Node Leaf 8 Red Leaf) 16 Red Leaf) 32 Black Leaf)
               _ 8 dummy_rotate 3 leaf_linked_state
               (mk_state (<[16 := mk_ph_node (Z.lor NULL ph_BLACK) 32 8]>
                           (<[32 := mk_ph_node (Z.lor 16 ph_RED) 0 0]>
                              (<[8 := mk_ph_node (Z.lor 16 ph_RED) 0 0]> ∅)))
                         (mk_ph_root 16) [])).
      + apply (ops_insert [op_insert 32]
                 (Node Leaf 32 Black Leaf)
                 (Node (Node Leaf 16 Red Leaf) 32 Black Leaf)
                 _ 16 dummy_rotate 2 child_linked_state child_linked_state).
        * apply (ops_insert [] Leaf (Node Leaf 32 Red Leaf) _ 32 dummy_rotate 1
                   root_linked_state
                   (mk_state (<[32 := mk_ph_node (Z.lor NULL ph_BLACK) 0 0]> ∅)
                             (mk_ph_root 32) [])).
          -- apply ops_none.
          -- apply linked_here.
          -- split; [| simpl; repeat (apply NoDup_cons; split; [set_solver |]);
                       apply NoDup_nil_2].
             simpl. split_and!; try done. eexists. split; [vm_compute; reflexivity |]. done.
          -- simpl. lia.
          -- vm_compute. reflexivity.
          -- split; [| simpl; repeat (apply NoDup_cons; split; [set_solver |]);
                       apply NoDup_nil_2].
             simpl. split_and!; try done. eexists. split; [vm_compute; reflexivity |]. done.
        * apply linked_left, linked_here.
        * split; [| simpl; repeat (apply NoDup_cons; split; [set_solver |]);
                     apply NoDup_nil_2].
          simpl. split_and!; try done. eexists. split; [vm_compute; reflexivity |].
          simpl. split_and!; try done. eexists. split; [vm_compute; reflexivity |]. done.
        * simpl. lia.
        * vm_compute. reflexivity.
        * split; [| simpl; repeat (apply NoDup_cons; split; [set_solver |]);
                     apply NoDup_nil_2].
          simpl. split_and!; try done. eexists. split; [vm_compute; reflexivity |].
          simpl. split_and!; try done. eexists. split; [vm_compute; reflexivity |]. done.
      + apply linked_left, linked_left, linked_here.
      + split; [| simpl; repeat (apply NoDup_cons; split; [set_solver |]);
                   apply NoDup_nil_2].
        simpl. split_and!; try done. eexists. split; [vm_compute; reflexivity |].
        simpl. split_and!; try done. eexists. split; [vm_compute; reflexivity |].
        simpl. split_and!; try done. eexists. split; [vm_compute; reflexivity |]. done.
      + simpl. lia.
      + vm_compute. reflexivity.
      + split; [| simpl; repeat (apply NoDup_cons; split; [set_solver |]);
                   apply NoDup_nil_2].
        simpl. split_and!; try done. eexists. split; [vm_compute; reflexivity |].
        simpl. split_and!; try done.
        * eexists. split; [vm_compute; reflexivity |]. done.
        * eexists. split; [vm_compute; reflexivity |]. done.
    - simpl. set_solver.
    - vm_compute. reflexivity. }
  split; [exact Hops |].
  apply (valid_ops_keep_invariants _ _ Hops).
Defined.
